(** * SHIfT-coding: PostgreSQL log parsers

    A shallow embedding of the three drivers of the repository
    ([dayparserz.py], [minparserz.py], [parser.py]) and the properties of
    the statement-reconstruction, normalization and aggregation pipeline.

    Text is modelled as [list ascii], the bytes of its UTF-8 encoding.
    The character predicates below are those of Python's [str] methods
    and of the [re] module on the ASCII range (code points below 128);
    a byte of another character is taken as an ordinary character:
    neither white space, nor a digit, nor a word character.  Python
    knows white space, digits and letters outside of ASCII, so what a
    function returns on a text is stated for the text on which the
    predicates are Python's: ASCII text, see [Normalizer.ascii_text]. *)

From Stdlib Require Import Ascii String NArith.
From Stdlib Require Import Numbers.DecimalString.
From Stdlib Require Numbers.DecimalNat.
From stdpp Require Import gmap strings list fin_maps sorting lexico.

Local Open Scope list_scope.

(** ** Python [str] on ASCII text *)

Module Text.

Abbreviation str := (list ascii).

(** String literals of the source, as character lists. *)
Definition L (s : string) : str := list_ascii_of_string s.
Global Arguments L : simpl never.

Definition code (c : ascii) : N := N_of_ascii c.

(** A character of the ASCII range. *)
Definition is_ascii (c : ascii) : bool := (code c <? 128)%N.

(** [c.isdigit()] and the class [\d]. *)
Definition is_digit (c : ascii) : bool :=
  ((48 <=? code c) && (code c <=? 57))%N.

(** [c.isspace()] and the class [\s]: TAB, LF, VT, FF, CR, the four
    separators FS, GS, RS, US, and the space. *)
Definition is_space (c : ascii) : bool :=
  (((9 <=? code c) && (code c <=? 13))
   || ((28 <=? code c) && (code c <=? 32)))%N.

Definition is_upper (c : ascii) : bool :=
  ((65 <=? code c) && (code c <=? 90))%N.

Definition is_lower (c : ascii) : bool :=
  ((97 <=? code c) && (code c <=? 122))%N.

(** The class [\w]. *)
Definition is_word (c : ascii) : bool :=
  is_digit c || is_upper c || is_lower c || (code c =? 95)%N.

Definition to_upper (c : ascii) : ascii :=
  if is_lower c then ascii_of_N (code c - 32) else c.

Definition to_lower (c : ascii) : ascii :=
  if is_upper c then ascii_of_N (code c + 32) else c.

(** [s.upper()] *)
Definition upper (s : str) : str := to_upper <$> s.

Definition eqc (a b : ascii) : bool := (code a =? code b)%N.

Fixpoint eqs (a b : str) : bool :=
  match a, b with
  | [], [] => true
  | x :: a', y :: b' => eqc x y && eqs a' b'
  | _, _ => false
  end.

Fixpoint drop_while (p : ascii → bool) (s : str) : str :=
  match s with
  | [] => []
  | c :: s' => if p c then drop_while p s' else s
  end.

(** [s.lstrip()], [s.rstrip()], [s.strip()], [s.rstrip(';')] *)
Definition lstrip (s : str) : str := drop_while is_space s.
Definition rstrip_with (p : ascii → bool) (s : str) : str :=
  reverse (drop_while p (reverse s)).
Definition rstrip (s : str) : str := rstrip_with is_space s.
Definition strip (s : str) : str := lstrip (rstrip s).
Definition rstrip_semi (s : str) : str := rstrip_with (eqc ";"%char) s.

(** [s.split()]: the maximal runs of non-space characters. [cur] is
    the run being read, latest character first. *)
Fixpoint split_go (cur : str) (s : str) : list str :=
  match s with
  | [] => match cur with [] => [] | _ => [reverse cur] end
  | c :: s' =>
      if is_space c
      then match cur with
           | [] => split_go [] s'
           | _ => reverse cur :: split_go [] s'
           end
      else split_go (c :: cur) s'
  end.

Definition split (s : str) : list str := split_go [] s.

(** [sep.join(l)] *)
Fixpoint join (sep : str) (l : list str) : str :=
  match l with
  | [] => []
  | [x] => x
  | x :: l' => x ++ sep ++ join sep l'
  end.

(** [s.startswith(p)] *)
Fixpoint starts_with (p s : str) : bool :=
  match p, s with
  | [], _ => true
  | x :: p', y :: s' => eqc x y && starts_with p' s'
  | _ :: _, [] => false
  end.

(** [s.endswith(p)] *)
Definition ends_with (p s : str) : bool :=
  starts_with (reverse p) (reverse s).

(** [s.find(p)]: [None] stands for Python's [-1]. *)
Fixpoint find (p s : str) : option nat :=
  if starts_with p s then Some 0
  else match s with
       | [] => None
       | _ :: s' => S <$> find p s'
       end.

(** [p in s] *)
Definition contains (p s : str) : bool := bool_decide (is_Some (find p s)).

(** [s.split(sep, 1)]: one part when [sep] does not occur, two
    otherwise. *)
Definition split_once (sep s : str) : list str :=
  match find sep s with
  | None => [s]
  | Some i => [take i s; drop (i + length sep) s]
  end.

(** [s1 <= s2] on Python strings: the lexicographic order of the code
    points. *)
Fixpoint str_leb (a b : str) : bool :=
  match a, b with
  | [], _ => true
  | _ :: _, [] => false
  | x :: a', y :: b' =>
      if (code x <? code y)%N then true
      else if (code y <? code x)%N then false
      else str_leb a' b'
  end.

Definition str_le (a b : str) : Prop := str_leb a b = true.
Definition str_lt (a b : str) : Prop := str_leb b a = false.

(** [str(n)] for a non-negative integer. *)
Definition show_nat (n : nat) : str :=
  L (NilZero.string_of_uint (Nat.to_uint n)).

End Text.

Import Text.

(** ** A backtracking matcher for the patterns of the source

    The matcher explores the alternatives in the order of Python's [re]:
    the left branch of [|] first, one more iteration first for a greedy
    repetition, one iteration fewer first for a lazy one.  A position is
    the index [i] in the subject, the character [c] before it and the
    text [s] after it; groups record the indices where they start and
    stop. *)

Module Regex.

Inductive regex : Type :=
| Chr (p : ascii → bool)          (* one character of a class *)
| Eps                             (* the empty pattern *)
| Cat (r1 r2 : regex)             (* r1 r2 *)
| Alt (r1 r2 : regex)             (* r1|r2 *)
| Rep (greedy : bool) (r : regex) (* r* and r*? *)
| Bol                             (* ^ *)
| Eol                             (* $ *)
| Wordb                           (* \b *)
| Grp (n : nat) (r : regex).      (* the n-th capturing group *)

Definition caps := list (nat * (nat * nat)).
Definition cont (R : Type) := nat → option ascii → str → caps → option R.

Definition orelse {R} (x y : option R) : option R :=
  match x with Some _ => x | None => y end.

Definition word_before (c : option ascii) : bool :=
  match c with Some a => is_word a | None => false end.
Definition word_after (s : str) : bool :=
  match s with a :: _ => is_word a | [] => false end.

(** The iterations of a repetition. An iteration that consumes nothing
    is refused, so [fuel = length s] iterations are enough. *)
Fixpoint rep_loop {R} (greedy : bool)
    (body : nat → option ascii → str → caps → cont R → option R)
    (fuel : nat) (i : nat) (c : option ascii) (s : str) (g : caps)
    (k : cont R) : option R :=
  match fuel with
  | 0 => k i c s g
  | S fuel' =>
      let more :=
        body i c s g (λ i' c' s' g',
          if length s' <? length s
          then rep_loop greedy body fuel' i' c' s' g' k
          else None) in
      if greedy then orelse more (k i c s g) else orelse (k i c s g) more
  end.

Fixpoint exec {R} (r : regex) (i : nat) (c : option ascii) (s : str)
    (g : caps) (k : cont R) : option R :=
  match r with
  | Chr p =>
      match s with
      | a :: s' => if p a then k (S i) (Some a) s' g else None
      | [] => None
      end
  | Eps => k i c s g
  | Cat r1 r2 => exec r1 i c s g (λ i' c' s' g', exec r2 i' c' s' g' k)
  | Alt r1 r2 => orelse (exec r1 i c s g k) (exec r2 i c s g k)
  | Rep greedy r1 => rep_loop greedy (exec r1) (length s) i c s g k
  | Bol => match i with 0 => k i c s g | _ => None end
  | Eol =>
      match s with
      | [] => k i c s g
      | [a] => if eqc a "010"%char then k i c s g else None
      | _ => None
      end
  | Wordb =>
      if xorb (word_before c) (word_after s) then k i c s g else None
  | Grp n r1 =>
      exec r1 i c s g (λ i' c' s' g', k i' c' s' ((n, (i, i')) :: g'))
  end.

(** Derived forms. *)
Definition Plus (greedy : bool) (r : regex) : regex := Cat r (Rep greedy r).
Definition Opt (r : regex) : regex := Alt r Eps.
Fixpoint Times (n : nat) (r : regex) : regex :=
  match n with
  | 0 => Eps
  | 1 => r
  | S n' => Cat r (Times n' r)
  end.
(** A literal; under [re.IGNORECASE] when [ci] is set. *)
Fixpoint Lit (ci : bool) (s : str) : regex :=
  match s with
  | [] => Eps
  | [a] => Chr (λ x, if ci then eqc (to_lower x) (to_lower a) else eqc x a)
  | a :: s' =>
      Cat (Chr (λ x, if ci then eqc (to_lower x) (to_lower a) else eqc x a))
          (Lit ci s')
  end.
(** [.]: any character but a line feed. *)
Definition Dot : regex := Chr (λ x, negb (eqc x "010"%char)).
Definition Digit : regex := Chr is_digit.

(** The text of a group: [m.group(n)], [None] for a group that took no
    part in the match. *)
Fixpoint group (n : nat) (g : caps) (subject : str) : option str :=
  match g with
  | [] => None
  | (m, (b, e)) :: g' =>
      if m =? n then Some (take (e - b) (drop b subject))
      else group n g' subject
  end.

(** [pattern.match(s)]: the groups of a match at the start of [s]. *)
Definition re_match (r : regex) (s : str) : option caps :=
  exec r 0 None s [] (λ _ _ _ g, Some g).

(** One attempt at a position; [must_advance] refuses an empty match. *)
Definition attempt (r : regex) (must_advance : bool) (i : nat)
    (c : option ascii) (s : str) : option (nat * option ascii * str * caps) :=
  exec r i c s [] (λ i' c' s' g',
    if must_advance && (i' =? i) then None else Some (i', c', s', g')).

(** [pattern.search(s)]: the leftmost match. *)
Fixpoint search_from (r : regex) (i : nat) (c : option ascii) (s : str)
    : option (nat * caps) :=
  match attempt r false i c s with
  | Some (_, _, _, g) => Some (i, g)
  | None =>
      match s with
      | [] => None
      | a :: s' => search_from r (S i) (Some a) s'
      end
  end.
Definition re_search (r : regex) (s : str) : option (nat * caps) :=
  search_from r 0 None s.

(** [pattern.sub(repl, s)] for a replacement without back-references:
    the non-overlapping matches from left to right; after an empty
    match the next attempt at the same place has to advance. *)
Fixpoint sub_loop (r : regex) (repl : str) (fuel : nat) (i : nat)
    (c : option ascii) (s : str) : str :=
  match fuel with
  | 0 => s
  | S fuel' =>
      let skip :=
        match s with
        | [] => []
        | a :: s' => a :: sub_loop r repl fuel' (S i) (Some a) s'
        end in
      match attempt r false i c s with
      | Some (i', c', s', _) =>
          if i <? i'
          then repl ++ sub_loop r repl fuel' i' c' s'
          else repl ++
               match attempt r true i c s with
               | Some (i', c', s', _) =>
                   repl ++ sub_loop r repl fuel' i' c' s'
               | None => skip
               end
      | None => skip
      end
  end.
Definition re_sub (r : regex) (repl : str) (s : str) : str :=
  sub_loop r repl (S (length s)) 0 None s.

(** The groups of a pattern, and whether it is free of [^]. *)
Fixpoint groups_of (r : regex) : list nat :=
  match r with
  | Cat r1 r2 | Alt r1 r2 => groups_of r1 ++ groups_of r2
  | Rep _ r1 => groups_of r1
  | Grp n r1 => n :: groups_of r1
  | _ => []
  end.

Fixpoint no_bol (r : regex) : bool :=
  match r with
  | Cat r1 r2 | Alt r1 r2 => no_bol r1 && no_bol r2
  | Rep _ r1 | Grp _ r1 => no_bol r1
  | Bol => false
  | _ => true
  end.

(** Two results of a matcher that agree up to [Q]. *)
Definition opt_rel {A B} (Q : A → B → Prop) (x : option A) (y : option B)
    : Prop :=
  match x, y with
  | Some a, Some b => Q a b
  | None, None => True
  | _, _ => False
  end.

(** What a matcher promises about the call of its continuation: it
    stops inside the text, and adds groups of the pattern only. *)
Definition stops_inside {R} (r : regex)
    (run : nat → option ascii → str → caps → cont R → option R) : Prop :=
  ∀ i c s g k x,
    run i c s g k = Some x →
    ∃ m c' g',
      k (i + m) c' (drop m s) (g' ++ g) = Some x
      ∧ m ≤ length s
      ∧ Forall (λ e : nat * (nat * nat), e.1 ∈ groups_of r) g'.

Fixpoint no_wordb (r : regex) : bool :=
  match r with
  | Cat r1 r2 | Alt r1 r2 => no_wordb r1 && no_wordb r2
  | Rep _ r1 | Grp _ r1 => no_wordb r1
  | Wordb => false
  | _ => true
  end.

(** Two runs of a matcher, one [d] characters further in its subject
    and, when [free] is set, after another character, that agree as long
    as their continuations do. *)
Definition related_runs {A B} (Q : A → B → Prop) (d : nat) (free : bool)
    (run1 : nat → option ascii → str → caps → cont A → option A)
    (run2 : nat → option ascii → str → caps → cont B → option B) : Prop :=
  ∀ i c1 c2 s g1 g2 (k1 : cont A) (k2 : cont B),
    (free = false → c1 = c2) →
    (∀ i' ca cb s' ga gb,
       (free = false → ca = cb) →
       opt_rel Q (k1 (d + i') ca s' ga) (k2 i' cb s' gb)) →
    opt_rel Q (run1 (d + i) c1 s g1 k1) (run2 i c2 s g2 k2).

End Regex.

Import Regex.

(** ** The patterns compiled by the three drivers *)

Module Patterns.

Fixpoint Seq (l : list regex) : regex :=
  match l with
  | [] => Eps
  | [r] => r
  | r :: l' => Cat r (Seq l')
  end.

Definition quote : ascii := "'"%char.
Definition one (a : ascii) : regex := Chr (λ x, eqc x a).
Definition other_than (a : ascii) : regex := Chr (λ x, negb (eqc x a)).

(** [\d{4}-\d{2}-\d{2} \d{2}:\d{2}:\d{2}(?:\.\d+)?(?: UTC)?] under
    [re.IGNORECASE]: the first group of both log patterns. *)
Definition stamp : regex :=
  Seq [ Times 4 Digit; one "-"; Times 2 Digit; one "-"; Times 2 Digit;
        one " ";
        Times 2 Digit; one ":"; Times 2 Digit; one ":"; Times 2 Digit;
        Opt (Cat (one ".") (Plus true Digit));
        Opt (Lit true (L " UTC")) ].

(** dayparserz.py, line 12:
    [^(stamp).*?statement: (.*?)(?:;|$)], [re.IGNORECASE] *)
Definition log_pattern : regex :=
  Seq [ Bol; Grp 1 stamp; Rep false Dot; Lit true (L "statement: ");
        Grp 2 (Rep false Dot); Alt (one ";") Eol ].

(** minparserz.py, line 12:
    [^(stamp).*?:\s+(.*?)(?:;|$)], [re.IGNORECASE] *)
Definition log_pattern_min : regex :=
  Seq [ Bol; Grp 1 stamp; Rep false Dot; one ":"; Plus true (Chr is_space);
        Grp 2 (Rep false Dot); Alt (one ";") Eol ].

(** ['(?:''|[^'])*'] *)
Definition string_pattern : regex :=
  Seq [ one quote;
        Rep true (Alt (Cat (one quote) (one quote)) (other_than quote));
        one quote ].

(** [\b\d+\b] *)
Definition number_pattern : regex :=
  Seq [ Wordb; Plus true Digit; Wordb ].

(** [\b\d+\.\d+\b] *)
Definition float_pattern : regex :=
  Seq [ Wordb; Plus true Digit; one "."; Plus true Digit; Wordb ].

(** parser.py, line 17: [(\d{4}-\d{2}-\d{2} \d{2}:\d{2})] *)
Definition timestamp_regex : regex :=
  Grp 1 (Seq [ Times 4 Digit; one "-"; Times 2 Digit; one "-";
               Times 2 Digit; one " "; Times 2 Digit; one ":";
               Times 2 Digit ]).

(** parser.py, lines 7 to 9: [--.*], ['.*?'] and [\b\d+\b] *)
Definition comment_pattern : regex :=
  Seq [ one "-"; one "-"; Rep true Dot ].
Definition lazy_string_pattern : regex :=
  Seq [ one quote; Rep false Dot; one quote ].

End Patterns.

Import Patterns.

(** ** The normalizer ([normalize_sql], the same in both parsers) *)

Module Normalizer.

Definition str_placeholder : str := L "$str".
Definition num_placeholder : str := L "$num".

(** Lines 98 to 101: what [normalize_sql] computes on a cache miss. *)
Definition substitute (sql : str) : str :=
  let normalized := re_sub string_pattern str_placeholder sql in
  let normalized := re_sub float_pattern num_placeholder normalized in
  let normalized := re_sub number_pattern num_placeholder normalized in
  join (L " ") (split normalized).

(** The character before the position that follows [s], when [c] is
    the character before [s]. *)
Definition last_seen (c : option ascii) (s : str) : option ascii :=
  match last s with Some a => Some a | None => c end.

(** The text between the quotes of a string literal: any character but
    a quote, and the doubled quote that stands for one. *)
Inductive literal_body : str → Prop :=
| body_nil : literal_body []
| body_char c b : c ≠ quote → literal_body b → literal_body (c :: b)
| body_escaped b : literal_body b → literal_body (quote :: quote :: b).

Definition no_quote (s : str) : Prop := Forall (λ c, c ≠ quote) s.
Definition no_digit (s : str) : Prop := Forall (λ c, is_digit c = false) s.
Definition digits (s : str) : Prop := Forall (λ c, is_digit c = true) s.

(** No word character stands at the end, or at the start, of a text. *)
Definition starts_plain (s : str) : Prop :=
  ∀ a, head s = Some a → is_digit a = false.
Definition ends_clear (s : str) : Prop :=
  ∀ a, last s = Some a → is_word a = false.
Definition starts_clear (s : str) : Prop :=
  ∀ a, head s = Some a → is_word a = false.

(** The words of a text are not empty and hold no white space. *)
Definition word (w : str) : Prop :=
  w ≠ [] ∧ Forall (λ c, is_space c = false) w.

(** A text of ASCII characters: on it the predicates of [Text] are
    those of Python. *)
Definition ascii_text (s : str) : Prop := Forall (λ c, is_ascii c = true) s.

(** Every digit of the text follows a word character, as in [t1] or
    [col_2]: no run of digits stands alone.  [prev] tells whether a word
    character stands before the text. *)
Fixpoint attached (prev : bool) (s : str) : bool :=
  match s with
  | [] => true
  | a :: s' => (negb (is_digit a) || prev) && attached (is_word a) s'
  end.

(** The literals of a statement: a string ['body'], a decimal number
    [whole.frac] and an integer [ds]. *)
Inductive token : Type :=
| Str (body : str)
| Dec (whole frac : str)
| Int (ds : str).

Definition source (t : token) : str :=
  match t with
  | Str body => quote :: body ++ [quote]
  | Dec whole frac => whole ++ "."%char :: frac
  | Int ds => ds
  end.

Definition placeholder (t : token) : str :=
  match t with
  | Str _ => str_placeholder
  | Dec _ _ | Int _ => num_placeholder
  end.

Definition is_number (t : token) : bool :=
  match t with Str _ => false | Dec _ _ | Int _ => true end.

Definition token_ok (t : token) : Prop :=
  match t with
  | Str body => literal_body body
  | Dec whole frac => whole ≠ [] ∧ digits whole ∧ frac ≠ [] ∧ digits frac
  | Int ds => ds ≠ [] ∧ digits ds
  end.

(** A token after [stage] of the three substitutions: the strings are
    replaced by the first, the decimal numbers by the second and the
    integers by the third. *)
Definition shown (stage : nat) (t : token) : str :=
  match t with
  | Str _ => if 1 <=? stage then placeholder t else source t
  | Dec _ _ => if 2 <=? stage then placeholder t else source t
  | Int _ => if 3 <=? stage then placeholder t else source t
  end.

(** A statement as pieces of plain text, a token after each, and a last
    piece of plain text: its text at a stage. *)
Definition render (stage : nat) (items : list (str * token)) (tail : str)
    : str :=
  (item ← items; item.1 ++ shown stage item.2) ++ tail.

(** Plain text: ASCII, without quote and without a run of digits that
    stands alone. *)
Definition plain (p : str) : Prop :=
  ascii_text p ∧ no_quote p ∧ attached false p = true.

Definition number_before (before : option token) : bool :=
  match before with Some t => is_number t | None => false end.

(** The tokens stand alone: no word character touches a number, plain
    text stands between a token and a number and between two strings,
    and a dot alone does not stand between two numbers.  [before] is the
    token before the pieces, if any. *)
Fixpoint separated (before : option token) (items : list (str * token))
    (tail : str) : Prop :=
  match items with
  | [] => plain tail ∧ (number_before before = true → starts_clear tail)
  | (p, t) :: items' =>
      plain p ∧ token_ok t
      ∧ (number_before before = true → starts_clear p)
      ∧ (is_number t = true →
         ends_clear p ∧ (before ≠ None → p ≠ [])
         ∧ (number_before before = true → p ≠ ["."%char]))
      ∧ (is_number t = false → before ≠ None →
         number_before before = false → p ≠ [])
      ∧ separated (Some t) items' tail
  end.

End Normalizer.

Import Normalizer.

(** ** Exceptions and the state of a run

    [PostgresLogParser] keeps its state in attributes that the methods
    mutate; [parse] passes its local dictionary [output_files] to the
    methods by reference and reads its local [current_query] again in the
    [finally] block.  All of it is threaded through one record.  A raised
    exception leaves the state as it was at the [raise]. *)

Module Run.

Inductive exn : Type := IndexError | IOError.

Inductive outcome (A : Type) : Type :=
| Ok (a : A)
| Raise (e : exn).
Arguments Ok {A} a.
Arguments Raise {A} e.

(** A statement record: the dictionary [{'timestamp': .., 'sql': ..}]. *)
Record query : Type := Query { timestamp : str; sql : str }.

Record state : Type := State {
  (* attributes of the parser object *)
  dates_seen : gset str;
  sql_cache : gmap str str;
  file_buffers : gmap str (list str);
  buffer_size : nat;
  (* locals of [parse] *)
  output_files : list str;
  current_query : option query;
  (* the working directory: the lines of each file, the calls of
     [open] on bucket stores and the calls of [close] *)
  disk : gmap str (list str);
  opened : list str;
  closed : list str;
  (* ghost: the bodies on which lines 98 to 101 of [normalize_sql]
     ran, latest first *)
  computed : list str
}.

Definition M (A : Type) : Type := state → outcome A * state.

Definition ret {A} (a : A) : M A := λ st, (Ok a, st).
Definition raise {A} (e : exn) : M A := λ st, (Raise e, st).
Definition bind {A B} (m : M A) (k : A → M B) : M B := λ st,
  match m st with
  | (Ok a, st') => k a st'
  | (Raise e, st') => (Raise e, st')
  end.
Global Instance M_ret : MRet M := @ret.
Global Instance M_bind : MBind M := λ A B k m, bind m k.
Definition get : M state := λ st, (Ok st, st).
Definition modify (f : state → state) : M unit := λ st, (Ok tt, f st).

(** [try: body finally: handler]: the handler always runs; when it
    raises, its exception replaces the one of the body. *)
Definition try_finally (body handler : M unit) : M unit := λ st,
  match body st with
  | (r, st') =>
      match handler st' with
      | (Ok _, st'') => (r, st'')
      | (Raise e, st'') => (Raise e, st'')
      end
  end.

(** [m] keeps [P], whether it returns or raises. *)
Definition preserves (P : state → Prop) {A} (m : M A) : Prop :=
  ∀ st, P st → P (m st).2.

Definition set_dates_seen (v : gset str) (st : state) : state :=
  State v (sql_cache st) (file_buffers st) (buffer_size st)
        (output_files st) (current_query st) (disk st) (opened st)
        (closed st) (computed st).
Definition set_sql_cache (v : gmap str str) (st : state) : state :=
  State (dates_seen st) v (file_buffers st) (buffer_size st)
        (output_files st) (current_query st) (disk st) (opened st)
        (closed st) (computed st).
Definition set_file_buffers (v : gmap str (list str)) (st : state) : state :=
  State (dates_seen st) (sql_cache st) v (buffer_size st)
        (output_files st) (current_query st) (disk st) (opened st)
        (closed st) (computed st).
Definition set_output_files (v : list str) (st : state) : state :=
  State (dates_seen st) (sql_cache st) (file_buffers st) (buffer_size st)
        v (current_query st) (disk st) (opened st)
        (closed st) (computed st).
Definition set_current_query (v : option query) (st : state) : state :=
  State (dates_seen st) (sql_cache st) (file_buffers st) (buffer_size st)
        (output_files st) v (disk st) (opened st)
        (closed st) (computed st).
Definition set_disk (v : gmap str (list str)) (st : state) : state :=
  State (dates_seen st) (sql_cache st) (file_buffers st) (buffer_size st)
        (output_files st) (current_query st) v (opened st)
        (closed st) (computed st).
Definition set_opened (v : list str) (st : state) : state :=
  State (dates_seen st) (sql_cache st) (file_buffers st) (buffer_size st)
        (output_files st) (current_query st) (disk st) v
        (closed st) (computed st).
Definition set_closed (v : list str) (st : state) : state :=
  State (dates_seen st) (sql_cache st) (file_buffers st) (buffer_size st)
        (output_files st) (current_query st) (disk st) (opened st)
        v (computed st).
Definition set_computed (v : list str) (st : state) : state :=
  State (dates_seen st) (sql_cache st) (file_buffers st) (buffer_size st)
        (output_files st) (current_query st) (disk st) (opened st)
        (closed st) v.

(** [__init__] in a working directory [dir]. *)
Definition init (dir : gmap str (list str)) : state :=
  State ∅ ∅ ∅ 1000 [] None dir [] [] [].

(** The lines of a file; a missing file has none. *)
Definition content (st : state) (name : str) : list str :=
  default [] (disk st !! name).

(** [open(name, 'a')]: creates the file when it is missing. *)
Definition open_append (name : str) (st : state) : state :=
  set_opened (opened st ++ [name])
    (set_disk (<[name := content st name]> (disk st)) st).

(** [file.writelines(lines)] on a store opened for appending. *)
Definition writelines (name : str) (lines : list str) (st : state) : state :=
  set_disk (<[name := content st name ++ lines]> (disk st)) st.

(** [file.close()] *)
Definition close (name : str) (st : state) : state :=
  set_closed (closed st ++ [name]) st.

End Run.

Import Run.

(** ** The day and minute parsers

    [dayparserz.py] and [minparserz.py] differ in the log pattern, in the
    key the aggregator derives from a stored timestamp and in the name of
    the summary store; the rest of the class is the same text and is
    modelled once. *)

Module Driver.

Definition nl : str := ["010"%char].

(** Lines 66 and 67: [query['sql'].rstrip(';')] and its first word in
    upper case.  [sql.split()[0]] raises [IndexError] when the
    non-empty [sql] holds white space only. *)
Definition first_word (sql : str) : outcome str :=
  match sql with
  | [] => Ok []
  | _ => match split sql with
         | [] => Raise IndexError
         | w :: _ => Ok (upper w)
         end
  end.

(** Lines 69 to 74. *)
Definition operator_of (first_word : str) : str :=
  if eqs first_word (L "WITH") then L "SELECT"
  else if eqs first_word (L "SELECT") || eqs first_word (L "INSERT")
          || eqs first_word (L "UPDATE") || eqs first_word (L "DELETE")
  then first_word
  else L "OTHER".

(** The classification of a record body. *)
Definition classify (body : str) : outcome str :=
  match first_word (rstrip_semi body) with
  | Ok w => Ok (operator_of w)
  | Raise e => Raise e
  end.

Definition store_name (operator date_part : str) : str :=
  operator ++ L "_" ++ date_part ++ L ".log".

Definition store_line (timestamp sql : str) : str :=
  timestamp ++ L " | " ++ sql ++ nl.

(** [buffer_query], lines 62 to 86.  The guard of line 63 never fires:
    the callers pass a dictionary with both keys. *)
Definition buffer_query (query : query) : M unit := λ st,
  let sql := rstrip_semi (sql query) in
  match first_word sql with
  | Raise e => (Raise e, st)
  | Ok first_word =>
      let operator := operator_of first_word in
      match split (timestamp query) with
      | [] => (Raise IndexError, st)
      | date_part :: _ =>
          let st := set_dates_seen ({[date_part]} ∪ dates_seen st) st in
          let filename := store_name operator date_part in
          let st :=
            if bool_decide (filename ∈ output_files st) then st
            else set_output_files (output_files st ++ [filename])
                   (open_append filename st) in
          let buffer :=
            default [] (file_buffers st !! filename)
            ++ [store_line (timestamp query) sql] in
          let st := set_file_buffers (<[filename := buffer]> (file_buffers st)) st in
          if buffer_size st <=? length buffer
          then (Ok tt, set_file_buffers (<[filename := []]> (file_buffers st))
                         (writelines filename buffer st))
          else (Ok tt, st)
      end
  end.

(** [flush_buffers], lines 88 to 92. *)
Definition flush_buffers : M unit := λ st,
  let st :=
    foldr (λ '(filename, buffer) st,
             if bool_decide (buffer ≠ [])
                && bool_decide (filename ∈ output_files st)
             then writelines filename buffer st else st)
          st (map_to_list (file_buffers st)) in
  (Ok tt, set_file_buffers ∅ st).

(** Lines 47 and 48: every handle of [output_files] is closed. *)
Definition close_all : M unit := λ st,
  (Ok tt, foldl (λ st name, close name st) st (output_files st)).

(** [normalize_sql], lines 94 to 104. *)
Definition normalize_sql (sql : str) : M str := λ st,
  match sql_cache st !! sql with
  | Some normalized => (Ok normalized, st)
  | None =>
      let normalized := substitute sql in
      (Ok normalized,
       set_sql_cache (<[sql := normalized]> (sql_cache st))
         (set_computed (sql :: computed st) st))
  end.

(** The cache and the record of the substitutions agree: no body was
    substituted twice, every substituted body is cached, and the cached
    values are those of [substitute]. *)
Definition cache_ok (st : state) : Prop :=
  NoDup (computed st)
  ∧ (∀ b, b ∈ computed st → is_Some (sql_cache st !! b))
  ∧ (∀ b v, sql_cache st !! b = Some v → v = substitute b).

(** [glob.glob(f'*_{date}.log')] in the working directory, for a date
    without wildcard characters: the visible names that end in
    [_<date>.log]. *)
Definition glob_date (date : str) (st : state) : list str :=
  filter (λ name, ends_with (L "_" ++ date ++ L ".log") name = true
                  ∧ starts_with (L ".") name = false)
         (elements (dom (disk st))).

Abbreviation stats := (gmap str (gmap str nat)).

(** [stats[key][normalized_sql] += 1] on the nested [defaultdict]. *)
Definition bump (key normalized_sql : str) (s : stats) : stats :=
  let inner := default ∅ (s !! key) in
  <[key := <[normalized_sql := S (default 0 (inner !! normalized_sql))]> inner]> s.

(** The tuple order of [sorted(stats[day].items())]. *)
Definition item_leb (x y : str * nat) : bool :=
  if str_leb x.1 y.1
  then (if str_leb y.1 x.1 then x.2 <=? y.2 else true)
  else false.

Global Instance str_le_dec : RelDecision str_le.
Proof. intros a b. unfold str_le. apply _. Defined.

Definition item_le (x y : str * nat) : Prop := item_leb x y = true.
Global Instance item_le_dec : RelDecision item_le.
Proof. intros a b. unfold item_le. apply _. Defined.

(** The counted pairs in the order of lines 134 and 135, and the line
    of a pair. *)
Definition summary_entries (s : stats) : list (str * str * nat) :=
  label ← merge_sort str_le (elements (dom s));
  '(sql, count) ← merge_sort item_le (map_to_list (default ∅ (s !! label)));
  [(label, sql, count)].

Definition entry_line (e : str * str * nat) : str :=
  e.1.1 ++ L " | " ++ e.1.2 ++ L " | выполнился " ++ show_nat e.2
  ++ L " раз" ++ nl.

(** The order of the summary: by label, then by statement. *)
Definition entry_lt (x y : str * str * nat) : Prop :=
  str_lt x.1.1 y.1.1 ∨ (x.1.1 = y.1.1 ∧ str_lt x.1.2 y.1.2).

(** The operators of lines 69 to 74. *)
Definition operators : list str :=
  [L "SELECT"; L "INSERT"; L "UPDATE"; L "DELETE"; L "OTHER"].

(** Every buffered line stands under the store of its own date, and the
    date is among the dates seen. *)
Definition routing_ok (st : state) : Prop :=
  ∀ name line,
    line ∈ default [] (file_buffers st !! name) →
    ∃ operator date timestamp body,
      operator ∈ operators
      ∧ name = store_name operator date
      ∧ line = store_line timestamp body
      ∧ head (split timestamp) = Some date
      ∧ date ∈ dates_seen st.

(** A date of ten characters, digits and dashes: it holds none of the
    wildcard characters of [glob]. *)
Definition plain_date (date : str) : Prop :=
  length date = 10 ∧ Forall (λ c, is_digit c = true ∨ c = "-"%char) date.

(** A record whose timestamp starts with such a date. *)
Definition dated (q : query) : Prop :=
  ∃ date rest, split (timestamp q) = date :: rest ∧ plain_date date.

(** The dates seen are plain, the record in progress is dated, and
    every store that was opened exists and is named after an operator
    and a date seen. *)
Definition stores_ok (st : state) : Prop :=
  (∀ date, date ∈ dates_seen st → plain_date date)
  ∧ (∀ q, current_query st = Some q → dated q)
  ∧ (∀ name, name ∈ opened st →
       ∃ operator date,
         operator ∈ operators ∧ date ∈ dates_seen st
         ∧ name = store_name operator date ∧ is_Some (disk st !! name)).

(** The stores that the aggregator opens, in order: lines 110 and 111. *)
Definition visited (st : state) : list str :=
  date ← elements (dates_seen st); glob_date date st.

(** The lines that the aggregator reads, in order: line 113 on every
    store visited. *)
Definition reached (st : state) : list str :=
  name ← visited st; content st name.

(** The handles of [output_files] are the stores that were opened, and
    the other files of the working directory [dir] are as they were. *)
Definition untouched (dir : gmap str (list str)) (st : state) : Prop :=
  output_files st = opened st
  ∧ ∀ name, name ∉ opened st → disk st !! name = dir !! name.

(** The handles of [output_files] are those of the stores opened, each
    opened once and none closed yet, and only opened stores have a
    buffer. *)
Definition handles_ok (st : state) : Prop :=
  output_files st = opened st ∧ NoDup (opened st) ∧ closed st = []
  ∧ ∀ name, is_Some (file_buffers st !! name) → name ∈ output_files st.

(** A continuation line: not blank, and no digit in front. *)
Definition continuation (raw : str) : Prop :=
  ∃ c rest, strip raw = c :: rest ∧ is_digit c = false.

Section Variant.

(** What the two files do not share. *)
Variable log_pattern : regex.
Variable key_of : str → option str.
Variable summary_name : str.

(** [extract_query] (inlined in [minparserz.py], lines 42 to 48). *)
Definition extract_query (line : str) : option query :=
  match re_match log_pattern line with
  | None => None
  | Some g =>
      match group 1 g line, group 2 g line with
      | Some timestamp, Some sql => Some (Query (strip timestamp) (strip sql))
      | _, _ => None
      end
  end.

(** The body of the loop of [parse], lines 33 to 42. *)
Definition parse_line (raw : str) : M unit :=
  let line := strip raw in
  match line with
  | [] => mret tt
  | c :: _ =>
      if is_digit c then
        st ← get;
        match current_query st with
        | Some q => buffer_query q
        | None => mret tt
        end;;
        modify (set_current_query (extract_query line))
      else
        modify (λ st,
          match current_query st with
          | Some q =>
              set_current_query
                (Some (Query (timestamp q) (sql q ++ L " " ++ line))) st
          | None => st
          end)
  end.

(** How the reading of the input ends. *)
Inductive input_end : Type := EndOfFile | ReadFailure.

(** [for line in f]: the lines that were read, then the end. *)
Fixpoint read_loop (lines : list str) (e : input_end) : M unit :=
  match lines with
  | [] => match e with
          | EndOfFile => mret tt
          | ReadFailure => raise IOError
          end
  | raw :: lines' => parse_line raw;; read_loop lines' e
  end.

(** One stored line of the aggregator, lines 114 to 131. *)
Definition count_line (line : str) (s : stats) : M stats :=
  match split_once (L " | ") line with
  | [timestamp; sql] =>
      let sql := strip sql in
      st ← get;
      normalized_sql ←
        match sql_cache st !! sql with
        | Some n => mret n
        | None => normalize_sql sql
        end;
      match key_of timestamp with
      | None => mret s
      | Some key => mret (bump key normalized_sql s)
      end
  | _ => mret s
  end.

Fixpoint count_lines (lines : list str) (s : stats) : M stats :=
  match lines with
  | [] => mret s
  | line :: lines' => s' ← count_line line s; count_lines lines' s'
  end.

Fixpoint count_files (names : list str) (s : stats) : M stats :=
  match names with
  | [] => mret s
  | name :: names' =>
      st ← get;
      s' ← count_lines (content st name) s;
      count_files names' s'
  end.

Fixpoint count_dates (dates : list str) (s : stats) : M stats :=
  match dates with
  | [] => mret s
  | date :: dates' =>
      st ← get;
      s' ← count_files (glob_date date st) s;
      count_dates dates' s'
  end.

(** The line written for one counted pair, line 136. *)
Definition summary_line (label sql : str) (count : nat) : str :=
  label ++ L " | " ++ sql ++ L " | выполнился " ++ show_nat count
  ++ L " раз" ++ nl.

(** Lines 134 to 136. *)
Definition summary_lines (s : stats) : list str :=
  label ← merge_sort str_le (elements (dom s));
  '(sql, count) ← merge_sort item_le (map_to_list (default ∅ (s !! label)));
  [summary_line label sql count].

(** [generate_daily_summary] and [generate_combined_summary]. *)
Definition generate_summary : M unit :=
  st ← get;
  s ← count_dates (elements (dates_seen st)) ∅;
  modify (λ st, set_disk (<[summary_name := summary_lines s]> (disk st)) st).

(** Lines 44 to 48 of the [finally] block of [parse]. *)
Definition release : M unit :=
  st ← get;
  match current_query st with
  | Some q => buffer_query q
  | None => mret tt
  end;;
  flush_buffers;;
  close_all.

(** The [finally] block, up to the summary.  The archive and the
    removal of the scratch files that follow are left to the
    environment. *)
Definition finish : M unit :=
  release;;
  generate_summary.

(** [parse] on an input of which [lines] could be read. *)
Definition parse (lines : list str) (e : input_end) : M unit :=
  try_finally (read_loop lines e) finish.

End Variant.

End Driver.

(** ** dayparserz.py *)

Module DayParser.

(** Lines 126 to 129: [timestamp.split()[0]]; the [IndexError] of a
    blank timestamp is caught and the line skipped. *)
Definition date_key (timestamp : str) : option str := head (split timestamp).

Definition summary_name : str := L "daily_summary.log".

Definition extract_query := Driver.extract_query log_pattern.
Definition parse_line := Driver.parse_line log_pattern.
Definition read_loop := Driver.read_loop log_pattern.
Definition count_line := Driver.count_line date_key.
Definition generate_daily_summary := Driver.generate_summary date_key summary_name.
Definition release := Driver.release.
Definition finish := Driver.finish date_key summary_name.
Definition parse := Driver.parse log_pattern date_key summary_name.

(** The two statements of the scenario of the specification. *)
Definition two_selects : list str :=
  [L "2024-01-01 10:00:01 LOG:  statement: SELECT * FROM users WHERE id = 5;";
   L "2024-01-01 10:00:02 LOG:  statement: SELECT * FROM users WHERE id = 9;"].

End DayParser.

(** ** minparserz.py *)

Module MinParser.

Record datetime : Type := Datetime {
  year : nat; month : nat; day : nat;
  hour : nat; minute : nat; second : nat
}.

Definition between (lo hi : ascii) : regex :=
  Chr (λ x, (code lo <=? code x)%N && (code x <=? code hi)%N).

(** The entries of the table of [_strptime] for the directives of
    ['%Y-%m-%d %H:%M:%S']:
    [m] is [1[0-2]|0[1-9]|[1-9]], [d] is [3[0-1]|[1-2]\d|0[1-9]|[1-9]| [1-9]],
    [H] is [2[0-3]|[0-1]\d|\d], [M] is [[0-5]\d|\d] and
    [S] is [6[0-1]|[0-5]\d|\d]. *)
Definition directive_Y : regex := Times 4 Digit.
Definition directive_m : regex :=
  Alt (Cat (one "1") (between "0" "2"))
 (Alt (Cat (one "0") (between "1" "9")) (between "1" "9")).
Definition directive_d : regex :=
  Alt (Cat (one "3") (between "0" "1"))
 (Alt (Cat (between "1" "2") Digit)
 (Alt (Cat (one "0") (between "1" "9"))
 (Alt (between "1" "9") (Cat (one " ") (between "1" "9"))))).
Definition directive_H : regex :=
  Alt (Cat (one "2") (between "0" "3"))
 (Alt (Cat (between "0" "1") Digit) Digit).
Definition directive_M : regex :=
  Alt (Cat (between "0" "5") Digit) Digit.
Definition directive_S : regex :=
  Alt (Cat (one "6") (between "0" "1"))
 (Alt (Cat (between "0" "5") Digit) Digit).

(** The pattern that [_strptime] compiles for the format: one group per
    directive, [\s+] for the space; group 0 is the whole match. *)
Definition strptime_pattern : regex :=
  Grp 0 (Seq [
    Grp 1 directive_Y; one "-"; Grp 2 directive_m; one "-"; Grp 3 directive_d;
    Plus true (Chr is_space);
    Grp 4 directive_H; one ":"; Grp 5 directive_M; one ":"; Grp 6 directive_S ]).

Definition digit_val (c : ascii) : nat := N.to_nat (code c - 48).

(** [int(s)] on a group of the pattern: decimal digits, after a space
    in one alternative of the day. *)
Definition int_of (s : str) : nat :=
  foldl (λ acc c, if is_digit c then 10 * acc + digit_val c else acc) 0 s.

(** The decimal digits [ds] as a number of the standard library. *)
Fixpoint uint_of (ds : str) : Decimal.uint :=
  match ds with
  | [] => Decimal.Nil
  | c :: ds' =>
      match digit_val c with
      | 0 => Decimal.D0 | 1 => Decimal.D1 | 2 => Decimal.D2 | 3 => Decimal.D3
      | 4 => Decimal.D4 | 5 => Decimal.D5 | 6 => Decimal.D6 | 7 => Decimal.D7
      | 8 => Decimal.D8 | _ => Decimal.D9
      end (uint_of ds')
  end.

Definition is_leap (y : nat) : bool :=
  (y mod 4 =? 0) && (negb (y mod 100 =? 0) || (y mod 400 =? 0)).

Definition days_in_month (y m : nat) : nat :=
  match m with
  | 2 => if is_leap y then 29 else 28
  | 4 | 6 | 9 | 11 => 30
  | _ => 31
  end.

(** The range checks of the [datetime] constructor. *)
Definition valid (d : datetime) : bool :=
  (1 <=? year d) && (year d <=? 9999)
  && (1 <=? month d) && (month d <=? 12)
  && (1 <=? day d) && (day d <=? days_in_month (year d) (month d))
  && (hour d <=? 23) && (minute d <=? 59) && (second d <=? 59).

(** [datetime.strptime(s, '%Y-%m-%d %H:%M:%S')]; [None] stands for the
    [ValueError]. *)
Definition strptime (s : str) : option datetime :=
  match re_match strptime_pattern s with
  | None => None
  | Some g =>
      match g with
      | (0, (_, e)) :: _ =>
          if e =? length s then
            let field n := int_of (default [] (group n g s)) in
            let d := Datetime (field 1) (field 2) (field 3)
                              (field 4) (field 5) (field 6) in
            if valid d then Some d else None
          else None
      | _ => None
      end
  end.

Definition digit_char (n : nat) : ascii := ascii_of_N (48 + N.of_nat (n mod 10)).
Definition pad2 (n : nat) : str := [digit_char (n / 10); digit_char n].

(** [dt.strftime('%Y-%m-%d %H:%M')] as the C library of the platform
    prints it (glibc): the month, the day, the hour and the minute in two
    digits, the year as the number it is, without zeros in front of a
    year below 1000. *)
Definition strftime_minute (d : datetime) : str :=
  show_nat (year d) ++ L "-" ++ pad2 (month d) ++ L "-" ++ pad2 (day d)
  ++ L " " ++ pad2 (hour d) ++ L ":" ++ pad2 (minute d).

Definition replace_second (d : datetime) (s : nat) : datetime :=
  Datetime (year d) (month d) (day d) (hour d) (minute d) s.

(** Lines 126 to 131 of [generate_combined_summary]. *)
Definition minute_key (timestamp : str) : option str :=
  let ts_clean := take 19 timestamp in
  match strptime ts_clean with
  | Some dt => Some (strftime_minute (replace_second dt 0))
  | None => None
  end.

(** The fixed-width shape of a timestamp, [dddd-dd-dd dd:dd:dd] with
    anything after it: what the first group of the log patterns
    matches. *)
Definition fixed_width (ts : str) : bool :=
  match ts with
  | y1 :: y2 :: y3 :: y4 :: h1 :: m1 :: m2 :: h2 :: d1 :: d2 :: sp
    :: H1 :: H2 :: c1 :: M1 :: M2 :: c2 :: S1 :: S2 :: _ =>
      forallb is_digit [y1; y2; y3; y4; m1; m2; d1; d2; H1; H2; M1; M2; S1; S2]
      && eqc h1 "-" && eqc h2 "-" && eqc sp " " && eqc c1 ":" && eqc c2 ":"
  | _ => false
  end.

Section WithBaseName.
(** The base name of the input file, line 23. *)
Variable base_name : str.

Definition summary_filename : str :=
  L "summary_minute_" ++ base_name ++ L ".log".

Definition extract_query := Driver.extract_query log_pattern_min.
Definition parse_line := Driver.parse_line log_pattern_min.
Definition generate_combined_summary :=
  Driver.generate_summary minute_key summary_filename.
Definition parse := Driver.parse log_pattern_min minute_key summary_filename.
End WithBaseName.

End MinParser.

(** ** parser.py *)

Module ChunkParser.

(** [normalize_query], lines 5 to 10. *)
Definition normalize_query (query : str) : str :=
  let query := re_sub comment_pattern [] query in
  let query := re_sub lazy_string_pattern (L "?") query in
  let query := re_sub number_pattern (L "?") query in
  strip query.

(** The two objects that [parse_log_in_chunks] shares with its helpers
    by reference: the [counter] dictionary, keyed by the pair
    [(current_time, norm_query)], and the [current_query] list. *)
Record shared : Type := Shared {
  counter : gmap (option str * str) nat;
  current_query : list str
}.

Definition marker : str := L "LOG:  statement: ".

(** [finalize_query], lines 61 to 67. *)
Definition finalize_query (sh : shared) (current_time : option str) : shared :=
  match current_query sh with
  | [] => sh
  | _ =>
      let query_str := join (L " ") (current_query sh) in
      let norm_query := normalize_query query_str in
      let key := (current_time, norm_query) in
      Shared (<[key := S (default 0 (counter sh !! key))]> (counter sh)) []
  end.

(** [process_line], lines 46 to 59.  [current_time] is a parameter:
    the assignments of lines 52 and 57 rebind the local name only.  The
    second component of the result is that local name when the function
    returns; the caller has no access to it. *)
Definition process_line (line : str) (sh : shared) (current_time : option str)
    : shared * option str :=
  let time_match := re_search timestamp_regex line in
  match time_match with
  | Some (start_index, g) =>
      if contains marker line then
        let sh :=
          match current_query sh with
          | [] => sh
          | _ => finalize_query sh current_time
          end in
        let current_time := group 1 g line in
        let start := default 0 (find marker line) + length marker in
        (Shared (counter sh) (current_query sh ++ [strip (drop start line)]),
         current_time)
      else
        match current_query sh with
        | [] => (sh, current_time)
        | _ => (finalize_query sh current_time, None)
        end
  | None =>
      match current_query sh with
      | [] => (sh, current_time)
      | _ => (Shared (counter sh) (current_query sh ++ [strip line]),
              current_time)
      end
  end.

(** [s.split('\n')]: the pieces between line feeds, at least one. *)
Fixpoint split_lf_go (cur : str) (s : str) : list str :=
  match s with
  | [] => [reverse cur]
  | c :: s' =>
      if eqc c "010"%char then reverse cur :: split_lf_go [] s'
      else split_lf_go (c :: cur) s'
  end.
Definition split_lf (s : str) : list str := split_lf_go [] s.

(** [lines.pop()] and what it leaves in [lines]. *)
Definition pop (lines : list str) : list str * str :=
  (removelast lines, List.last lines []).

Section Reader.

(** What the reader does with a line: [process_line] with the shared
    objects in [parse_log_in_chunks]; a recorder of the lines in the
    statements about the reader. *)
Context {St : Type} (process : str → St → St).

(** Lines 33 and 34. *)
Definition process_lines (lines : list str) (s : St) : St :=
  foldl (λ s line, process line s) s lines.

(** The loop of lines 24 to 34 on the text that is left to read.
    [file.read(chunk_size)] returns the next [chunk_size] characters,
    fewer at the end of the file.  Each turn of a loop with a
    positive chunk size consumes a character, so [fuel] above the
    length of the text is never used up. *)
Fixpoint read_chunks (fuel : nat) (chunk_size : nat) (rest : str)
    (buffer : str) (s : St) : str * St :=
  match fuel with
  | 0 => (buffer, s)
  | S fuel' =>
      let chunk := take chunk_size rest in
      match chunk with
      | [] => (buffer, s)
      | _ =>
          let buffer := buffer ++ chunk in
          let '(lines, buffer) := pop (split_lf buffer) in
          let s := process_lines lines s in
          read_chunks fuel' chunk_size (drop chunk_size rest) buffer s
      end
  end.

(** Lines 23 to 38: the loop, then the buffer that is left. *)
Definition read_file (text : str) (chunk_size : nat) (s : St) : St :=
  let '(buffer, s) := read_chunks (S (length text)) chunk_size text [] s in
  match buffer with
  | [] => s
  | _ => process buffer s
  end.

End Reader.

(** Lines 34 and 38: the caller's [current_time] is [None] at every
    call, since [process_line] cannot update it. *)
Definition process (line : str) (sh : shared) : shared :=
  let current_time : option str := None in
  (process_line line sh current_time).1.

(** [parse_log_in_chunks], lines 12 to 44, on a file whose text is
    [text]. *)
Definition parse_log_in_chunks (text : str) (chunk_size : nat)
    : gmap (option str * str) nat :=
  let current_time : option str := None in
  let sh := read_file process text chunk_size (Shared ∅ []) in
  let sh :=
    match current_query sh with
    | [] => sh
    | _ => finalize_query sh current_time
    end in
  counter sh.

(** The lines that [parse_log_in_chunks] passes to [process_line], in
    order. *)
Definition lines_processed (text : str) (chunk_size : nat) : list str :=
  read_file (λ line seen, seen ++ [line]) text chunk_size [].

(** Every key of the counter carries [None] for its time. *)
Definition untimed (sh : shared) : Prop :=
  ∀ k, is_Some (counter sh !! k) → k.1 = None.

(** A text without a line feed. *)
Definition no_lf (s : str) : Prop :=
  Forall (λ c, eqc c "010"%char = false) s.

(** The reference of the chunked reader: the complete lines of the
    whole text, in order. A last piece that is empty is no line. *)
Definition complete_lines (text : str) : list str :=
  let '(lines, last) := pop (split_lf text) in
  match last with
  | [] => lines
  | _ => lines ++ [last]
  end.

(** The same parser reading the whole input line by line. *)
Definition parse_log_by_lines (text : str) : gmap (option str * str) nat :=
  let sh := process_lines process (complete_lines text) (Shared ∅ []) in
  counter (finalize_query sh None).

(** The text of a file: the lines [lines], a line feed after each, and
    a last piece [rest] that no line feed ends. *)
Definition text_of (lines : list str) (rest : str) : str :=
  (line ← lines; line ++ ["010"%char]) ++ rest.

(** What a reading of that file line by line processes: the lines, and
    the last piece when it is not empty. *)
Definition whole_lines (lines : list str) (rest : str) : list str :=
  lines ++ match rest with [] => [] | _ => [rest] end.

(** The parser on the lines [lines], handed over one by one. *)
Definition parse_lines (lines : list str) : gmap (option str * str) nat :=
  let sh := process_lines process lines (Shared ∅ []) in
  counter (finalize_query sh None).

End ChunkParser.

(** ** The records of an input and the lines they become *)

Module Account.

Import Driver.

Section Assembler.

Variable log_pattern : regex.

(** The loop of [parse], lines 32 to 42, without the stores: the
    records handed to [buffer_query] so far, in order, and the record
    in progress. *)
Definition assemble_line (acc : list query * option query) (raw : str)
    : list query * option query :=
  let '(routed, current_query) := acc in
  let line := strip raw in
  match line with
  | [] => acc
  | c :: _ =>
      if is_digit c then
        (match current_query with
         | Some q => routed ++ [q]
         | None => routed
         end,
         extract_query log_pattern line)
      else
        (routed,
         match current_query with
         | Some q => Some (Query (timestamp q) (sql q ++ L " " ++ line))
         | None => None
         end)
  end.

Definition assemble (lines : list str) : list query * option query :=
  foldl assemble_line ([], None) lines.

(** The records of an input: those routed by the loop, then the one
    that line 45 routes. *)
Definition records_of (lines : list str) : list query :=
  (assemble lines).1
  ++ match (assemble lines).2 with
     | Some q => [q]
     | None => []
     end.

End Assembler.

(** The store that [buffer_query] chooses for a record and the line it
    buffers, lines 66 to 83; [None] when it raises. *)
Definition routed_line (q : query) : option (str * str) :=
  let sql := rstrip_semi (sql q) in
  match first_word sql, split (timestamp q) with
  | Ok first_word, date_part :: _ =>
      Some (store_name (operator_of first_word) date_part,
            store_line (timestamp q) sql)
  | _, _ => None
  end.

(** The lines that the records give to one store, in order. *)
Definition lines_for (name : str) (records : list query) : list str :=
  omap (λ q, match routed_line q with
             | Some (n, l) => if decide (n = name) then Some l else None
             | None => None
             end) records.

(** The lines of a store, on disk and in its buffer. *)
Definition stored (st : state) (name : str) : list str :=
  content st name ++ default [] (file_buffers st !! name).

(** No buffer has reached the size at which it is written. *)
Definition buffers_short (st : state) : Prop :=
  0 < buffer_size st
  ∧ ∀ name, length (default [] (file_buffers st !! name)) < buffer_size st.

(** What the stores hold when the records [routed] have been routed
    from the directory [dir], and the record [current] is in
    progress. *)
Definition accounts_for (dir : gmap str (list str)) (routed : list query)
    (current : option query) (st : state) : Prop :=
  current_query st = current
  ∧ ∀ name, stored st name = default [] (dir !! name) ++ lines_for name routed.

Definition routable (q : query) : Prop := is_Some (routed_line q).

(** A body that is not empty but has no word once its semicolons are
    stripped: the one on which line 67 raises. *)
Definition blank_body (q : query) : Prop :=
  rstrip_semi (sql q) ≠ [] ∧ split (rstrip_semi (sql q)) = [].

(** How a run ends when nothing in it raises. *)
Definition end_of_input (e : input_end) : outcome unit :=
  match e with
  | EndOfFile => Ok tt
  | ReadFailure => Raise IOError
  end.

Section Tally.

Variable key_of : str → option str.

(** Lines 114 to 131 without the cache: what one stored line adds to
    the counts. *)
Definition tally_line (s : stats) (line : str) : stats :=
  match split_once (L " | ") line with
  | [timestamp; sql] =>
      match key_of timestamp with
      | Some key => bump key (substitute (strip sql)) s
      | None => s
      end
  | _ => s
  end.

Definition tally (lines : list str) : stats := foldl tally_line ∅ lines.

End Tally.

End Account.

(** ** The names of a run, the archive and the cleanup *)

Module Archive.

Import Driver.

Fixpoint take_while (p : ascii → bool) (s : str) : str :=
  match s with
  | [] => []
  | c :: s' => if p c then c :: take_while p s' else []
  end.

(** [os.path.basename(p)] on POSIX: what follows the last slash. *)
Definition basename (p : str) : str :=
  reverse (take_while (λ c, negb (eqc c "/"%char)) (reverse p)).

(** [os.path.splitext(p)[0]] for a name without a slash: the name up to
    its last dot, unless nothing but dots stands before that dot. *)
Definition splitext_root (p : str) : str :=
  let extension := take_while (λ c, negb (eqc c "."%char)) (reverse p) in
  if length extension <? length p then
    let root := take (length p - length extension - 1) p in
    if forallb (λ c, eqc c "."%char) root then p else root
  else p.

(** Line 23. *)
Definition base_name (log_file_path : str) : str :=
  splitext_root (basename log_file_path).

(** Line 22: [datetime.now().strftime("%Y-%m-%d_%H-%M-%S")], for the
    time [now] of the call; the year as in [MinParser.strftime_minute]. *)
Definition run_timestamp (now : MinParser.datetime) : str :=
  show_nat (MinParser.year now) ++ L "-"
  ++ MinParser.pad2 (MinParser.month now) ++ L "-"
  ++ MinParser.pad2 (MinParser.day now) ++ L "_"
  ++ MinParser.pad2 (MinParser.hour now) ++ L "-"
  ++ MinParser.pad2 (MinParser.minute now) ++ L "-"
  ++ MinParser.pad2 (MinParser.second now).

(** Line 24 of dayparserz.py and of minparserz.py. *)
Definition archive_name (log_file_path : str) (now : MinParser.datetime) : str :=
  base_name log_file_path ++ L "-" ++ run_timestamp now ++ L ".tar.gz".
Definition archive_name_min (log_file_path : str) (now : MinParser.datetime)
    : str :=
  base_name log_file_path ++ L "-minute_parser-" ++ run_timestamp now
  ++ L ".tar.gz".

(** Line 25 of minparserz.py. *)
Definition summary_filename (log_file_path : str) : str :=
  MinParser.summary_filename (base_name log_file_path).

(** [os.path.exists(name)] in the working directory. *)
Definition exists_file (st : state) (name : str) : bool :=
  bool_decide (is_Some (disk st !! name)).

(** [compress_results], lines 139 to 148: the names handed to
    [tar.add], in order. *)
Definition files_to_archive (summary_file : str) (st : state) : list str :=
  (if exists_file st summary_file then [summary_file] else [])
  ++ (date ← elements (dates_seen st);
      operator ← operators;
      let filename := store_name operator date in
      if exists_file st filename then [filename] else []).

(** Lines 150 to 153: the archive that is written, its name and its
    members with their lines; none when there is nothing to archive. *)
Definition compress_results (summary_file archive_name : str)
    : M (option (str * list (str * list str))) := λ st,
  match files_to_archive summary_file st with
  | [] => (Ok None, st)
  | files =>
      (Ok (Some (archive_name, (λ file, (file, content st file)) <$> files)), st)
  end.

(** [glob.glob("*.log")]: the visible names that end in [.log]. *)
Definition glob_log (name : str) : bool :=
  ends_with (L ".log") name && negb (starts_with (L ".") name).

(** [cleanup_files], lines 156 to 162, in a directory whose files can
    all be removed. *)
Definition cleanup_files (log_file_path archive_name : str) : M unit :=
  modify (λ st,
    set_disk
      (filter (λ entry, ¬ (glob_log entry.1 = true
                           ∧ entry.1 ≠ log_file_path
                           ∧ entry.1 ≠ archive_name))
              (disk st)) st).

(** The [finally] block of [parse], lines 44 to 52, with the archive it
    leaves. *)
Definition wrap_up (key_of : str → option str)
    (summary_file log_file_path archive_name : str)
    : M (option (str * list (str * list str))) :=
  finish key_of summary_file;;
  archive ← compress_results summary_file archive_name;
  cleanup_files log_file_path archive_name;;
  mret archive.

End Archive.

(** ** The calendar time of a timestamp *)

Module Minutes.

Import MinParser.

(** The number written in [width] characters from [start]. *)
Definition field (ts : str) (start width : nat) : nat :=
  int_of (take width (drop start ts)).

(** The time that a timestamp [dddd-dd-dd dd:dd:dd] writes down. *)
Definition datetime_of (ts : str) : datetime :=
  Datetime (field ts 0 4) (field ts 5 2) (field ts 8 2)
           (field ts 11 2) (field ts 14 2) (field ts 17 2).

End Minutes.

(** ** The counts of parser.py *)

Module Counts.

Import ChunkParser.

(** The sum of the counts that [main] prints. *)
Definition total (c : gmap (option str * str) nat) : nat :=
  map_fold (λ _ n acc, n + acc) 0 c.

(** A line on which [process_line] starts a record: the test of
    line 49. *)
Definition starts_record (line : str) : bool :=
  contains marker line
  && bool_decide (is_Some (re_search timestamp_regex line)).

(** The records that the counter holds, and the one in progress. *)
Definition balance (sh : shared) : nat :=
  total (counter sh)
  + match current_query sh with [] => 0 | _ => 1 end.

End Counts.

(** ** From the records of the input to the counts of the summary *)

Module Pipeline.

Import Driver Account.

(** No class of the pattern accepts the character [bad]. *)
Fixpoint avoids (bad : ascii) (r : regex) : bool :=
  match r with
  | Chr p => negb (p bad)
  | Cat r1 r2 | Alt r1 r2 => avoids bad r1 && avoids bad r2
  | Rep _ r1 | Grp _ r1 => avoids bad r1
  | _ => true
  end.

(** A matcher that stops inside the text, adds groups of the pattern
    only and takes no character [bad]. *)
Definition avoiding {R} (bad : ascii) (r : regex)
    (run : nat → option ascii → str → caps → cont R → option R) : Prop :=
  ∀ i c s g k x,
    run i c s g k = Some x →
    ∃ m c' g',
      k (i + m) c' (drop m s) (g' ++ g) = Some x
      ∧ m ≤ length s
      ∧ Forall (λ e : nat * (nat * nat), e.1 ∈ groups_of r) g'
      ∧ bad ∉ take m s.

Section Counts.

Variable key_of : str → option str.

(** What a record adds to the counts: under the key of its timestamp,
    the normal form of its body as [buffer_query] stores it. *)
Definition count_record (s : stats) (q : query) : stats :=
  match key_of (timestamp q) with
  | Some key => bump key (substitute (strip (rstrip_semi (sql q)))) s
  | None => s
  end.

Definition record_counts (records : list query) : stats :=
  foldl count_record ∅ records.

End Counts.

(** The lines that the records add to the stores, in order. *)
Definition lines_of (records : list query) : list str :=
  omap (λ q, snd <$> routed_line q) records.

End Pipeline.

(** * Properties *)

(** ** The chunked reader of parser.py *)

Section ChunkReader.

Import ChunkParser.

Lemma split_lf_go_nonempty cur s : split_lf_go cur s ≠ [].
Proof.
  revert cur; induction s as [|c s IH]; intros cur; simpl; [done|].
  destruct (eqc c "010"%char); [done | apply IH].
Qed.

Lemma split_lf_go_shift b : ∀ cur y,
  no_lf b → split_lf_go cur (b ++ y) = split_lf_go (reverse b ++ cur) y.
Proof.
  induction b as [|c b IH]; intros cur y Hb; [done|].
  inversion Hb as [|? ? Hc Hb']; subst. simpl. rewrite Hc.
  rewrite IH by done. by rewrite reverse_cons, <- app_assoc.
Qed.

Lemma split_lf_go_last_no_lf s : ∀ cur,
  no_lf cur → no_lf (List.last (split_lf_go cur s) []).
Proof.
  induction s as [|c s IH]; intros cur Hcur; simpl.
  - unfold no_lf. by apply Forall_reverse.
  - destruct (eqc c "010"%char) eqn:Hc.
    + specialize (IH [] (Forall_nil_2 _)).
      destruct (split_lf_go [] s) eqn:E; [by apply split_lf_go_nonempty in E|].
      exact IH.
    + apply IH. by constructor.
Qed.

Lemma split_lf_go_app x : ∀ cur y,
  no_lf cur →
  split_lf_go cur (x ++ y)
  = removelast (split_lf_go cur x)
    ++ split_lf (List.last (split_lf_go cur x) [] ++ y).
Proof.
  induction x as [|c x IH]; intros cur y Hcur; simpl.
  - unfold split_lf. rewrite split_lf_go_shift.
    + by rewrite reverse_involutive, app_nil_r.
    + unfold no_lf. by apply Forall_reverse.
  - destruct (eqc c "010"%char) eqn:Hc.
    + rewrite (IH [] y (Forall_nil_2 _)).
      destruct (split_lf_go [] x) eqn:E; [by apply split_lf_go_nonempty in E|].
      done.
    + apply IH. by constructor.
Qed.

Lemma split_lf_app x y :
  split_lf (x ++ y)
  = removelast (split_lf x) ++ split_lf (List.last (split_lf x) [] ++ y).
Proof. apply split_lf_go_app. constructor. Qed.

Lemma split_lf_no_lf b : no_lf b → split_lf b = [b].
Proof.
  intros Hb. unfold split_lf.
  rewrite <- (app_nil_r b) at 1. rewrite split_lf_go_shift by done.
  simpl. by rewrite app_nil_r, reverse_involutive.
Qed.

Lemma removelast_app_ne {A} (l l' : list A) :
  l' ≠ [] → removelast (l ++ l') = l ++ removelast l'.
Proof.
  intros Hl'. induction l as [|a l IH]; [done|].
  simpl. destruct (l ++ l') eqn:E.
  - by destruct l, l'.
  - by rewrite <- IH.
Qed.

Lemma last_app_ne {A} (l l' : list A) d :
  l' ≠ [] → List.last (l ++ l') d = List.last l' d.
Proof.
  intros Hl'. induction l as [|a l IH]; [done|].
  simpl. destruct (l ++ l') eqn:E; [by destruct l, l' | done].
Qed.

Context {St : Type} (process : str → St → St).

Lemma process_lines_app (l1 l2 : list str) (s : St) :
  process_lines process (l1 ++ l2) s
  = process_lines process l2 (process_lines process l1 s).
Proof. unfold process_lines. apply foldl_app. Qed.

(** The loop invariant: what is in the buffer and what is left to read
    make up the unread text, and the buffer holds no line feed. *)
Lemma read_chunks_spec fuel : ∀ n rest buffer (s : St),
  1 ≤ n → length rest < fuel → no_lf buffer →
  read_chunks process fuel n rest buffer s
  = (List.last (split_lf (buffer ++ rest)) [],
     process_lines process (removelast (split_lf (buffer ++ rest))) s).
Proof.
  induction fuel as [|fuel IH]; intros n rest buffer s Hn Hfuel Hb; [lia|].
  simpl. destruct (take n rest) as [|c chunk] eqn:Hchunk.
  - assert (rest = []) as ->.
    { destruct rest; [done|]. destruct n; [lia | done]. }
    rewrite app_nil_r, split_lf_no_lf by done. done.
  - rewrite <- Hchunk. unfold pop.
    assert (Hlen : length (drop n rest) < fuel).
    { rewrite length_drop. destruct rest; [by rewrite take_nil in Hchunk|].
      simpl in *. lia. }
    rewrite IH; [|done|done|apply split_lf_go_last_no_lf; constructor].
    assert (Hsplit : split_lf (buffer ++ rest)
      = removelast (split_lf (buffer ++ take n rest))
        ++ split_lf (List.last (split_lf (buffer ++ take n rest)) []
                     ++ drop n rest)).
    { rewrite <- (take_drop n rest) at 1.
      by rewrite (app_assoc buffer), split_lf_app. }
    rewrite Hsplit.
    rewrite removelast_app_ne, last_app_ne by apply split_lf_go_nonempty.
    by rewrite process_lines_app.
Qed.

Lemma read_file_spec text n (s : St) :
  1 ≤ n →
  read_file process text n s = process_lines process (complete_lines text) s.
Proof.
  intros Hn. unfold read_file, complete_lines, pop.
  rewrite read_chunks_spec; [|done|lia|constructor].
  simpl. destruct (List.last (split_lf text) []); [done|].
  by rewrite process_lines_app.
Qed.

End ChunkReader.

Lemma record_lines (l acc : list str) :
  ChunkParser.process_lines (λ line seen, seen ++ [line]) l acc = acc ++ l.
Proof.
  unfold ChunkParser.process_lines.
  revert acc; induction l as [|x l IH]; intros acc; simpl.
  - by rewrite app_nil_r.
  - rewrite IH. by rewrite <- app_assoc.
Qed.

Lemma finalize_query_idle sh t :
  ChunkParser.current_query sh = [] → ChunkParser.finalize_query sh t = sh.
Proof. intros H. unfold ChunkParser.finalize_query. by rewrite H. Qed.

Section WholeLines.

Import ChunkParser.

(** The pieces of [split('\n')] hold no line feed, and joined by line
    feeds they give the text back. *)
Lemma split_lf_go_pieces s : ∀ cur,
  no_lf cur →
  Forall no_lf (split_lf_go cur s)
  ∧ text_of (removelast (split_lf_go cur s)) (List.last (split_lf_go cur s) [])
    = reverse cur ++ s.
Proof.
  induction s as [|c s IH]; intros cur Hcur; simpl.
  - split; [|by rewrite app_nil_r].
    constructor; [|constructor]. by apply Forall_reverse.
  - destruct (eqc c "010"%char) eqn:Hc.
    + destruct (IH [] (Forall_nil_2 _)) as [Hall Htext].
      pose proof (split_lf_go_nonempty [] s) as Hne.
      destruct (split_lf_go [] s) as [|p ps] eqn:E; [done|].
      split; [constructor; [by apply Forall_reverse | done]|].
      change (text_of (reverse cur :: removelast (p :: ps))
                (List.last (p :: ps) [])
              = reverse cur ++ c :: s).
      unfold text_of in *. rewrite bind_cons, <- !app_assoc.
      rewrite Htext.
      assert (c = "010"%char) as ->; [|done].
      unfold eqc, code in Hc. apply N.eqb_eq in Hc.
      apply (f_equal ascii_of_N) in Hc. by rewrite !ascii_N_embedding in Hc.
    + destruct (IH (c :: cur)) as [Hall Htext]; [by constructor|].
      split; [done|]. rewrite Htext, reverse_cons, <- app_assoc. done.
Qed.

(** A text made of lines without line feed is split into these lines. *)
Lemma split_lf_text_of lines rest :
  Forall no_lf lines → no_lf rest →
  split_lf (text_of lines rest) = lines ++ [rest].
Proof.
  intros Hlines Hrest. induction Hlines as [|l lines Hl Hlines IH].
  - by apply split_lf_no_lf.
  - unfold text_of. rewrite bind_cons, <- !app_assoc.
    unfold split_lf. rewrite split_lf_go_shift by done.
    simpl. rewrite app_nil_r, reverse_involutive. f_equal. apply IH.
Qed.

Lemma complete_lines_text_of lines rest :
  Forall no_lf lines → no_lf rest →
  complete_lines (text_of lines rest) = whole_lines lines rest.
Proof.
  intros Hlines Hrest. unfold complete_lines, pop, whole_lines.
  rewrite split_lf_text_of by done.
  rewrite removelast_last, last_last.
  destruct rest; [by rewrite app_nil_r | done].
Qed.

End WholeLines.

(** C6.  Every text is a sequence of lines without line feed, a line
    feed after each, and a last piece that no line feed ends.  With a
    chunk size of at least one character, the chunked reader passes to
    [process_line] exactly these lines, in order, and then the last
    piece when it is not empty: a piece cut by a chunk boundary waits in
    the buffer.  The counter it returns is the one of the parser fed
    with these lines one by one. *)
Theorem chunked_reading_refines_line_reading (text : str) (chunk_size : nat) :
  1 ≤ chunk_size →
  (∃ lines rest,
     text = ChunkParser.text_of lines rest
     ∧ Forall ChunkParser.no_lf lines ∧ ChunkParser.no_lf rest)
  ∧ ∀ lines rest,
      text = ChunkParser.text_of lines rest →
      Forall ChunkParser.no_lf lines → ChunkParser.no_lf rest →
      ChunkParser.lines_processed text chunk_size
      = ChunkParser.whole_lines lines rest
      ∧ ChunkParser.parse_log_in_chunks text chunk_size
        = ChunkParser.parse_lines (ChunkParser.whole_lines lines rest).
Proof.
  intros Hn. split.
  - destruct (split_lf_go_pieces text [] (Forall_nil_2 _)) as [Hall Htext].
    exists (removelast (ChunkParser.split_lf_go [] text)),
           (List.last (ChunkParser.split_lf_go [] text) []).
    split; [done|].
    pose proof (split_lf_go_nonempty [] text) as Hne.
    destruct (exists_last Hne) as (ps & p & Hps).
    rewrite Hps in Hall |- *. rewrite removelast_last, last_last.
    apply Forall_app in Hall as [Hps' Hp]. split; [done|].
    by inversion_clear Hp.
  - intros lines rest -> Hlines Hrest. split.
    + unfold ChunkParser.lines_processed. rewrite read_file_spec by done.
      rewrite complete_lines_text_of by done. apply (record_lines _ []).
    + unfold ChunkParser.parse_log_in_chunks, ChunkParser.parse_lines.
      rewrite read_file_spec by done.
      rewrite complete_lines_text_of by done.
      destruct (ChunkParser.current_query _) eqn:E; [|done].
      by rewrite finalize_query_idle.
Qed.

Lemma chunked_reading_refines_line_reading_witness :
  ChunkParser.lines_processed
    (L "abc" ++ Driver.nl ++ L "de" ++ Driver.nl ++ L "f") 2
  = [L "abc"; L "de"; L "f"].
Proof.
  assert (Hn : 1 ≤ 2) by lia.
  apply (proj1 (proj2 (chunked_reading_refines_line_reading
                         (L "abc" ++ Driver.nl ++ L "de" ++ Driver.nl ++ L "f")
                         2 Hn) [L "abc"; L "de"] (L "f") eq_refl
                         ltac:(by repeat constructor)
                         ltac:(by repeat constructor))).
Defined.

(** ** The timestamp of a record in parser.py *)

Section LostTimestamp.

Import ChunkParser.

Context {St : Type} (process : str → St → St) (P : St → Prop).
Hypothesis process_keeps : ∀ line s, P s → P (process line s).

Lemma process_lines_keeps lines : ∀ s, P s → P (process_lines process lines s).
Proof.
  unfold process_lines.
  induction lines as [|l lines IH]; intros s Hs; simpl; [done|].
  apply IH, process_keeps, Hs.
Qed.

Lemma read_chunks_keeps fuel : ∀ n rest buffer s,
  P s → P (read_chunks process fuel n rest buffer s).2.
Proof.
  induction fuel as [|fuel IH]; intros n rest buffer s Hs; simpl; [done|].
  destruct (take n rest) eqn:E; [done|].
  unfold pop. apply IH, process_lines_keeps, Hs.
Qed.

Lemma read_file_keeps text n s : P s → P (read_file process text n s).
Proof.
  intros Hs. unfold read_file.
  pose proof (read_chunks_keeps (S (length text)) n text [] s Hs) as H.
  destruct (read_chunks _ _ _ _ _ _) as [buffer s']. simpl in H.
  destruct buffer; [done | by apply process_keeps].
Qed.

End LostTimestamp.

Lemma finalize_query_untimed sh :
  ChunkParser.untimed sh → ChunkParser.untimed (ChunkParser.finalize_query sh None).
Proof.
  intros Hsh. unfold ChunkParser.finalize_query.
  destruct (ChunkParser.current_query sh); [done|].
  intros k. simpl. rewrite lookup_insert. case_decide as Hk.
  - by subst.
  - apply Hsh.
Qed.

Lemma process_untimed line sh :
  ChunkParser.untimed sh → ChunkParser.untimed (ChunkParser.process line sh).
Proof.
  intros Hsh. unfold ChunkParser.process, ChunkParser.process_line.
  pose proof (finalize_query_untimed sh Hsh) as Hfin.
  destruct (re_search timestamp_regex line) as [[? ?]|];
    [destruct (contains ChunkParser.marker line)|];
    destruct (ChunkParser.current_query sh); done.
Qed.

(** Whatever the input and the chunk size, no record is counted under a
    timestamp. *)
Lemma parse_log_in_chunks_untimed text chunk_size k :
  is_Some (ChunkParser.parse_log_in_chunks text chunk_size !! k) → k.1 = None.
Proof.
  unfold ChunkParser.parse_log_in_chunks.
  assert (H : ChunkParser.untimed (ChunkParser.read_file ChunkParser.process text
                         chunk_size (ChunkParser.Shared ∅ []))).
  { apply read_file_keeps; [apply process_untimed|].
    intros k' [v Hv]. simpl in Hv. by rewrite lookup_empty in Hv. }
  revert H. generalize (ChunkParser.read_file ChunkParser.process text
                         chunk_size (ChunkParser.Shared ∅ [])).
  intros sh H.
  destruct (ChunkParser.current_query sh); [apply H|].
  by apply finalize_query_untimed.
Qed.

(** C4. [process_line] extracts the timestamp of the line that starts a
    record into its own local name; the record that [parse_log_in_chunks]
    counts for that line is keyed by [None]. *)
Theorem record_timestamp_is_dropped :
  let line := L "2024-01-01 10:00:01 LOG:  statement: SELECT 1" in
  (ChunkParser.process_line line (ChunkParser.Shared ∅ []) None).2
  = Some (L "2024-01-01 10:00")
  ∧ map_to_list (ChunkParser.parse_log_in_chunks (line ++ Driver.nl) 64)
    = [((None, L "SELECT ?"), 1)].
Proof. split; vm_compute; reflexivity. Qed.

(** ** Classification and the release of the stores *)

(** C5. The record assembled from the lines
    [2024-01-01 10:00:01 LOG:  statement: ;] and [;] has the body [" ;"];
    without its semicolons the body is one space, which has no first
    word: the classification raises [IndexError] instead of yielding
    [OTHER], and so does the run. *)
Theorem blank_body_is_not_classified :
  let lines := [L "2024-01-01 10:00:01 LOG:  statement: ;"; L ";"] in
  current_query (DayParser.read_loop lines Driver.EndOfFile (init ∅)).2
  = Some (Query (L "2024-01-01 10:00:01") (L " ;"))
  ∧ Driver.classify (L " ;") = Raise IndexError
  ∧ Driver.classify [] = Ok (L "OTHER")
  ∧ (DayParser.parse lines Driver.EndOfFile (init ∅)).1 = Raise IndexError.
Proof. repeat split; vm_compute; reflexivity. Qed.

(** C9. After the input
    [2024-01-01 10:00:01 LOG:  statement: SELECT 1],
    [2024-01-01 10:00:02 LOG:  statement: ;], [;]
    has been read to its end, the [finally] block raises [IndexError] on
    the last record before it flushes and closes: the line of the first
    record stays in the buffer of its store, the store is empty and its
    handle is never closed. *)
Theorem blank_body_skips_release :
  let lines := [L "2024-01-01 10:00:01 LOG:  statement: SELECT 1";
                L "2024-01-01 10:00:02 LOG:  statement: ;"; L ";"] in
  let store := L "SELECT_2024-01-01.log" in
  let run := DayParser.parse lines Driver.EndOfFile (init ∅) in
  run.1 = Raise IndexError
  ∧ file_buffers run.2 !! store = Some [L "2024-01-01 10:00:01 | SELECT 1" ++ Driver.nl]
  ∧ content run.2 store = []
  ∧ opened run.2 = [store]
  ∧ closed run.2 = [].
Proof. repeat split; vm_compute; reflexivity. Qed.

(** ** Invariants of the run monad *)

Section Preservation.

Variable P : state → Prop.

Lemma preserves_ret {A} (a : A) : preserves P (mret a).
Proof. by intros st. Qed.

Lemma preserves_raise {A} e : preserves P (@raise A e).
Proof. by intros st. Qed.

Lemma preserves_get : preserves P get.
Proof. by intros st. Qed.

Lemma preserves_modify f : (∀ st, P st → P (f st)) → preserves P (modify f).
Proof. intros Hf st. apply Hf. Qed.

Lemma preserves_bind {A B} (m : M A) (k : A → M B) :
  preserves P m → (∀ a, preserves P (k a)) → preserves P (m ≫= k).
Proof.
  intros Hm Hk st Hst. unfold mbind, M_bind, bind.
  specialize (Hm st Hst). destruct (m st) as [[a|e] st']; [|done].
  by apply Hk.
Qed.

Lemma preserves_try_finally body handler :
  preserves P body → preserves P handler →
  preserves P (try_finally body handler).
Proof.
  intros Hb Hh st Hst. unfold try_finally.
  specialize (Hb st Hst). destruct (body st) as [r st'].
  specialize (Hh st' Hb). by destruct (handler st') as [[?|?] st''].
Qed.

End Preservation.

Ltac preserve :=
  repeat lazymatch goal with
  | |- preserves _ (mret _) => apply preserves_ret
  | |- preserves _ (raise _) => apply preserves_raise
  | |- preserves _ get => apply preserves_get
  | |- preserves _ (_ ≫= _) => apply preserves_bind; [|intros ?]
  | |- preserves _ (modify _) => apply preserves_modify; intros ? ?
  | |- preserves _ (try_finally _ _) => apply preserves_try_finally
  end.

(** ** The normalization cache *)

Section Cache.

Import Driver.

(** A property of the cache and of the record of the computations is
    kept by whatever touches neither. *)
Variable P : state → Prop.
Hypothesis P_view : ∀ st st',
  sql_cache st' = sql_cache st → computed st' = computed st → P st → P st'.

Lemma buffer_query_keeps_cache q : preserves P (buffer_query q).
Proof.
  intros st Hst. unfold buffer_query.
  destruct (first_word _); [|done].
  destruct (split _); [done|].
  repeat (case_bool_decide || case_match); simpl;
    (eapply P_view; [| |exact Hst]; done).
Qed.

Lemma flush_buffers_keeps_cache : preserves P flush_buffers.
Proof.
  intros st Hst. unfold flush_buffers. simpl.
  eapply P_view; [| |exact Hst]; simpl.
  - induction (map_to_list (file_buffers st)) as [|[f b] l IH]; [done|].
    simpl. by case_match.
  - induction (map_to_list (file_buffers st)) as [|[f b] l IH]; [done|].
    simpl. by case_match.
Qed.

Lemma close_all_keeps_cache : preserves P close_all.
Proof.
  intros st Hst. unfold close_all. simpl.
  generalize (output_files st) as names. intros names.
  revert st Hst. induction names as [|n names IH]; intros st Hst; [done|].
  simpl. apply IH. by eapply P_view; [| |exact Hst].
Qed.

Variable pattern : regex.
Variable key_of : str → option str.
Variable summary_name : str.

Lemma parse_line_keeps_cache raw : preserves P (parse_line pattern raw).
Proof.
  unfold parse_line. destruct (strip raw) as [|c line]; [preserve|].
  destruct (is_digit c); preserve.
  - destruct (current_query _); [apply buffer_query_keeps_cache | preserve].
  - by eapply P_view; [| |eassumption].
  - destruct (current_query _); [|done]. by eapply P_view; [| |eassumption].
Qed.

Lemma read_loop_keeps_cache lines e : preserves P (read_loop pattern lines e).
Proof.
  induction lines as [|raw lines IH]; simpl.
  - destruct e; preserve.
  - preserve; [apply parse_line_keeps_cache | apply IH].
Qed.

Lemma release_keeps_cache : preserves P release.
Proof.
  unfold release. preserve.
  - destruct (current_query _); [apply buffer_query_keeps_cache | preserve].
  - apply flush_buffers_keeps_cache.
  - apply close_all_keeps_cache.
Qed.

End Cache.

Section CacheRun.

Import Driver.

Lemma cache_ok_view st st' :
  sql_cache st' = sql_cache st → computed st' = computed st →
  cache_ok st → cache_ok st'.
Proof. unfold cache_ok. by intros -> ->. Qed.

Lemma normalize_sql_cache_ok sql : preserves cache_ok (normalize_sql sql).
Proof.
  intros st (Hnd & Hin & Hval). unfold normalize_sql.
  destruct (sql_cache st !! sql) as [v|] eqn:E; [done|].
  split_and!; simpl.
  - constructor; [|done]. intros Hc. apply Hin in Hc. rewrite E in Hc.
    by destruct Hc.
  - intros b [->|Hb]%elem_of_cons.
    + rewrite lookup_insert_eq. eauto.
    + rewrite lookup_insert. case_decide; eauto.
  - intros b v. rewrite lookup_insert. case_decide; [naive_solver | apply Hval].
Qed.

Variable pattern : regex.
Variable key_of : str → option str.
Variable summary_name : str.

Lemma count_line_cache_ok line s : preserves cache_ok (count_line key_of line s).
Proof.
  unfold count_line.
  destruct (split_once _ line) as [|ts [|sql [|? ?]]]; preserve.
  - destruct (sql_cache _ !! _); [preserve | apply normalize_sql_cache_ok].
  - destruct (key_of ts); preserve.
Qed.

Lemma count_lines_cache_ok lines : ∀ s,
  preserves cache_ok (count_lines key_of lines s).
Proof.
  induction lines as [|l lines IH]; intros s; simpl; preserve.
  - apply count_line_cache_ok.
  - apply IH.
Qed.

Lemma count_files_cache_ok names : ∀ s,
  preserves cache_ok (count_files key_of names s).
Proof.
  induction names as [|n names IH]; intros s; simpl; preserve.
  - apply count_lines_cache_ok.
  - apply IH.
Qed.

Lemma count_dates_cache_ok dates : ∀ s,
  preserves cache_ok (count_dates key_of dates s).
Proof.
  induction dates as [|d dates IH]; intros s; simpl; preserve.
  - apply count_files_cache_ok.
  - apply IH.
Qed.

Lemma generate_summary_cache_ok :
  preserves cache_ok (generate_summary key_of summary_name).
Proof.
  unfold generate_summary. preserve.
  - apply count_dates_cache_ok.
  - by eapply cache_ok_view; [| |eassumption].
Qed.

Lemma parse_cache_ok lines e :
  preserves cache_ok (parse pattern key_of summary_name lines e).
Proof.
  unfold parse, finish. preserve.
  - apply read_loop_keeps_cache. apply cache_ok_view.
  - apply release_keeps_cache. apply cache_ok_view.
  - apply generate_summary_cache_ok.
Qed.

Lemma cache_ok_init dir : cache_ok (init dir).
Proof.
  split_and!; [constructor | by intros b Hb%elem_of_nil |].
  intros b v. unfold init. simpl. by rewrite lookup_empty.
Qed.

End CacheRun.

(** C7. Two calls of [normalize_sql] on the same body return the same
    result, and the second one leaves the state, with its record of the
    substitutions that ran, as the first call left it.  The first call
    runs the substitutions only when the body is not in the cache, and
    then caches what it returns; a hit returns the cached value.  At the
    end of a whole run no body was substituted twice, and every cached
    value is the one the substitutions give for its body. *)
Theorem normalize_sql_is_memoized :
  (∀ b st,
     let first := Driver.normalize_sql b st in
     let second := Driver.normalize_sql b first.2 in
     second.1 = first.1 ∧ second.2 = first.2
     ∧ sql_cache first.2 !! b = (match first.1 with Ok v => Some v | Raise _ => None end)
     ∧ match sql_cache st !! b with
       | Some v => first = (Ok v, st)
       | None => first.1 = Ok (substitute b) ∧ computed first.2 = b :: computed st
       end)
  ∧ (∀ pattern key_of summary_name lines e dir,
       let st := (Driver.parse pattern key_of summary_name lines e (init dir)).2 in
       NoDup (computed st)
       ∧ ∀ b, sql_cache st !! b = None ∨ sql_cache st !! b = Some (substitute b)).
Proof.
  split.
  - intros b st. unfold Driver.normalize_sql.
    destruct (sql_cache st !! b) as [v|] eqn:E; simpl.
    + by rewrite E.
    + by rewrite lookup_insert_eq.
  - intros pattern key_of summary_name lines e dir st.
    destruct (parse_cache_ok pattern key_of summary_name lines e (init dir)
                (cache_ok_init dir)) as (Hnd & _ & Hval).
    split; [done|]. intros b. fold st in Hval.
    destruct (sql_cache st !! b) as [v|] eqn:E; [|by left].
    right. by rewrite (Hval b v E).
Qed.

(** ** The statement assembler *)

Section Assembler.

Import Driver.

Variable pattern : regex.

Lemma join_cons_flat sep (x : str) (l : list str) :
  join sep (x :: l) = x ++ mjoin ((λ y, sep ++ y) <$> l).
Proof.
  revert x; induction l as [|y l IH]; intros x.
  - simpl. by rewrite app_nil_r.
  - change (join sep (x :: y :: l)) with (x ++ sep ++ join sep (y :: l)).
    rewrite IH. simpl. by rewrite <- app_assoc.
Qed.

Lemma read_loop_continuations conts : ∀ st ts body,
  current_query st = Some (Query ts body) →
  Forall continuation conts →
  read_loop pattern conts EndOfFile st
  = (Ok tt, set_current_query
              (Some (Query ts (body ++ mjoin ((λ y, L " " ++ strip y) <$> conts))))
              st).
Proof.
  induction conts as [|raw conts IH]; intros st ts body Hq Hall.
  - simpl. rewrite app_nil_r. destruct st; simpl in *; by subst.
  - inversion Hall as [|? ? (c & r & Hs & Hc) Hall']; subst.
    simpl. unfold mbind, M_bind, bind, parse_line at 1.
    rewrite Hs, Hc. unfold modify. rewrite Hq.
    rewrite (IH _ ts (body ++ L " " ++ c :: r)); [|done|done].
    simpl. by rewrite <- !app_assoc.
Qed.

End Assembler.

(** C2, as the code has it.  While a record is being accumulated, a line
    that is not blank and starts with a digit finalizes the record,
    whether or not it matches the log pattern: the record is routed to
    its store and the matcher decides whether a new record starts or the
    assembler goes idle.  A line that is not blank and starts with
    anything else is appended, trimmed, after one space, and the
    assembler keeps accumulating.  So a first line that matches,
    followed by continuation lines none of which starts with a digit,
    gives at the end of the input one record whose body is the fragments
    joined by single spaces. *)
Theorem assembler_accumulating_step :
  ∀ pattern st q raw c rest,
    current_query st = Some q →
    strip raw = c :: rest →
    (is_digit c = true →
       Driver.parse_line pattern raw st
       = (Driver.buffer_query q ≫= λ _,
            modify (set_current_query (Driver.extract_query pattern (c :: rest)))) st)
    ∧ (is_digit c = false →
       Driver.parse_line pattern raw st
       = (Ok tt, set_current_query
                   (Some (Query (timestamp q) (sql q ++ L " " ++ c :: rest))) st))
    ∧ (∀ conts,
         is_digit c = false →
         Forall Driver.continuation conts →
         Driver.read_loop pattern (raw :: conts) Driver.EndOfFile st
         = (Ok tt, set_current_query
                     (Some (Query (timestamp q)
                        (join (L " ") (sql q :: (strip <$> (raw :: conts)))))) st)).
Proof.
  intros pattern st q raw c rest Hq Hs. split_and!.
  - intros Hc. unfold Driver.parse_line. rewrite Hs, Hc.
    unfold mbind, M_bind, bind, get. by rewrite Hq.
  - intros Hc. unfold Driver.parse_line. rewrite Hs, Hc.
    unfold modify. by rewrite Hq.
  - intros conts Hc Hall.
    rewrite (read_loop_continuations pattern (raw :: conts) st (timestamp q) (sql q)).
    + by rewrite join_cons_flat, <- list_fmap_compose.
    + by destruct q.
    + constructor; [by exists c, rest | done].
Qed.

Lemma assembler_accumulating_step_witness :
  let q := Query (L "2024-01-01 10:00:01") (L "SELECT *") in
  let st := set_current_query (Some q) (init ∅) in
  Driver.read_loop log_pattern [L "  FROM users "; L "WHERE id = 1"]
    Driver.EndOfFile st
  = (Ok tt, set_current_query
              (Some (Query (L "2024-01-01 10:00:01")
                           (L "SELECT * FROM users WHERE id = 1"))) st)
  ∧ Driver.parse_line log_pattern
      (L "2024-01-01 10:00:02 LOG:  statement: SELECT 2") st
    = (Driver.buffer_query q ≫= λ _,
         modify (set_current_query
                   (Some (Query (L "2024-01-01 10:00:02") (L "SELECT 2"))))) st.
Proof.
  intros q st. split.
  - apply (proj2 (proj2 (assembler_accumulating_step log_pattern st q
             (L "  FROM users ") "F"%char (L "ROM users") eq_refl eq_refl))
             [L "WHERE id = 1"] eq_refl).
    constructor; [|constructor].
    exists "W"%char, (L "HERE id = 1"). split; reflexivity.
  - apply (proj1 (assembler_accumulating_step log_pattern st q
             (L "2024-01-01 10:00:02 LOG:  statement: SELECT 2") "2"%char
             (L "024-01-01 10:00:02 LOG:  statement: SELECT 2")
             eq_refl eq_refl) eq_refl).
Defined.

(** C2, as stated, fails on a continuation line that starts with a digit:
    the line [1, 2, 3)] does not match the log pattern, yet it is not
    appended; the record is routed with the body it had and the
    assembler goes idle. *)
Lemma digit_continuation_is_not_appended :
  let q := Query (L "2024-01-01 10:00:01") (L "SELECT * FROM t WHERE id IN (") in
  let st := set_current_query (Some q) (init ∅) in
  let raw := L "1, 2, 3)" in
  let st' := (DayParser.parse_line raw st).2 in
  strip raw ≠ []
  ∧ DayParser.extract_query (strip raw) = None
  ∧ current_query st' ≠ Some (Query (timestamp q) (sql q ++ L " " ++ strip raw))
  ∧ current_query st' = None
  ∧ file_buffers st' !! L "SELECT_2024-01-01.log"
    = Some [L "2024-01-01 10:00:01 | SELECT * FROM t WHERE id IN (" ++ Driver.nl].
Proof. split_and!; vm_compute; done. Qed.

(** ** The order of Python strings *)

Section StringOrder.

Lemma code_inj a b : code a = code b → a = b.
Proof.
  unfold code. intros H.
  by rewrite <- (ascii_N_embedding a), <- (ascii_N_embedding b), H.
Qed.

Lemma eqc_eq a b : eqc a b = true ↔ a = b.
Proof.
  unfold eqc. rewrite N.eqb_eq. split; [apply code_inj | by intros ->].
Qed.

Lemma eqc_refl a : eqc a a = true.
Proof. by apply eqc_eq. Qed.

Lemma eqc_neq a b : eqc a b = false ↔ a ≠ b.
Proof. rewrite <- eqc_eq. by destruct (eqc a b). Qed.

Lemma str_leb_total a : ∀ b, str_leb a b = true ∨ str_leb b a = true.
Proof.
  induction a as [|x a IH]; intros [|y b]; simpl; auto.
  destruct (N.ltb_spec (code x) (code y)), (N.ltb_spec (code y) (code x));
    auto; lia.
Qed.

Lemma str_leb_trans a : ∀ b c,
  str_leb a b = true → str_leb b c = true → str_leb a c = true.
Proof.
  induction a as [|x a IH]; intros [|y b] [|z c]; simpl; try done.
  destruct (N.ltb_spec (code x) (code y)), (N.ltb_spec (code y) (code x)),
    (N.ltb_spec (code y) (code z)), (N.ltb_spec (code z) (code y)),
    (N.ltb_spec (code x) (code z)), (N.ltb_spec (code z) (code x));
    try done; try lia.
  apply IH.
Qed.

Lemma str_leb_antisym a : ∀ b,
  str_leb a b = true → str_leb b a = true → a = b.
Proof.
  induction a as [|x a IH]; intros [|y b]; simpl; try done.
  destruct (N.ltb_spec (code x) (code y)), (N.ltb_spec (code y) (code x));
    try done; try lia.
  intros Hab Hba. f_equal; [apply code_inj; lia | by apply IH].
Qed.

Global Instance str_le_total : Total str_le.
Proof. intros a b. apply str_leb_total. Qed.
Global Instance str_le_trans : Transitive str_le.
Proof. intros a b c. apply str_leb_trans. Qed.
Global Instance str_le_antisym : AntiSymm (=) str_le.
Proof. intros a b. apply str_leb_antisym. Qed.

Lemma str_le_ne_lt a b : str_le a b → a ≠ b → str_lt a b.
Proof.
  unfold str_le, str_lt. intros Hab Hne.
  destruct (str_leb b a) eqn:E; [|done].
  by destruct Hne; apply str_leb_antisym.
Qed.

Import Driver.

Global Instance item_le_total : Total item_le.
Proof.
  intros [a n] [b m]. unfold item_le, item_leb. simpl.
  pose proof (str_leb_total a b) as Htot.
  destruct (str_leb a b), (str_leb b a); auto; try by destruct Htot.
  destruct (Nat.leb_spec n m), (Nat.leb_spec m n); auto; lia.
Qed.

Global Instance item_le_trans : Transitive item_le.
Proof.
  intros [a n] [b m] [c k]. unfold item_le, item_leb. simpl.
  destruct (str_leb a b) eqn:Hab; [|done].
  destruct (str_leb b c) eqn:Hbc; [|by destruct (str_leb b a)].
  rewrite (str_leb_trans a b c Hab Hbc).
  destruct (str_leb c a) eqn:Hca; [|done].
  rewrite (str_leb_trans b c a Hbc Hca), (str_leb_trans c a b Hca Hab).
  intros H1%Nat.leb_le H2%Nat.leb_le. apply Nat.leb_le. lia.
Qed.

Lemma item_le_key x y : item_le x y → str_le x.1 y.1.
Proof.
  unfold item_le, item_leb, str_le. by destruct (str_leb x.1 y.1).
Qed.

End StringOrder.

(** ** The summary store *)

Section Summary.

Import Driver.

Lemma StronglySorted_strict {A} (R : relation A) (l : list A) :
  StronglySorted R l → NoDup l → StronglySorted (λ a b, R a b ∧ a ≠ b) l.
Proof.
  induction 1 as [|x l Hl IH Hx]; intros Hnd; [constructor|].
  apply NoDup_cons in Hnd as [Hx' Hnd]. constructor; [by apply IH|].
  rewrite Forall_forall in Hx |- *. intros y Hy. split; [by apply Hx|].
  by intros ->.
Qed.

Lemma StronglySorted_impl {A} (R R' : relation A) (l : list A) :
  (∀ a b, a ∈ l → b ∈ l → R a b → R' a b) →
  StronglySorted R l → StronglySorted R' l.
Proof.
  intros HR. induction 1 as [|x l Hl IH Hx]; [constructor|].
  constructor.
  - apply IH. intros a b Ha Hb. apply HR; by right.
  - rewrite Forall_forall in Hx |- *. intros y Hy.
    apply HR; [by left | by right | by apply Hx].
Qed.

Lemma sorted_labels (s : stats) :
  StronglySorted str_lt (merge_sort str_le (elements (dom s))).
Proof.
  eapply StronglySorted_impl;
    [|apply StronglySorted_strict;
       [apply (StronglySorted_merge_sort str_le)|]].
  - intros a b _ _ [? ?]. by apply str_le_ne_lt.
  - rewrite merge_sort_Permutation. apply NoDup_elements.
Qed.

Lemma sorted_items (inner : gmap str nat) :
  StronglySorted (λ x y, str_lt x.1 y.1)
    (merge_sort item_le (map_to_list inner)).
Proof.
  assert (Hnd : NoDup (merge_sort item_le (map_to_list inner)).*1).
  { rewrite merge_sort_Permutation. apply NoDup_fst_map_to_list. }
  pose proof (StronglySorted_merge_sort item_le (map_to_list inner)) as Hs.
  revert Hnd Hs. generalize (merge_sort item_le (map_to_list inner)).
  intros l Hnd Hs. induction Hs as [|x l Hl IH Hx]; [constructor|].
  rewrite fmap_cons in Hnd. apply NoDup_cons in Hnd as [Hx' Hnd].
  constructor; [by apply IH|].
  rewrite Forall_forall in Hx |- *. intros y Hy.
  apply str_le_ne_lt; [by apply item_le_key, Hx|].
  intros Heq. apply Hx'. rewrite Heq. by apply list_elem_of_fmap_2.
Qed.

Lemma summary_lines_entries (s : stats) :
  summary_lines s = entry_line <$> summary_entries s.
Proof.
  unfold summary_lines, summary_entries.
  induction (merge_sort str_le (elements (dom s))) as [|label ls IH];
    [done|].
  rewrite !bind_cons, fmap_app, IH. f_equal.
  induction (merge_sort item_le _) as [|[q n] items IHi]; [done|].
  rewrite !bind_cons, fmap_app, IHi. done.
Qed.

Lemma elem_of_summary_entries (s : stats) label q n :
  (label, q, n) ∈ summary_entries s
  ↔ ∃ inner, s !! label = Some inner ∧ inner !! q = Some n.
Proof.
  unfold summary_entries. rewrite list_elem_of_bind. split.
  - intros (l & Hin & Hl). rewrite list_elem_of_bind in Hin.
    destruct Hin as ([q' n'] & Hin & Hq).
    apply list_elem_of_singleton in Hin. simplify_eq.
    rewrite merge_sort_Permutation, elem_of_elements, elem_of_dom in Hl.
    destruct Hl as [inner Hinner]. exists inner. split; [done|].
    rewrite Hinner in Hq. simpl in Hq.
    by rewrite merge_sort_Permutation, elem_of_map_to_list in Hq.
  - intros (inner & Hinner & Hq). exists label. split.
    + rewrite list_elem_of_bind. exists (q, n). split; [by left|].
      rewrite Hinner. simpl.
      by rewrite merge_sort_Permutation, elem_of_map_to_list.
    + rewrite merge_sort_Permutation, elem_of_elements, elem_of_dom. eauto.
Qed.

Lemma summary_entries_sorted (s : stats) :
  StronglySorted entry_lt (summary_entries s).
Proof.
  unfold summary_entries.
  pose proof (sorted_labels s) as Hs.
  induction Hs as [|label ls Hls IH Hl]; [constructor|].
  rewrite bind_cons. apply StronglySorted_app_2; [| |exact IH].
  - intros [[l1 q1] n1] [[l2 q2] n2] H1 H2.
    apply list_elem_of_bind in H1 as ([qa na] & H1 & _).
    apply list_elem_of_singleton in H1. simplify_eq.
    apply list_elem_of_bind in H2 as (l' & H2 & Hl').
    apply list_elem_of_bind in H2 as ([qb nb] & H2 & _).
    apply list_elem_of_singleton in H2. simplify_eq.
    left. simpl. rewrite Forall_forall in Hl. by apply Hl.
  - pose proof (sorted_items (default ∅ (s !! label))) as Hi.
    induction Hi as [|[q n] items Hitems IHi Hq]; [constructor|].
    rewrite bind_cons. simpl. constructor; [exact IHi|].
    apply Forall_forall. intros [[l' q'] n'] Hin.
    apply list_elem_of_bind in Hin as ([q'' n''] & Hin & Hin').
    apply list_elem_of_singleton in Hin. simplify_eq.
    right. split; [done|].
    apply (proj1 (Forall_forall _ _) Hq _ Hin').
Qed.

Variable key_of : str → option str.

Lemma count_line_returns line s st :
  ∃ s' st', count_line key_of line s st = (Ok s', st').
Proof.
  unfold count_line.
  destruct (split_once _ line) as [|ts [|sql [|? ?]]];
    try (eexists _, _; reflexivity).
  unfold mbind, M_bind, bind, get, normalize_sql.
  destruct (sql_cache st !! strip sql) eqn:E; simpl; rewrite ?E;
    destruct (key_of ts); eexists _, _; reflexivity.
Qed.

Lemma count_lines_returns lines : ∀ s st,
  ∃ s' st', count_lines key_of lines s st = (Ok s', st').
Proof.
  induction lines as [|l lines IH]; intros s st; simpl;
    [eexists _, _; reflexivity|].
  unfold mbind, M_bind, bind.
  destruct (count_line_returns l s st) as (s1 & st1 & ->). apply IH.
Qed.

Lemma count_files_returns names : ∀ s st,
  ∃ s' st', count_files key_of names s st = (Ok s', st').
Proof.
  induction names as [|n names IH]; intros s st; simpl;
    [eexists _, _; reflexivity|].
  unfold mbind, M_bind, bind, get.
  destruct (count_lines_returns (content st n) s st) as (s1 & st1 & ->).
  apply IH.
Qed.

Lemma count_dates_returns dates : ∀ s st,
  ∃ s' st', count_dates key_of dates s st = (Ok s', st').
Proof.
  induction dates as [|d dates IH]; intros s st; simpl;
    [eexists _, _; reflexivity|].
  unfold mbind, M_bind, bind, get.
  destruct (count_files_returns (glob_date d st) s st) as (s1 & st1 & ->).
  apply IH.
Qed.

(** The aggregator writes the lines of the counts that its loops over
    the dates seen return. *)
Lemma generate_summary_writes name st :
  ∃ s st',
    count_dates key_of (elements (dates_seen st)) ∅ st = (Ok s, st')
    ∧ generate_summary key_of name st
      = (Ok tt, set_disk (<[name := summary_lines s]> (disk st')) st').
Proof.
  unfold generate_summary, mbind, M_bind, bind, get.
  destruct (count_dates_returns (elements (dates_seen st)) ∅ st)
    as (s & st' & Hs).
  exists s, st'. split; [done|]. by rewrite Hs.
Qed.

End Summary.

(** C3, as the code has it.  The aggregator always returns, and it
    rewrites the summary store with the lines of the counts that its
    loops over the stored lines return: one line for each pair of a
    label and a statement that has a count, of the form
    [<label> | <statement> | выполнился <count> раз] and a line feed,
    each pair once, in the strict order of the labels and, under one
    label, of the statements; nothing else of the state changes.  The two
    SELECT statements of the scenario give the one line
    [2024-01-01 | SELECT * FROM users WHERE id = $num | выполнился 2 раз]. *)
Theorem summary_store_is_sorted_and_formatted :
  (∀ key_of name st,
     ∃ s st',
       Driver.count_dates key_of (elements (dates_seen st)) ∅ st = (Ok s, st')
       ∧ Driver.generate_summary key_of name st
         = (Ok tt,
            set_disk (<[name := Driver.entry_line <$> Driver.summary_entries s]>
                        (disk st')) st'))
  ∧ (∀ label statement count,
       Driver.entry_line (label, statement, count)
       = label ++ L " | " ++ statement ++ L " | выполнился "
         ++ show_nat count ++ L " раз" ++ Driver.nl)
  ∧ (∀ s : Driver.stats,
       StronglySorted Driver.entry_lt (Driver.summary_entries s)
       ∧ ∀ label statement count,
           (label, statement, count) ∈ Driver.summary_entries s
           ↔ ∃ inner, s !! label = Some inner ∧ inner !! statement = Some count)
  ∧ content (DayParser.parse DayParser.two_selects Driver.EndOfFile (init ∅)).2
            DayParser.summary_name
    = [L "2024-01-01 | SELECT * FROM users WHERE id = $num | выполнился 2 раз"
       ++ Driver.nl].
Proof.
  split_and!.
  - intros key_of name st.
    destruct (generate_summary_writes key_of name st) as (s & st' & Hs & Hg).
    exists s, st'. split; [done|]. by rewrite Hg, summary_lines_entries.
  - done.
  - intros s. split; [apply summary_entries_sorted|].
    intros label statement count. apply elem_of_summary_entries.
  - vm_compute. reflexivity.
Qed.

(** C3, as stated, fails on its own scenario: the count is not alone in
    the last field of the line. *)
Lemma summary_count_is_wrapped :
  content (DayParser.parse DayParser.two_selects Driver.EndOfFile (init ∅)).2
          DayParser.summary_name
  ≠ [L "2024-01-01 | SELECT * FROM users WHERE id = $num | 2" ++ Driver.nl].
Proof. vm_compute. discriminate. Qed.

(** ** The matcher on the patterns of the source *)

Section Matcher.

Context {R : Type}.
Implicit Types (k : cont R) (r : regex) (s : str) (g : caps).

Lemma orelse_none_r (x : option R) : orelse x None = x.
Proof. by destruct x. Qed.

Lemma exec_cat r1 r2 i c s g k :
  exec (Cat r1 r2) i c s g k
  = exec r1 i c s g (λ i' c' s' g', exec r2 i' c' s' g' k).
Proof. done. Qed.

Lemma exec_grp n r i c s g k :
  exec (Grp n r) i c s g k
  = exec r i c s g (λ i' c' s' g', k i' c' s' ((n, (i, i')) :: g')).
Proof. done. Qed.

Lemma exec_one_hit a i c s g k :
  exec (one a) i c (a :: s) g k = k (S i) (Some a) s g.
Proof. simpl. by rewrite eqc_refl. Qed.

Lemma exec_one_miss a x i c s g k :
  x ≠ a → exec (one a) i c (x :: s) g k = None.
Proof. intros Hx. simpl. by rewrite (proj2 (eqc_neq x a) Hx). Qed.

Lemma exec_spaces_one x i c s g k :
  is_space x = false →
  exec (Plus true (Chr is_space)) i c (" "%char :: x :: s) g k
  = k (S i) (Some " "%char) (x :: s) g.
Proof. intros Hx. unfold Plus. rewrite exec_cat. simpl. by rewrite Hx. Qed.

End Matcher.

Lemma digit_cases c :
  is_digit c = true →
  In c ["0"; "1"; "2"; "3"; "4"; "5"; "6"; "7"; "8"; "9"]%char.
Proof.
  destruct c as [[] [] [] [] [] [] [] []]; intros H;
    first [discriminate H | simpl; tauto].
Qed.

Ltac digit_split H :=
  apply digit_cases in H; simpl in H;
  repeat (destruct H as [<-|H]); [..|destruct H].

Lemma digit_not_space c : is_digit c = true → is_space c = false.
Proof. intros H. by digit_split H. Qed.

Lemma digit_neq c x : is_digit c = true → is_digit x = false → c ≠ x.
Proof. intros Hc Hx ->. congruence. Qed.

(** ** The minute key of minparserz.py *)

Section MinuteKey.

Import MinParser.

Context {R : Type}.
Implicit Types (k : cont R).

(** The value of two digits. *)
Let two (a b : ascii) : nat := 10 * digit_val a + digit_val b.

Lemma exec_directive_Y y1 y2 y3 y4 i c s g k :
  is_digit y1 = true → is_digit y2 = true →
  is_digit y3 = true → is_digit y4 = true →
  exec directive_Y i c (y1 :: y2 :: y3 :: y4 :: s) g k
  = k (4 + i) (Some y4) s g.
Proof. intros H1 H2 H3 H4. simpl. by rewrite H1, H2, H3, H4. Qed.

Lemma exec_directive_m a b i c s g k :
  is_digit a = true → is_digit b = true →
  (∀ i' c' g', k i' c' (b :: s) g' = None) →
  exec directive_m i c (a :: b :: s) g k
  = if (1 <=? two a b) && (two a b <=? 12)
    then k (2 + i) (Some b) s g else None.
Proof.
  intros Ha Hb Hk. digit_split Ha; digit_split Hb;
    vm_compute; rewrite ?Hk; try reflexivity; by destruct (k _ _ _ _).
Qed.

Lemma exec_directive_d a b i c s g k :
  is_digit a = true → is_digit b = true →
  (∀ i' c' g', k i' c' (b :: s) g' = None) →
  exec directive_d i c (a :: b :: s) g k
  = if (1 <=? two a b) && (two a b <=? 31)
    then k (2 + i) (Some b) s g else None.
Proof.
  intros Ha Hb Hk. digit_split Ha; digit_split Hb;
    vm_compute; rewrite ?Hk; try reflexivity; by destruct (k _ _ _ _).
Qed.

Lemma exec_directive_H a b i c s g k :
  is_digit a = true → is_digit b = true →
  (∀ i' c' g', k i' c' (b :: s) g' = None) →
  exec directive_H i c (a :: b :: s) g k
  = if two a b <=? 23 then k (2 + i) (Some b) s g else None.
Proof.
  intros Ha Hb Hk. digit_split Ha; digit_split Hb;
    vm_compute; rewrite ?Hk; try reflexivity; by destruct (k _ _ _ _).
Qed.

Lemma exec_directive_M a b i c s g k :
  is_digit a = true → is_digit b = true →
  (∀ i' c' g', k i' c' (b :: s) g' = None) →
  exec directive_M i c (a :: b :: s) g k
  = if two a b <=? 59 then k (2 + i) (Some b) s g else None.
Proof.
  intros Ha Hb Hk. digit_split Ha; digit_split Hb;
    vm_compute; rewrite ?Hk; try reflexivity; by destruct (k _ _ _ _).
Qed.

End MinuteKey.

Section MinuteKeyShape.

Import MinParser.

Let two (a b : ascii) : nat := 10 * digit_val a + digit_val b.

Lemma digit_val_lt c : is_digit c = true → digit_val c < 10.
Proof. intros H. digit_split H; vm_compute; lia. Qed.

Lemma digit_char_val c n :
  is_digit c = true → n mod 10 = digit_val c → digit_char n = c.
Proof.
  intros H Hn. unfold digit_char. rewrite Hn. by digit_split H.
Qed.

Lemma int_of_two a b :
  is_digit a = true → is_digit b = true → int_of [a; b] = two a b.
Proof. intros Ha Hb. unfold int_of. simpl. rewrite Ha, Hb. unfold two. lia. Qed.

Lemma int_of_four a b c d :
  is_digit a = true → is_digit b = true →
  is_digit c = true → is_digit d = true →
  int_of [a; b; c; d]
  = 1000 * digit_val a + 100 * digit_val b + 10 * digit_val c + digit_val d.
Proof.
  intros Ha Hb Hc Hd. unfold int_of. simpl. rewrite Ha, Hb, Hc, Hd. lia.
Qed.

Lemma pad2_two a b :
  is_digit a = true → is_digit b = true → pad2 (two a b) = [a; b].
Proof.
  intros Ha Hb. unfold pad2, two.
  pose proof (digit_val_lt a Ha). pose proof (digit_val_lt b Hb).
  f_equal; [|f_equal]; apply digit_char_val; try done.
  - rewrite <- (Nat.div_unique _ 10 (digit_val a) (digit_val b)) by lia.
    by apply Nat.mod_small.
  - symmetry. apply (Nat.mod_unique _ 10 (digit_val a)); lia.
Qed.

(** [str(n)] and [int(s)] on decimal digits. *)
Lemma of_uint_acc_digits ds : ∀ acc,
  Forall (λ c, is_digit c = true) ds →
  Nat.of_uint_acc (uint_of ds) acc
  = foldl (λ acc c, if is_digit c then 10 * acc + digit_val c else acc) acc ds.
Proof.
  induction ds as [|c ds IH]; intros acc Hds; [done|].
  apply Forall_cons in Hds as [Hc Hds]. simpl. rewrite Hc.
  rewrite <- (IH _ Hds).
  digit_split Hc; simpl; rewrite Nat.tail_mul_spec; f_equal;
    vm_compute (digit_val _); lia.
Qed.

Lemma string_of_uint_digits ds :
  Forall (λ c, is_digit c = true) ds →
  list_ascii_of_string (NilEmpty.string_of_uint (uint_of ds)) = ds.
Proof.
  induction 1 as [|c ds Hc Hds IH]; [reflexivity|].
  digit_split Hc; cbn [uint_of]; vm_compute (digit_val _); cbn; by rewrite IH.
Qed.

Lemma uint_of_nzhead ds :
  Forall (λ c, is_digit c = true) ds →
  Decimal.nzhead (uint_of ds) = uint_of (drop_while (λ c, eqc c "0"%char) ds).
Proof.
  induction 1 as [|c ds Hc Hds IH]; [done|].
  simpl. digit_split Hc; simpl; done.
Qed.

(** [str(int(ds))] drops the zeros in front of the digits [ds]. *)
Lemma show_nat_int_of ds :
  Forall (λ c, is_digit c = true) ds →
  drop_while (λ c, eqc c "0"%char) ds ≠ [] →
  show_nat (int_of ds) = drop_while (λ c, eqc c "0"%char) ds.
Proof.
  intros Hds Hnz. unfold show_nat, int_of.
  rewrite <- (of_uint_acc_digits ds 0 Hds).
  change (Nat.of_uint_acc (uint_of ds) 0) with (Nat.of_uint (uint_of ds)).
  rewrite DecimalNat.Unsigned.to_of. unfold Decimal.unorm.
  rewrite uint_of_nzhead by done.
  assert (Hrest : Forall (λ c, is_digit c = true)
                    (drop_while (λ c, eqc c "0"%char) ds)).
  { clear Hnz. induction Hds as [|c ds Hc Hds IH]; [constructor|].
    simpl. destruct (eqc c "0"%char); [done | by constructor]. }
  destruct (drop_while _ ds) as [|c rest] eqn:E; [done|].
  rewrite <- (string_of_uint_digits (c :: rest) Hrest) at 2.
  apply Forall_cons in Hrest as [Hc _].
  assert (Hc0 : eqc c "0"%char = false).
  { clear -E. induction ds as [|a ds IH]; [done|]. simpl in E.
    destruct (eqc a "0"%char) eqn:Ea; [by apply IH|]. by simplify_eq. }
  unfold L. digit_split Hc; try done.
Qed.

(** The digits of a number. *)
Lemma show_nat_digits n : Forall (λ c, is_digit c = true) (show_nat n).
Proof.
  unfold show_nat, L. destruct (Nat.to_uint n) as [|d|d|d|d|d|d|d|d|d|d];
    [by repeat constructor|..]; cbn; (constructor; [done|]);
    induction d; cbn; by repeat constructor.
Qed.

(** The last directive, at the end of the text: the match stops after
    two digits up to 61 and after one digit otherwise. *)
Lemma exec_directive_S_last a b i c g :
  is_digit a = true → is_digit b = true →
  exec (Grp 6 directive_S) i c [a; b] g
       (λ i' _ _ g', Some ((0, (0, i')) :: g'))
  = Some (if two a b <=? 61
          then (0, (0, 2 + i)) :: (6, (i, 2 + i)) :: g
          else (0, (0, 1 + i)) :: (6, (i, 1 + i)) :: g).
Proof. intros Ha Hb. digit_split Ha; digit_split Hb; reflexivity. Qed.

Ltac fails_on_digit H :=
  intros; rewrite exec_cat;
  first [ apply exec_one_miss; apply (digit_neq _ _ H); reflexivity
        | simpl; by rewrite (digit_not_space _ H) ].

(** What the compiled pattern matches on a text of the fixed width. *)
Lemma re_match_strptime y1 y2 y3 y4 m1 m2 d1 d2 H1 H2 M1 M2 S1 S2 :
  is_digit y1 = true → is_digit y2 = true →
  is_digit y3 = true → is_digit y4 = true →
  is_digit m1 = true → is_digit m2 = true →
  is_digit d1 = true → is_digit d2 = true →
  is_digit H1 = true → is_digit H2 = true →
  is_digit M1 = true → is_digit M2 = true →
  is_digit S1 = true → is_digit S2 = true →
  re_match strptime_pattern
    [y1; y2; y3; y4; "-"; m1; m2; "-"; d1; d2; " "; H1; H2; ":"; M1; M2; ":";
     S1; S2]%char
  = if (1 <=? two m1 m2) && (two m1 m2 <=? 12)
    then if (1 <=? two d1 d2) && (two d1 d2 <=? 31)
    then if two H1 H2 <=? 23
    then if two M1 M2 <=? 59
    then Some ((if two S1 S2 <=? 61
                then [(0, (0, 19)); (6, (17, 19))]
                else [(0, (0, 18)); (6, (17, 18))])
               ++ [(5, (14, 16)); (4, (11, 13)); (3, (8, 10)); (2, (5, 7));
                   (1, (0, 4))])
    else None else None else None else None.
Proof.
  intros Hy1 Hy2 Hy3 Hy4 Hm1 Hm2 Hd1 Hd2 HH1 HH2 HM1 HM2 HS1 HS2.
  unfold re_match, strptime_pattern. cbv [Seq].
  rewrite exec_grp, exec_cat, exec_grp, exec_directive_Y by done.
  rewrite exec_cat, exec_one_hit.
  rewrite exec_cat, exec_grp, exec_directive_m; [|done|done|fails_on_digit Hm2].
  destruct (_ && _); [|done].
  rewrite exec_cat, exec_one_hit.
  rewrite exec_cat, exec_grp, exec_directive_d; [|done|done|fails_on_digit Hd2].
  destruct (_ && _); [|done].
  rewrite exec_cat, exec_spaces_one by (by apply digit_not_space).
  rewrite exec_cat, exec_grp, exec_directive_H; [|done|done|fails_on_digit HH2].
  destruct (_ <=? 23); [|done].
  rewrite exec_cat, exec_one_hit.
  rewrite exec_cat, exec_grp, exec_directive_M; [|done|done|fails_on_digit HM2].
  destruct (_ <=? 59); [|done].
  rewrite exec_cat, exec_one_hit.
  rewrite exec_directive_S_last by done.
  by destruct (_ <=? 61).
Qed.

End MinuteKeyShape.

Section MinuteLabels.

Import MinParser.

Lemma forallb_Forall_true {A} (f : A → bool) (l : list A) :
  forallb f l = true → Forall (λ x, f x = true) l.
Proof.
  induction l as [|x l IH]; simpl; [constructor|].
  intros [? ?]%andb_prop. constructor; auto.
Qed.

Lemma fixed_width_inv ts :
  fixed_width ts = true →
  ∃ y1 y2 y3 y4 m1 m2 d1 d2 H1 H2 M1 M2 S1 S2 rest,
    ts = [y1; y2; y3; y4; "-"; m1; m2; "-"; d1; d2; " "; H1; H2; ":"; M1; M2;
          ":"; S1; S2]%char ++ rest
    ∧ Forall (λ c, is_digit c = true)
        [y1; y2; y3; y4; m1; m2; d1; d2; H1; H2; M1; M2; S1; S2].
Proof.
  intros H.
  do 19 (destruct ts as [|? ts]; [discriminate H|]).
  unfold fixed_width in H.
  do 5 (apply andb_prop in H as [H ?]).
  repeat match goal with E : eqc _ _ = true |- _ => apply eqc_eq in E; subst end.
  do 14 eexists. exists ts. split; [reflexivity|].
  by apply forallb_Forall_true.
Qed.

(** On a timestamp of the fixed width the key, when there is one, is the
    first sixteen characters without the zeros in front of the year. *)
Lemma minute_key_fixed_width ts label :
  fixed_width ts = true → minute_key ts = Some label →
  label = drop_while (λ c, eqc c "0"%char) (take 4 ts) ++ take 12 (drop 4 ts).
Proof.
  intros Hfw Hkey.
  destruct (fixed_width_inv ts Hfw)
    as (y1 & y2 & y3 & y4 & m1 & m2 & d1 & d2 & H1 & H2 & M1 & M2 & S1 & S2
        & rest & -> & Hd).
  repeat match goal with
         | H : Forall _ (_ :: _) |- _ => apply Forall_cons in H as [? H]
         end.
  assert (Hyear : Forall (λ c, is_digit c = true) [y1; y2; y3; y4])
    by (by repeat constructor).
  unfold minute_key in Hkey. simpl take in Hkey. unfold strptime in Hkey.
  rewrite re_match_strptime in Hkey by assumption.
  repeat match type of Hkey with
         | context [if ?b then _ else None] => destruct b; [|discriminate Hkey]
         end.
  destruct (_ <=? 61); simpl in Hkey; [|discriminate Hkey].
  destruct (valid _) eqn:Hvalid; [|discriminate Hkey].
  injection Hkey as <-. unfold strftime_minute, replace_second.
  cbn [year month day hour minute].
  rewrite !int_of_two, !pad2_two by assumption.
  simpl take. simpl drop.
  rewrite show_nat_int_of; [reflexivity|done|].
  intros Hzero. unfold valid in Hvalid. cbn [year] in Hvalid.
  assert (Hy : int_of [y1; y2; y3; y4] = 0).
  { simpl in Hzero.
    destruct (eqc y1 "0"%char) eqn:E1; [|done].
    destruct (eqc y2 "0"%char) eqn:E2; [|done].
    destruct (eqc y3 "0"%char) eqn:E3; [|done].
    destruct (eqc y4 "0"%char) eqn:E4; [|done].
    apply eqc_eq in E1, E2, E3, E4. by subst. }
  rewrite Hy in Hvalid. done.
Qed.

(** A year from 1000 on is written without a zero in front. *)
Lemma year_without_zero y1 y2 y3 y4 :
  Forall (λ c, is_digit c = true) [y1; y2; y3; y4] →
  1000 ≤ int_of [y1; y2; y3; y4] → eqc y1 "0"%char = false.
Proof.
  intros Hd Hy.
  repeat match goal with
         | H : Forall _ (_ :: _) |- _ => apply Forall_cons in H as [? H]
         end.
  rewrite int_of_four in Hy by done.
  destruct (eqc y1 "0"%char) eqn:E; [|done]. apply eqc_eq in E. subst y1.
  change (digit_val "0") with 0 in Hy.
  pose proof (digit_val_lt y2 ltac:(done)).
  pose proof (digit_val_lt y3 ltac:(done)).
  pose proof (digit_val_lt y4 ltac:(done)). lia.
Qed.

Lemma str_leb_take n : ∀ a b,
  str_leb a b = true → str_leb (take n a) (take n b) = true.
Proof.
  induction n as [|n IH]; intros [|x a] [|y b]; simpl; try done.
  destruct (code x <? code y)%N; [done|].
  destruct (code y <? code x)%N; [done|]. apply IH.
Qed.

End MinuteLabels.

(** C8, for the years from 1000 on.  Two timestamps of the fixed width
    [dddd-dd-dd dd:dd:dd], in the order of Python strings, whose minute
    keys both exist, have their keys in the same order when the year of
    the first is 1000 or later; each key is then the first sixteen
    characters of its timestamp. *)
Theorem minute_labels_are_monotone (t1 t2 l1 l2 : str) :
  MinParser.fixed_width t1 = true →
  MinParser.fixed_width t2 = true →
  str_le t1 t2 →
  1000 ≤ MinParser.int_of (take 4 t1) →
  MinParser.minute_key t1 = Some l1 →
  MinParser.minute_key t2 = Some l2 →
  l1 = take 16 t1 ∧ l2 = take 16 t2 ∧ str_le l1 l2.
Proof.
  intros Hw1 Hw2 Hle Hyear H1 H2.
  pose proof (minute_key_fixed_width t1 l1 Hw1 H1) as Hl1.
  pose proof (minute_key_fixed_width t2 l2 Hw2 H2) as Hl2.
  destruct (fixed_width_inv t1 Hw1)
    as (y1 & y2 & y3 & y4 & a1 & a2 & a3 & a4 & a5 & a6 & a7 & a8 & a9 & a10
        & rest1 & -> & Hd1).
  destruct (fixed_width_inv t2 Hw2)
    as (z1 & z2 & z3 & z4 & b1 & b2 & b3 & b4 & b5 & b6 & b7 & b8 & b9 & b10
        & rest2 & -> & Hd2).
  simpl take in Hyear.
  assert (Hy1 : eqc y1 "0"%char = false).
  { apply (year_without_zero y1 y2 y3 y4); [|done].
    by repeat (apply Forall_cons in Hd1 as [? Hd1]; constructor; [done|]). }
  assert (Hz1 : eqc z1 "0"%char = false).
  { apply Forall_cons in Hd1 as [Hy _]. apply Forall_cons in Hd2 as [Hz _].
    unfold str_le in Hle. simpl in Hle.
    destruct (code y1 <? code z1)%N eqn:E1.
    - apply N.ltb_lt in E1. unfold eqc in *. apply N.eqb_neq in Hy1.
      apply N.eqb_neq. unfold is_digit in Hy.
      apply andb_prop in Hy as [Hy _]. apply N.leb_le in Hy.
      change (code "0") with 48%N in *. lia.
    - destruct (code z1 <? code y1)%N eqn:E2; [done|].
      apply N.ltb_ge in E1, E2.
      assert (code y1 = code z1) as Heq by lia.
      unfold eqc in *. by rewrite <- Heq. }
  simpl in Hl1, Hl2. rewrite Hy1 in Hl1. rewrite Hz1 in Hl2.
  split_and!; [done|done|].
  rewrite Hl1, Hl2.
  change (str_le (take 16 ([y1; y2; y3; y4; "-"; a1; a2; "-"; a3; a4; " "; a5; a6;
                            ":"; a7; a8; ":"; a9; a10]%char ++ rest1))
                 (take 16 ([z1; z2; z3; z4; "-"; b1; b2; "-"; b3; b4; " ";
                            b5; b6; ":"; b7; b8; ":"; b9; b10]%char
                           ++ rest2))).
  by apply str_leb_take.
Qed.

Lemma minute_labels_are_monotone_witness :
  str_le (L "2024-01-01 10:00") (L "2024-01-01 10:01").
Proof.
  apply (minute_labels_are_monotone
           (L "2024-01-01 10:00:59.999 UTC") (L "2024-01-01 10:01:00 UTC"));
    try reflexivity.
  vm_compute. lia.
Defined.

(** C8, as stated, fails before the year 1000: the key of such a
    timestamp has no zero in front of the year, so the key of the last
    minute of the year 999 comes after the key of the first minute of
    the year 1000. *)
Lemma minute_labels_of_early_years_are_not_monotone :
  MinParser.fixed_width (L "0999-12-31 23:59:00") = true
  ∧ MinParser.fixed_width (L "1000-01-01 00:00:00") = true
  ∧ str_le (L "0999-12-31 23:59:00") (L "1000-01-01 00:00:00")
  ∧ MinParser.minute_key (L "0999-12-31 23:59:00") = Some (L "999-12-31 23:59")
  ∧ MinParser.minute_key (L "1000-01-01 00:00:00") = Some (L "1000-01-01 00:00")
  ∧ ¬ str_le (L "999-12-31 23:59") (L "1000-01-01 00:00").
Proof. split_and!; try (vm_compute; reflexivity). vm_compute. discriminate. Qed.

(** ** The matcher: where a match stops, and what it does not depend on *)

Section MatcherFacts.

Lemma orelse_Some {A} (x y : option A) a :
  orelse x y = Some a → x = Some a ∨ (x = None ∧ y = Some a).
Proof. destruct x; simpl; auto. Qed.

Lemma rep_loop_inv {R} greedy r1 :
  stops_inside (R:=R) r1 (exec r1) →
  ∀ fuel, stops_inside (R:=R) r1 (rep_loop greedy (exec r1) fuel).
Proof.
  intros Hbody fuel. induction fuel as [|fuel IH]; intros i c s g k x Hx.
  - exists 0, c, []. rewrite Nat.add_0_r. simpl. split_and!; [done|lia|done].
  - simpl in Hx.
    assert (Hcases :
      k i c s g = Some x
      ∨ exec r1 i c s g (λ i' c' s' g',
          if length s' <? length s
          then rep_loop greedy (exec r1) fuel i' c' s' g' k else None) = Some x).
    { destruct greedy; apply orelse_Some in Hx; tauto. }
    destruct Hcases as [Hk|Hmore].
    + exists 0, c, []. rewrite Nat.add_0_r. simpl. split_and!; [done|lia|done].
    + apply Hbody in Hmore as (m1 & c1 & g1 & Hmore & Hm1 & Hg1).
      destruct (length (drop m1 s) <? length s); [|done].
      apply IH in Hmore as (m2 & c2 & g2 & Hk & Hm2 & Hg2).
      exists (m1 + m2), c2, (g2 ++ g1).
      rewrite Nat.add_assoc, <- drop_drop, <- app_assoc. split_and!; [done| |].
      * rewrite length_drop in Hm2. lia.
      * by apply Forall_app.
Qed.

Lemma exec_inv {R} r : stops_inside (R:=R) r (exec r).
Proof.
  induction r as [p| |r1 IH1 r2 IH2|r1 IH1 r2 IH2|greedy r1 IH1| | | |n r1 IH1];
    intros i c s g k x Hx; simpl in Hx.
  - destruct s as [|a s]; [done|]. destruct (p a); [|done].
    exists 1, (Some a), []. rewrite Nat.add_1_r. simpl.
    split_and!; [done|lia|done].
  - exists 0, c, []. rewrite Nat.add_0_r. split_and!; [done|lia|done].
  - apply IH1 in Hx as (m1 & c1 & g1 & Hx & Hm1 & Hg1).
    apply IH2 in Hx as (m2 & c2 & g2 & Hx & Hm2 & Hg2).
    exists (m1 + m2), c2, (g2 ++ g1).
    rewrite Nat.add_assoc, <- drop_drop, <- app_assoc. split_and!; [done| |].
    + rewrite length_drop in Hm2. lia.
    + apply Forall_app. split; eapply Forall_impl; eauto; simpl;
        intros ? ?; apply elem_of_app; auto.
  - apply orelse_Some in Hx as [Hx|[_ Hx]].
    + apply IH1 in Hx as (m & c' & g' & Hx & Hm & Hg).
      exists m, c', g'. split_and!; [done..|].
      eapply Forall_impl; eauto; simpl; intros ? ?; apply elem_of_app; auto.
    + apply IH2 in Hx as (m & c' & g' & Hx & Hm & Hg).
      exists m, c', g'. split_and!; [done..|].
      eapply Forall_impl; eauto; simpl; intros ? ?; apply elem_of_app; auto.
  - by apply (rep_loop_inv greedy r1 IH1) in Hx.
  - destruct i; [|done].
    exists 0, c, []. split_and!; [done|lia|done].
  - exists 0, c, []. rewrite Nat.add_0_r. simpl.
    destruct s as [|a [|b s]]; [| |done]; [split_and!; [done|lia|done]|].
    destruct (eqc a _); [|done]. split_and!; [done|simpl; lia|done].
  - destruct (xorb _ _); [|done].
    exists 0, c, []. rewrite Nat.add_0_r. split_and!; [done|lia|done].
  - apply IH1 in Hx as (m & c' & g' & Hx & Hm & Hg).
    exists m, c', ((n, (i, i + m)) :: g'). split_and!; [done..|].
    constructor; [by left|].
    eapply Forall_impl; eauto; simpl; intros ? ?; by right.
Qed.

Lemma attempt_inv r must_advance i c s i' c' s' g' :
  attempt r must_advance i c s = Some (i', c', s', g') →
  ∃ m, i' = i + m ∧ s' = drop m s ∧ m ≤ length s
       ∧ (must_advance = true → 0 < m)
       ∧ Forall (λ e : nat * (nat * nat), e.1 ∈ groups_of r) g'.
Proof.
  unfold attempt. intros H.
  apply exec_inv in H as (m & c1 & g1 & H & Hm & Hg).
  rewrite app_nil_r in H.
  destruct (must_advance && (i + m =? i)) eqn:E; [done|].
  injection H as <- <- <- <-. exists m. split_and!; try done.
  intros ->. simpl in E. apply Nat.eqb_neq in E. lia.
Qed.

(** With fuel above the length of the text, [sub_loop] does not depend
    on the fuel. *)
Lemma sub_loop_fuel r repl fuel : ∀ fuel' i c s,
  length s < fuel → length s < fuel' →
  sub_loop r repl fuel i c s = sub_loop r repl fuel' i c s.
Proof.
  induction fuel as [|fuel IH]; intros [|fuel'] i c s Hf Hf'; try lia.
  simpl.
  assert (Hskip :
    match s with [] => [] | a :: s' => a :: sub_loop r repl fuel (S i) (Some a) s' end
    = match s with [] => [] | a :: s' => a :: sub_loop r repl fuel' (S i) (Some a) s' end).
  { destruct s as [|a s]; [done|]. f_equal. apply IH; simpl in *; lia. }
  assert (Hstep : ∀ ma i' c' s' g',
    attempt r ma i c s = Some (i', c', s', g') → (ma = true ∨ i < i') →
    sub_loop r repl fuel i' c' s' = sub_loop r repl fuel' i' c' s').
  { intros ma i' c' s' g' Ha Hadv.
    apply attempt_inv in Ha as (m & -> & -> & Hm & Hma & _).
    assert (0 < m) by (destruct Hadv as [->|?]; [by apply Hma | lia]).
    apply IH; rewrite length_drop; lia. }
  destruct (attempt r false i c s) as [[[[i' c'] s'] g']|] eqn:Ha; [|done].
  destruct (i <? i') eqn:Hi.
  - f_equal. apply Nat.ltb_lt in Hi. eapply Hstep; eauto.
  - f_equal.
    destruct (attempt r true i c s) as [[[[i2 c2] s2] g2]|] eqn:Ha2; [|done].
    f_equal. eapply Hstep; eauto.
Qed.

Lemma opt_rel_orelse {A B} (Q : A → B → Prop) x1 y1 x2 y2 :
  opt_rel Q x1 x2 → opt_rel Q y1 y2 → opt_rel Q (orelse x1 y1) (orelse x2 y2).
Proof. by destruct x1, x2. Qed.

(** A pattern without [^] matches the same way wherever the text
    stands in the subject, and a pattern without [\b] whatever the
    character before the text. *)
Lemma rep_loop_related {A B} (Q : A → B → Prop) d free greedy r1 :
  related_runs Q d free (exec r1) (exec r1) →
  ∀ fuel, related_runs Q d free (rep_loop greedy (exec r1) fuel)
                                (rep_loop greedy (exec r1) fuel).
Proof.
  intros Hbody fuel.
  induction fuel as [|fuel IH]; intros i c1 c2 s g1 g2 k1 k2 Hc Hk; simpl.
  - by apply Hk.
  - assert (Hmore : opt_rel Q
      (exec r1 (d + i) c1 s g1 (λ i' c' s' g',
         if length s' <? length s
         then rep_loop greedy (exec r1) fuel i' c' s' g' k1 else None))
      (exec r1 i c2 s g2 (λ i' c' s' g',
         if length s' <? length s
         then rep_loop greedy (exec r1) fuel i' c' s' g' k2 else None))).
    { apply Hbody; [done|]. intros i' ca cb s' ga gb Hcab.
      destruct (length s' <? length s); [by apply IH | done]. }
    destruct greedy; apply opt_rel_orelse; auto.
Qed.

Lemma exec_related {A B} (Q : A → B → Prop) d free r :
  no_bol r = true → (free = true → no_wordb r = true) →
  related_runs Q d free (exec r) (exec r).
Proof.
  induction r as [p| |r1 IH1 r2 IH2|r1 IH1 r2 IH2|greedy r1 IH1| | | |n r1 IH1];
    simpl; intros Hr Hw i c1 c2 s g1 g2 k1 k2 Hc Hk; cbn [exec].
  - destruct s as [|a s]; [done|]. destruct (p a); [|done].
    rewrite <- Nat.add_succ_r. by apply Hk.
  - by apply Hk.
  - apply andb_prop in Hr as [Hr1 Hr2].
    apply IH1; [done|by intros [? ?]%Hw%andb_prop|done|].
    intros i' ca cb s' ga gb Hcab.
    apply IH2; [done|by intros [? ?]%Hw%andb_prop|done|done].
  - apply andb_prop in Hr as [Hr1 Hr2].
    apply opt_rel_orelse;
      [apply IH1|apply IH2]; try done; by intros [? ?]%Hw%andb_prop.
  - exact (rep_loop_related Q d free greedy r1 (IH1 Hr Hw) (length s)
             i c1 c2 s g1 g2 k1 k2 Hc Hk).
  - done.
  - destruct s as [|a [|b s]]; [by apply Hk| |done].
    destruct (eqc a _); [by apply Hk | done].
  - destruct free; [by specialize (Hw eq_refl)|].
    rewrite (Hc eq_refl). destruct (xorb _ _); [by apply Hk | done].
  - apply IH1; [done..|]. intros i' ca cb s' ga gb Hcab. by apply Hk.
Qed.

Lemma sub_loop_related r repl d free :
  no_bol r = true → (free = true → no_wordb r = true) →
  ∀ fuel i c1 c2 s,
    (free = false → c1 = c2) →
    sub_loop r repl fuel (d + i) c1 s = sub_loop r repl fuel i c2 s.
Proof.
  intros Hr Hw fuel. induction fuel as [|fuel IH]; intros i c1 c2 s Hc; [done|].
  simpl.
  assert (Hskip :
    match s with [] => [] | a :: s' => a :: sub_loop r repl fuel (S (d + i)) (Some a) s' end
    = match s with [] => [] | a :: s' => a :: sub_loop r repl fuel (S i) (Some a) s' end).
  { destruct s as [|a s]; [done|]. by rewrite <- Nat.add_succ_r, (IH _ _ (Some a)). }
  assert (Hatt : ∀ ma, opt_rel
    (λ x y : nat * option ascii * str * caps,
       x.1.1.1 = d + y.1.1.1 ∧ (free = false → x.1.1.2 = y.1.1.2)
       ∧ x.1.2 = y.1.2)
    (attempt r ma (d + i) c1 s) (attempt r ma i c2 s)).
  { intros ma. unfold attempt.
    refine (exec_related _ d free r Hr Hw i c1 c2 s [] [] _ _ Hc _).
    intros i' ca cb s' ga gb Hcab.
    replace (d + i' =? d + i) with (i' =? i)
      by (destruct (Nat.eqb_spec i' i), (Nat.eqb_spec (d + i') (d + i)); lia).
    by destruct (ma && (i' =? i)). }
  pose proof (Hatt false) as H1. pose proof (Hatt true) as H2.
  rewrite Hskip. clear Hskip.
  destruct (attempt r false (d + i) c1 s) as [[[[i1 ca1] s1] g1]|],
           (attempt r false i c2 s) as [[[[i1' cb1] s1'] g1']|];
    simpl in H1; try done.
  destruct H1 as (-> & Hc1 & ->).
  replace (d + i <? d + i1') with (i <? i1')
    by (destruct (Nat.ltb_spec i i1'), (Nat.ltb_spec (d + i) (d + i1')); lia).
  destruct (i <? i1'); [by rewrite (IH _ _ cb1)|].
  destruct (attempt r true (d + i) c1 s) as [[[[i2 ca2] s2] g2]|],
           (attempt r true i c2 s) as [[[[i2' cb2] s2'] g2']|];
    simpl in H2; try done.
  destruct H2 as (-> & Hc2 & ->). by rewrite (IH _ _ cb2).
Qed.

(** The substitution on the text that follows a match or a copied
    character, as a substitution of its own after the same character. *)
Lemma sub_loop_rest r repl fuel i c s :
  no_bol r = true → length s < fuel →
  sub_loop r repl fuel i c s = sub_loop r repl (S (length s)) 0 c s.
Proof.
  intros Hr Hf. rewrite (sub_loop_fuel r repl fuel (S (length s))) by lia.
  rewrite <- (Nat.add_0_r i). by apply (sub_loop_related r repl i false).
Qed.

Lemma sub_loop_free r repl fuel i c s :
  no_bol r = true → no_wordb r = true → length s < fuel →
  sub_loop r repl fuel i c s = re_sub r repl s.
Proof.
  intros Hr Hw Hf. unfold re_sub.
  rewrite (sub_loop_fuel r repl fuel (S (length s))) by lia.
  rewrite <- (Nat.add_0_r i). by apply (sub_loop_related r repl i true).
Qed.

End MatcherFacts.

(** ** The three substitutions of the normalizer *)

Section MatcherSteps.

Context {R : Type}.
Implicit Types (k : cont R) (r : regex) (s : str) (g : caps).

Lemma exec_alt r1 r2 i c s g k :
  exec (Alt r1 r2) i c s g k = orelse (exec r1 i c s g k) (exec r2 i c s g k).
Proof. done. Qed.

Lemma exec_rep greedy r i c s g k :
  exec (Rep greedy r) i c s g k = rep_loop greedy (exec r) (length s) i c s g k.
Proof. done. Qed.

Lemma rep_loop_greedy body fuel i c s g k :
  rep_loop true body (S fuel) i c s g k
  = orelse
      (body i c s g (λ i' c' s' g',
         if length s' <? length s
         then rep_loop true body fuel i' c' s' g' k else None))
      (k i c s g).
Proof. done. Qed.

Lemma exec_chr_hit p a i c s g k :
  p a = true → exec (Chr p) i c (a :: s) g k = k (S i) (Some a) s g.
Proof. intros H. simpl. by rewrite H. Qed.

Lemma exec_chr_miss p i c s g k :
  (∀ a, head s = Some a → p a = false) → exec (Chr p) i c s g k = None.
Proof.
  intros H. destruct s as [|a s]; [done|]. simpl. by rewrite (H a).
Qed.

Lemma exec_wordb i c s g k :
  exec Wordb i c s g k
  = if xorb (word_before c) (word_after s) then k i c s g else None.
Proof. done. Qed.

End MatcherSteps.

Section SubstitutionSteps.

Variables (r : regex) (repl : str).

Lemma sub_loop_skip fuel i c a s :
  attempt r false i c (a :: s) = None →
  sub_loop r repl (S fuel) i c (a :: s)
  = a :: sub_loop r repl fuel (S i) (Some a) s.
Proof. intros H. simpl. by rewrite H. Qed.

Lemma sub_loop_end fuel i c :
  attempt r false i c [] = None → sub_loop r repl (S fuel) i c [] = [].
Proof. intros H. simpl. by rewrite H. Qed.

Lemma sub_loop_hit fuel i c s i' c' s' g' :
  attempt r false i c s = Some (i', c', s', g') → i < i' →
  sub_loop r repl (S fuel) i c s = repl ++ sub_loop r repl fuel i' c' s'.
Proof.
  intros H Hi. simpl. rewrite H.
  by replace (i <? i') with true by (symmetry; by apply Nat.ltb_lt).
Qed.

End SubstitutionSteps.

Section StringLiterals.

Context {R : Type}.
Implicit Types (k : cont R).

Let alternatives : regex :=
  Alt (Cat (one quote) (one quote)) (other_than quote).

Lemma exec_alternatives_char a i c s g k :
  a ≠ quote → exec alternatives i c (a :: s) g k = k (S i) (Some a) s g.
Proof.
  intros Ha. unfold alternatives.
  rewrite exec_alt, exec_cat, exec_one_miss by done.
  unfold other_than. rewrite exec_chr_hit; [done|].
  by rewrite (proj2 (eqc_neq a quote) Ha).
Qed.

Lemma exec_alternatives_escaped i c s g k :
  exec alternatives i c (quote :: quote :: s) g k
  = k (S (S i)) (Some quote) s g.
Proof.
  unfold alternatives.
  rewrite exec_alt, exec_cat, !exec_one_hit.
  unfold other_than. rewrite exec_chr_miss; [apply orelse_none_r|].
  by intros a [= <-].
Qed.

Lemma exec_alternatives_close i c s g k :
  head s ≠ Some quote → exec alternatives i c (quote :: s) g k = None.
Proof.
  intros Hs. unfold alternatives.
  rewrite exec_alt, exec_cat, exec_one_hit.
  unfold one at 1. rewrite exec_chr_miss.
  - unfold other_than. rewrite exec_chr_miss; [done|]. by intros a [= <-].
  - intros a Ha. apply eqc_neq. intros ->. by apply Hs.
Qed.

(** The greedy loop of the string pattern runs over the body of a
    literal up to its closing quote. *)
Lemma exec_literal_body body :
  literal_body body →
  ∀ post fuel i c g k x,
    head post ≠ Some quote →
    length (body ++ quote :: post) ≤ fuel →
    (∀ c', k (i + length body) c' (quote :: post) g = Some x) →
    rep_loop true (exec alternatives) fuel i c (body ++ quote :: post) g k
    = Some x.
Proof.
  induction 1 as [|a b Ha Hb IH|b Hb IH];
    intros post fuel i c g k x Hpost Hfuel Hk.
  - rewrite Nat.add_0_r in Hk. destruct fuel as [|fuel]; [apply Hk|].
    rewrite rep_loop_greedy. simpl app.
    rewrite exec_alternatives_close by done. apply Hk.
  - destruct fuel as [|fuel]; [simpl in Hfuel; lia|].
    rewrite rep_loop_greedy. simpl app.
    rewrite exec_alternatives_char by done.
    replace (length (b ++ quote :: post) <? length (a :: b ++ quote :: post))
      with true by (symmetry; apply Nat.ltb_lt; simpl; lia).
    rewrite (IH post fuel (S i) (Some a) g k x); [done|done| |].
    + simpl in Hfuel. lia.
    + intros c'.
      replace (S i + length b) with (i + length (a :: b)) by (simpl; lia).
      apply Hk.
  - destruct fuel as [|fuel]; [simpl in Hfuel; lia|].
    rewrite rep_loop_greedy. simpl app.
    rewrite exec_alternatives_escaped.
    replace (length (b ++ quote :: post)
             <? length (quote :: quote :: b ++ quote :: post))
      with true by (symmetry; apply Nat.ltb_lt; simpl; lia).
    rewrite (IH post fuel (S (S i)) (Some quote) g k x); [done|done| |].
    + simpl in Hfuel. lia.
    + intros c'.
      replace (S (S i) + length b) with (i + length (quote :: quote :: b))
        by (simpl; lia).
      apply Hk.
Qed.

End StringLiterals.

Section StringSubstitution.

Variable repl : str.

(** At the opening quote of a literal the string pattern matches the
    literal, and no more. *)
Lemma attempt_string_literal body post must_advance i c :
  literal_body body → head post ≠ Some quote →
  attempt string_pattern must_advance i c (quote :: body ++ quote :: post)
  = Some (i + (2 + length body), Some quote, post, []).
Proof.
  intros Hb Hpost. unfold attempt, string_pattern. cbv [Seq].
  rewrite exec_cat, exec_one_hit, exec_cat, exec_rep.
  apply exec_literal_body; [done|done|done|].
  intros c'. rewrite exec_one_hit.
  replace (S (S i + length body)) with (i + (2 + length body)) by lia.
  replace (i + (2 + length body) =? i) with false
    by (symmetry; apply Nat.eqb_neq; lia).
  by rewrite andb_false_r.
Qed.

Lemma attempt_string_other must_advance i c s :
  head s ≠ Some quote → attempt string_pattern must_advance i c s = None.
Proof.
  intros Hs. unfold attempt, string_pattern. cbv [Seq].
  rewrite exec_cat. unfold one at 1. apply exec_chr_miss.
  intros a Ha. apply eqc_neq. intros ->. by apply Hs.
Qed.

Lemma string_pattern_free :
  no_bol string_pattern = true ∧ no_wordb string_pattern = true.
Proof. done. Qed.

Lemma re_sub_string_cons a s :
  a ≠ quote →
  re_sub string_pattern repl (a :: s) = a :: re_sub string_pattern repl s.
Proof.
  intros Ha. unfold re_sub at 1.
  rewrite sub_loop_skip by (apply attempt_string_other; by intros [= ->]).
  f_equal. apply sub_loop_free; [done|done|simpl; lia].
Qed.

Lemma re_sub_string_prefix pre s :
  no_quote pre →
  re_sub string_pattern repl (pre ++ s) = pre ++ re_sub string_pattern repl s.
Proof.
  induction 1 as [|a pre Ha Hpre IH]; [done|].
  simpl. by rewrite re_sub_string_cons, IH.
Qed.

Lemma re_sub_string_literal body post :
  literal_body body → head post ≠ Some quote →
  re_sub string_pattern repl (quote :: body ++ quote :: post)
  = repl ++ re_sub string_pattern repl post.
Proof.
  intros Hb Hpost. unfold re_sub at 1.
  rewrite (sub_loop_hit _ _ _ _ _ _ _ _ _ _
             (attempt_string_literal body post false 0 None Hb Hpost)) by lia.
  f_equal. apply sub_loop_free; [done|done|].
  simpl. rewrite length_app. simpl. lia.
Qed.

End StringSubstitution.

Section DigitRuns.

Context {R : Type}.
Implicit Types (k : cont R).

Lemma last_seen_cons c a s : last_seen c (a :: s) = last_seen (Some a) s.
Proof.
  unfold last_seen. destruct s as [|b s]; [done|].
  change (last (a :: b :: s)) with (last (b :: s)).
  destruct (last (b :: s)) eqn:E; [done|]. by apply last_None in E.
Qed.

Lemma last_seen_app c s1 s2 :
  last_seen c (s1 ++ s2) = last_seen (last_seen c s1) s2.
Proof.
  revert c; induction s1 as [|a s1 IH]; intros c; [done|].
  simpl. by rewrite !last_seen_cons, IH.
Qed.

Lemma last_seen_digits c ds :
  ds ≠ [] → digits ds → word_before (last_seen c ds) = true.
Proof.
  intros Hne Hds. revert c. induction Hds as [|d ds Hd Hds IH]; [done|].
  intros c. rewrite last_seen_cons. destruct ds as [|d' ds].
  - simpl. unfold is_word. by rewrite Hd.
  - by apply IH.
Qed.

(** The greedy loop of [\d+] takes every digit of a run. *)
Lemma rep_digits ds :
  digits ds →
  ∀ post fuel i c g k x,
    starts_plain post →
    length (ds ++ post) ≤ fuel →
    k (i + length ds) (last_seen c ds) post g = Some x →
    rep_loop true (exec Digit) fuel i c (ds ++ post) g k = Some x.
Proof.
  induction 1 as [|d ds Hd Hds IH]; intros post fuel i c g k x Hpost Hfuel Hk.
  - rewrite Nat.add_0_r in Hk. destruct fuel as [|fuel]; [apply Hk|].
    rewrite rep_loop_greedy. simpl app. unfold Digit.
    rewrite exec_chr_miss by done. apply Hk.
  - destruct fuel as [|fuel]; [simpl in Hfuel; lia|].
    rewrite rep_loop_greedy. simpl app. unfold Digit at 1.
    rewrite exec_chr_hit by done.
    replace (length (ds ++ post) <? length (d :: ds ++ post))
      with true by (symmetry; apply Nat.ltb_lt; simpl; lia).
    rewrite (IH post fuel (S i) (Some d) g k x); [done|done| |].
    + simpl in Hfuel. lia.
    + rewrite <- (last_seen_cons c).
      replace (S i + length ds) with (i + length (d :: ds)) by (simpl; lia).
      apply Hk.
Qed.

Lemma exec_plus_digits ds post i c g k x :
  ds ≠ [] → digits ds → starts_plain post →
  k (i + length ds) (last_seen c ds) post g = Some x →
  exec (Plus true Digit) i c (ds ++ post) g k = Some x.
Proof.
  intros Hne Hds Hpost Hk. destruct Hds as [|d ds Hd Hds]; [done|].
  unfold Plus. rewrite exec_cat. simpl app. unfold Digit at 1.
  rewrite exec_chr_hit by done. rewrite exec_rep.
  apply rep_digits; [done|done|done|].
  rewrite <- (last_seen_cons c).
  replace (S i + length ds) with (i + length (d :: ds)) by (simpl; lia).
  apply Hk.
Qed.

Lemma exec_plus_digits_miss s i c g k :
  starts_plain s → exec (Plus true Digit) i c s g k = None.
Proof.
  intros Hs. unfold Plus. rewrite exec_cat. unfold Digit at 1.
  by apply exec_chr_miss.
Qed.

End DigitRuns.

Lemma starts_clear_plain s : starts_clear s → starts_plain s.
Proof.
  intros Hs a Ha. specialize (Hs a Ha). unfold is_word in Hs.
  by destruct (is_digit a).
Qed.

Section NumberTokens.

(** At a run of digits that no word character touches, [\b\d+\b]
    matches the run. *)
Lemma attempt_number ds post must_advance i c :
  ds ≠ [] → digits ds → word_before c = false → starts_clear post →
  attempt number_pattern must_advance i c (ds ++ post)
  = Some (i + length ds, last_seen c ds, post, []).
Proof.
  intros Hne Hds Hc Hpost. unfold attempt, number_pattern. cbv [Seq].
  rewrite exec_cat, exec_wordb, Hc.
  assert (Hw : word_after (ds ++ post) = true).
  { destruct Hds as [|d ds Hd Hds]; [done|]. simpl. unfold is_word. by rewrite Hd. }
  rewrite Hw. simpl xorb. cbv iota. rewrite exec_cat.
  apply exec_plus_digits; [done|done|by apply starts_clear_plain|].
  rewrite exec_wordb, last_seen_digits by done.
  assert (Hp : word_after post = false).
  { destruct post as [|a post]; [done|]. by apply Hpost. }
  rewrite Hp. simpl xorb. cbv iota.
  replace (i + length ds =? i) with false
    by (symmetry; apply Nat.eqb_neq; destruct ds; simpl; [done|lia]).
  by rewrite andb_false_r.
Qed.

Lemma attempt_number_miss must_advance i c s :
  starts_plain s → attempt number_pattern must_advance i c s = None.
Proof.
  intros Hs. unfold attempt, number_pattern. cbv [Seq].
  rewrite exec_cat, exec_wordb. destruct (xorb _ _); [|done].
  rewrite exec_cat. by apply exec_plus_digits_miss.
Qed.

(** At a decimal number that no word character touches,
    [\b\d+\.\d+\b] matches the number. *)
Lemma attempt_float ds1 ds2 post must_advance i c :
  ds1 ≠ [] → digits ds1 → ds2 ≠ [] → digits ds2 →
  word_before c = false → starts_clear post →
  attempt float_pattern must_advance i c (ds1 ++ "."%char :: ds2 ++ post)
  = Some (i + length (ds1 ++ "."%char :: ds2),
          last_seen c (ds1 ++ "."%char :: ds2), post, []).
Proof.
  intros Hne1 Hds1 Hne2 Hds2 Hc Hpost.
  unfold attempt, float_pattern. cbv [Seq].
  rewrite exec_cat, exec_wordb, Hc.
  assert (Hw : word_after (ds1 ++ "."%char :: ds2 ++ post) = true).
  { destruct Hds1 as [|d ds Hd Hds]; [done|]. simpl. unfold is_word. by rewrite Hd. }
  rewrite Hw. simpl xorb. cbv iota. rewrite exec_cat.
  apply exec_plus_digits; [done|done|by intros a [= <-]|].
  rewrite exec_cat, exec_one_hit, exec_cat.
  apply exec_plus_digits; [done|done|by apply starts_clear_plain|].
  rewrite exec_wordb, last_seen_digits by done.
  assert (Hp : word_after post = false).
  { destruct post as [|a post]; [done|]. by apply Hpost. }
  rewrite Hp. simpl xorb. cbv iota.
  rewrite length_app. simpl length.
  replace (S (i + length ds1) + length ds2)
    with (i + (length ds1 + S (length ds2))) by lia.
  replace (i + (length ds1 + S (length ds2)) =? i) with false
    by (symmetry; apply Nat.eqb_neq; lia).
  rewrite andb_false_r.
  by rewrite last_seen_app, last_seen_cons.
Qed.

Lemma attempt_float_miss must_advance i c s :
  starts_plain s → attempt float_pattern must_advance i c s = None.
Proof.
  intros Hs. unfold attempt, float_pattern. cbv [Seq].
  rewrite exec_cat, exec_wordb. destruct (xorb _ _); [|done].
  rewrite exec_cat. by apply exec_plus_digits_miss.
Qed.

End NumberTokens.

Section DigitLed.

(** A pattern without [^] that starts with [\b] and a digit. *)
Variables (r : regex) (repl : str).
Hypothesis r_no_bol : no_bol r = true.
Hypothesis r_miss : ∀ must_advance i c s,
  starts_plain s → attempt r must_advance i c s = None.
Hypothesis r_wordb : ∀ must_advance i c s,
  word_before c = true → word_after s = true →
  attempt r must_advance i c s = None.

Lemma sub_loop_plain_context fuel i c1 c2 s :
  starts_plain s → sub_loop r repl fuel i c1 s = sub_loop r repl fuel i c2 s.
Proof.
  intros Hs. destruct fuel as [|fuel]; [done|]. destruct s as [|a s].
  - by rewrite !sub_loop_end by (by apply r_miss).
  - by rewrite !sub_loop_skip by (by apply r_miss).
Qed.

Lemma sub_loop_plain_rest fuel i c s :
  starts_plain s → length s < fuel →
  sub_loop r repl fuel i c s = re_sub r repl s.
Proof.
  intros Hs Hf. rewrite sub_loop_rest by done.
  by apply sub_loop_plain_context.
Qed.

(** Where every digit follows a word character the pattern finds
    nothing. *)
Lemma sub_loop_attached pre : ∀ fuel i c s,
  attached (word_before c) pre = true → length (pre ++ s) < fuel →
  sub_loop r repl fuel i c (pre ++ s)
  = pre ++ sub_loop r repl (fuel - length pre) (i + length pre)
             (last_seen c pre) s.
Proof.
  induction pre as [|a pre IH]; intros fuel i c s Hpre Hf.
  - simpl. by rewrite Nat.sub_0_r, Nat.add_0_r.
  - simpl in Hpre. apply andb_prop in Hpre as [Ha Hpre].
    destruct fuel as [|fuel]; [simpl in Hf; lia|].
    simpl app. rewrite sub_loop_skip.
    + rewrite IH; [|done|simpl in Hf; lia].
      rewrite last_seen_cons. simpl length.
      by replace (S i + length pre) with (i + S (length pre)) by lia.
    + destruct (is_digit a) eqn:Hd.
      * apply r_wordb; [done|]. simpl. unfold is_word. by rewrite Hd.
      * apply r_miss. by intros ? [= <-].
Qed.

Lemma attached_no_digit prev pre : no_digit pre → attached prev pre = true.
Proof.
  intros H. revert prev. induction H as [|a pre Ha Hpre IH]; intros prev; [done|].
  simpl. by rewrite Ha, IH.
Qed.

Lemma attached_app_no_digit prev s1 s2 :
  attached prev s1 = true → no_digit s2 → attached prev (s1 ++ s2) = true.
Proof.
  revert prev. induction s1 as [|a s1 IH]; intros prev H1 H2.
  - by apply attached_no_digit.
  - simpl in *. apply andb_prop in H1 as [Ha H1]. by rewrite Ha, IH.
Qed.

Lemma attached_starts_plain s : attached false s = true → starts_plain s.
Proof.
  intros H a Ha. destruct s as [|b s]; [done|]. injection Ha as ->.
  simpl in H. by destruct (is_digit a).
Qed.

(** A digit does not follow a character that is no word character. *)
Lemma attached_second prev a x s :
  attached prev (a :: x :: s) = true → is_word a = false → is_digit x = false.
Proof.
  simpl. intros H Ha. rewrite Ha in H. destruct (is_digit x); [|done].
  simpl in H. by rewrite andb_false_r in H.
Qed.

(** A text in which the pattern finds nothing is kept, and what
    follows is substituted on its own. *)
Lemma re_sub_skip pre rest :
  attached false pre = true → starts_plain rest →
  re_sub r repl (pre ++ rest) = pre ++ re_sub r repl rest.
Proof.
  intros Hpre Hrest. unfold re_sub at 1.
  rewrite sub_loop_attached by (done || lia). f_equal.
  apply sub_loop_plain_rest; [done|]. rewrite length_app. lia.
Qed.

(** A token that the pattern matches, after a text without a run of
    digits that stands alone and before a text that starts with no word
    character, is replaced, and the text after it is substituted on its
    own. *)
Lemma re_sub_token pre token post :
  attached false pre = true → ends_clear pre → token ≠ [] → starts_clear post →
  (∀ i c, word_before c = false →
     ∃ c' g', attempt r false i c (token ++ post)
              = Some (i + length token, c', post, g')) →
  re_sub r repl (pre ++ token ++ post) = pre ++ repl ++ re_sub r repl post.
Proof.
  intros Hpre Hend Hne Hpost Hmatch. unfold re_sub at 1.
  rewrite sub_loop_attached by (done || lia). f_equal.
  assert (Hc : word_before (last_seen None pre) = false).
  { unfold last_seen. destruct (last pre) as [a|] eqn:E; [|done].
    simpl. by apply Hend. }
  destruct (Hmatch (0 + length pre) _ Hc) as (c' & g' & Hm).
  replace (S (length (pre ++ token ++ post)) - length pre)
    with (S (length (token ++ post))) by (rewrite !length_app; lia).
  rewrite (sub_loop_hit _ _ _ _ _ _ _ _ _ _ Hm)
    by (destruct token; simpl; [done|lia]).
  f_equal. apply sub_loop_plain_rest; [by apply starts_clear_plain|].
  rewrite length_app. destruct token; simpl; [done|lia].
Qed.

End DigitLed.

Section NumberPasses.

Lemma attempt_number_wordb must_advance i c s :
  word_before c = true → word_after s = true →
  attempt number_pattern must_advance i c s = None.
Proof.
  intros Hc Hs. unfold attempt, number_pattern. cbv [Seq].
  by rewrite exec_cat, exec_wordb, Hc, Hs.
Qed.

Lemma attempt_float_wordb must_advance i c s :
  word_before c = true → word_after s = true →
  attempt float_pattern must_advance i c s = None.
Proof.
  intros Hc Hs. unfold attempt, float_pattern. cbv [Seq].
  by rewrite exec_cat, exec_wordb, Hc, Hs.
Qed.

(** The greedy loop of [\d+] on a run of digits, when what follows the
    digits fails wherever the loop stops. *)
Lemma rep_digits_none {R} ds :
  digits ds →
  ∀ post fuel i c g (k : cont R),
    starts_plain post →
    (∀ j i' c', j ≤ length ds → k i' c' (drop j ds ++ post) g = None) →
    rep_loop true (exec Digit) fuel i c (ds ++ post) g k = None.
Proof.
  induction 1 as [|d ds Hd Hds IH]; intros post fuel i c g k Hpost Hk.
  - destruct fuel as [|fuel]; [apply (Hk 0); simpl; lia|].
    rewrite rep_loop_greedy. simpl app. unfold Digit.
    rewrite exec_chr_miss by done. apply (Hk 0). simpl. lia.
  - destruct fuel as [|fuel]; [apply (Hk 0); simpl; lia|].
    rewrite rep_loop_greedy. simpl app. unfold Digit at 1.
    rewrite exec_chr_hit by done.
    replace (length (ds ++ post) <? length (d :: ds ++ post))
      with true by (symmetry; apply Nat.ltb_lt; simpl; lia).
    rewrite IH; [apply (Hk 0); simpl; lia|done|].
    intros j i' c' Hj. apply (Hk (S j)). simpl. lia.
Qed.

(** An integer that a dot and a digit do not follow is no decimal
    number: [\b\d+\.\d+\b] fails on it. *)
Lemma attempt_float_digits ds post must_advance i c :
  ds ≠ [] → digits ds → starts_plain post →
  (∀ x rest, post = "."%char :: x :: rest → is_digit x = false) →
  attempt float_pattern must_advance i c (ds ++ post) = None.
Proof.
  intros Hne Hds Hpost Hdot. unfold attempt, float_pattern. cbv [Seq].
  rewrite exec_cat, exec_wordb. destruct (xorb _ _); [|done].
  rewrite exec_cat. unfold Plus at 1. rewrite exec_cat.
  destruct Hds as [|d ds Hd Hds]; [done|].
  simpl app. unfold Digit at 1. rewrite exec_chr_hit by done.
  rewrite exec_rep. apply rep_digits_none; [done|done|].
  intros j i' c' Hj. rewrite exec_cat.
  destruct (decide (j = length ds)) as [->|Hlt].
  - rewrite drop_all. simpl app.
    destruct post as [|a post]; [done|].
    destruct (decide (a = "."%char)) as [->|Ha];
      [|by apply exec_one_miss].
    rewrite exec_one_hit, exec_cat.
    apply exec_plus_digits_miss.
    intros x Hx. destruct post as [|y post]; [done|]. injection Hx as ->.
    by apply (Hdot x post).
  - assert (Hj' : j < length ds) by lia.
    destruct (drop j ds) as [|a rest] eqn:E.
    { apply (f_equal length) in E. rewrite length_drop in E. simpl in E. lia. }
    simpl app. apply exec_one_miss.
    assert (Ha : is_digit a = true).
    { pose proof (Forall_drop _ j _ Hds) as Hdrop. rewrite E in Hdrop.
      by apply Forall_cons in Hdrop as [? _]. }
    by apply (digit_neq _ _ Ha).
Qed.

(** The decimal pattern runs over such an integer. *)
Lemma sub_loop_float_digits repl ds : ∀ post fuel i c,
  digits ds → starts_plain post →
  (∀ x rest, post = "."%char :: x :: rest → is_digit x = false) →
  length (ds ++ post) < fuel →
  sub_loop float_pattern repl fuel i c (ds ++ post)
  = ds ++ sub_loop float_pattern repl (fuel - length ds) (i + length ds)
            (last_seen c ds) post.
Proof.
  induction ds as [|d ds IH]; intros post fuel i c Hds Hpost Hdot Hf.
  - simpl. by rewrite Nat.sub_0_r, Nat.add_0_r.
  - apply Forall_cons in Hds as [Hd Hds].
    destruct fuel as [|fuel]; [simpl in Hf; lia|].
    simpl app. rewrite sub_loop_skip.
    + rewrite IH; [|done|done|done|simpl in Hf; lia].
      rewrite last_seen_cons. simpl length.
      by replace (S i + length ds) with (i + S (length ds)) by lia.
    + apply (attempt_float_digits (d :: ds)); [done|by constructor|done|done].
Qed.

Lemma re_sub_float_digits repl pre ds post :
  attached false pre = true → digits ds → starts_plain post →
  (∀ x rest, post = "."%char :: x :: rest → is_digit x = false) →
  re_sub float_pattern repl (pre ++ ds ++ post)
  = pre ++ ds ++ re_sub float_pattern repl post.
Proof.
  intros Hpre Hds Hpost Hdot. unfold re_sub at 1.
  rewrite (sub_loop_attached float_pattern repl attempt_float_miss
             attempt_float_wordb) by (done || lia).
  f_equal. rewrite sub_loop_float_digits; [|done|done|done|].
  - f_equal. apply (sub_loop_plain_rest float_pattern repl); try done.
    + apply attempt_float_miss.
    + rewrite !length_app. lia.
  - rewrite !length_app. lia.
Qed.

End NumberPasses.

Section Pipeline.

Lemma render_cons stage p t items tail :
  render stage ((p, t) :: items) tail
  = p ++ shown stage t ++ render stage items tail.
Proof. unfold render. rewrite bind_cons. simpl. by rewrite <- !app_assoc. Qed.

Lemma shown_string_cons stage body s :
  ∃ a rest,
    shown stage (Str body) ++ s = a :: rest
    ∧ is_digit a = false ∧ is_word a = false ∧ a ≠ "."%char.
Proof.
  unfold shown. destruct (1 <=? stage).
  - by exists "$"%char, (L "str" ++ s).
  - by exists quote, ((body ++ [quote]) ++ s).
Qed.

(** What stands after a token. *)
Lemma render_head stage t items tail a :
  separated (Some t) items tail →
  head (render stage items tail) = Some a →
  is_digit a = false
  ∧ (is_number t = true → is_word a = false)
  ∧ (is_number t = false → a ≠ quote).
Proof.
  destruct items as [|[p t'] items].
  - intros [(Hascii & Hquote & Hatt) Hclear]. unfold render. simpl.
    intros Ha. split_and!.
    + by apply (attached_starts_plain tail).
    + intros Ht. by apply Hclear.
    + intros _ ->. destruct tail as [|b tail]; [done|]. injection Ha as ->.
      by apply Forall_cons in Hquote as [? _].
  - intros ((Hascii & Hquote & Hatt) & Hok & Hclear & Hnum & Hstr & _).
    rewrite render_cons. destruct p as [|b p].
    + destruct t' as [body| |].
      * destruct (is_number t) eqn:Ht; [|by destruct (Hstr eq_refl)].
        rewrite app_nil_l.
        destruct (shown_string_cons stage body (render stage items tail))
          as (b & rest & -> & ? & ? & ?).
        by intros [= <-].
      * by destruct (Hnum eq_refl) as (_ & Hne & _); destruct Hne.
      * by destruct (Hnum eq_refl) as (_ & Hne & _); destruct Hne.
    + simpl. intros [= ->]. split_and!.
      * by apply (attached_starts_plain (a :: p)).
      * intros Ht. by apply (Hclear Ht).
      * intros _ ->. by apply Forall_cons in Hquote as [? _].
Qed.

Lemma render_starts_plain stage t items tail :
  separated (Some t) items tail → starts_plain (render stage items tail).
Proof. intros H a Ha. by destruct (render_head stage t items tail a H Ha). Qed.

Lemma render_starts_clear stage t items tail :
  is_number t = true → separated (Some t) items tail →
  starts_clear (render stage items tail).
Proof.
  intros Ht H a Ha.
  destruct (render_head stage t items tail a H Ha) as (_ & Hw & _). auto.
Qed.

(** After a number, a dot is not followed by a digit. *)
Lemma render_dot stage t items tail x rest :
  is_number t = true → separated (Some t) items tail →
  render stage items tail = "."%char :: x :: rest → is_digit x = false.
Proof.
  intros Ht. destruct items as [|[p t'] items].
  - intros [(_ & _ & Hatt) _]. unfold render. simpl. intros ->.
    by apply (attached_second false "."%char x rest).
  - intros ((_ & _ & Hatt) & Hok & Hclear & Hnum & Hstr & _).
    rewrite render_cons. simpl in Hnum, Hstr. rewrite Ht in Hnum, Hstr.
    destruct p as [|a [|b p]].
    + destruct (is_number t') eqn:Ht';
        [by destruct (Hnum eq_refl) as (_ & Hne & _); destruct Hne|].
      destruct t' as [body| |]; try done. rewrite app_nil_l.
      destruct (shown_string_cons stage body (render stage items tail))
        as (b & rest' & -> & ? & ? & ?).
      by intros [= -> _].
    + change ([a] ++ shown stage t' ++ render stage items tail)
        with (a :: shown stage t' ++ render stage items tail).
      intros [= -> H].
      destruct (is_number t') eqn:Ht';
        [by destruct (Hnum eq_refl) as (_ & _ & Hne); destruct Hne|].
      destruct t' as [body| |]; try done.
      destruct (shown_string_cons stage body (render stage items tail))
        as (b & rest' & Hb & ? & ? & ?).
      rewrite Hb in H. by injection H as -> _.
    + simpl. intros [= -> -> _].
      by apply (attached_second false "."%char x p).
Qed.

Lemma re_sub_nil r repl :
  attempt r false 0 None [] = None → re_sub r repl [] = [].
Proof. intros H. unfold re_sub. by apply sub_loop_end. Qed.

Lemma source_number_no_quote t :
  is_number t = true → token_ok t → no_quote (source t).
Proof.
  assert (Hd : ∀ ds, digits ds → no_quote ds).
  { intros ds Hds. eapply Forall_impl; [exact Hds|]. simpl. by intros c Hc ->. }
  destruct t as [body|whole frac|ds]; [done| |]; simpl.
  - intros _ (_ & Hw & _ & Hf). apply Forall_app. split; [by apply Hd|].
    constructor; [done | by apply Hd].
  - intros _ (_ & Hds). by apply Hd.
Qed.

(** The first substitution replaces the strings. *)
Lemma pass_strings items : ∀ before tail,
  separated before items tail →
  re_sub string_pattern str_placeholder (render 0 items tail)
  = render 1 items tail.
Proof.
  induction items as [|[p t] items IH]; intros before tail Hsep.
  - destruct Hsep as [(_ & Hquote & _) _]. unfold render. simpl.
    rewrite <- (app_nil_r tail) at 1.
    by rewrite re_sub_string_prefix, app_nil_r by done.
  - destruct Hsep as ((_ & Hquote & _) & Hok & _ & _ & _ & Hsep).
    rewrite !render_cons, re_sub_string_prefix by done. f_equal.
    destruct (is_number t) eqn:Ht.
    + replace (shown 0 t) with (source t) by (by destruct t).
      replace (shown 1 t) with (source t) by (by destruct t).
      rewrite re_sub_string_prefix by (by apply source_number_no_quote).
      by rewrite (IH _ _ Hsep).
    + destruct t as [body| |]; try done.
      change (shown 0 (Str body)) with (quote :: body ++ [quote]).
      change (shown 1 (Str body)) with str_placeholder.
      simpl in Hok. rewrite <- app_comm_cons, <- app_assoc.
      change ([quote] ++ render 0 items tail) with (quote :: render 0 items tail).
      rewrite re_sub_string_literal; [by rewrite (IH _ _ Hsep)|done|].
      intros Hq.
      by destruct (render_head 0 _ items tail quote Hsep Hq) as (_ & _ & Hne);
        destruct Hne.
Qed.

Lemma placeholder_no_digit t : no_digit (placeholder t).
Proof. destruct t; by repeat constructor. Qed.

(** The second substitution replaces the decimal numbers and keeps the
    integers. *)
Lemma pass_decimals items : ∀ before tail,
  separated before items tail →
  re_sub float_pattern num_placeholder (render 1 items tail)
  = render 2 items tail.
Proof.
  induction items as [|[p t] items IH]; intros before tail Hsep.
  - destruct Hsep as [(_ & _ & Hatt) _]. unfold render. simpl.
    rewrite <- (app_nil_r tail) at 1.
    rewrite (re_sub_skip float_pattern _ eq_refl attempt_float_miss
               attempt_float_wordb) by done.
    by rewrite app_nil_r.
  - destruct Hsep as ((_ & _ & Hatt) & Hok & _ & Hnum & _ & Hsep).
    rewrite !render_cons.
    destruct t as [body|whole frac|ds].
    + rewrite app_assoc.
      rewrite (re_sub_skip float_pattern _ eq_refl attempt_float_miss
                 attempt_float_wordb).
      * by rewrite (IH _ _ Hsep), <- app_assoc.
      * apply attached_app_no_digit; [done|apply (placeholder_no_digit (Str body))].
      * by apply (render_starts_plain 1 (Str body)).
    + destruct (Hnum eq_refl) as (Hend & _).
      destruct Hok as (Hw & Hdw & Hf & Hdf).
      change (shown 1 (Dec whole frac)) with (whole ++ "."%char :: frac).
      rewrite (re_sub_token float_pattern _ eq_refl attempt_float_miss
                 attempt_float_wordb); try done.
      * by rewrite (IH _ _ Hsep).
      * by destruct whole.
      * by apply (render_starts_clear 1 (Dec whole frac)).
      * intros i c Hc. eexists _, _. rewrite <- app_assoc. simpl app.
        apply attempt_float; try done.
        by apply (render_starts_clear 1 (Dec whole frac)).
    + destruct Hok as (Hne & Hds).
      change (shown 1 (Int ds)) with ds. change (shown 2 (Int ds)) with ds.
      rewrite re_sub_float_digits; try done.
      * by rewrite (IH _ _ Hsep).
      * by apply (render_starts_plain 1 (Int ds)).
      * intros x rest. by apply (render_dot 1 (Int ds)).
Qed.

(** The third substitution replaces the integers. *)
Lemma pass_integers items : ∀ before tail,
  separated before items tail →
  re_sub number_pattern num_placeholder (render 2 items tail)
  = render 3 items tail.
Proof.
  induction items as [|[p t] items IH]; intros before tail Hsep.
  - destruct Hsep as [(_ & _ & Hatt) _]. unfold render. simpl.
    rewrite <- (app_nil_r tail) at 1.
    rewrite (re_sub_skip number_pattern _ eq_refl attempt_number_miss
               attempt_number_wordb) by done.
    by rewrite app_nil_r.
  - destruct Hsep as ((_ & _ & Hatt) & Hok & _ & Hnum & _ & Hsep).
    rewrite !render_cons.
    destruct t as [body|whole frac|ds].
    + rewrite app_assoc.
      rewrite (re_sub_skip number_pattern _ eq_refl attempt_number_miss
                 attempt_number_wordb).
      * by rewrite (IH _ _ Hsep), <- app_assoc.
      * apply attached_app_no_digit; [done|apply (placeholder_no_digit (Str body))].
      * by apply (render_starts_plain 2 (Str body)).
    + rewrite app_assoc.
      rewrite (re_sub_skip number_pattern _ eq_refl attempt_number_miss
                 attempt_number_wordb).
      * by rewrite (IH _ _ Hsep), <- app_assoc.
      * apply attached_app_no_digit;
          [done|apply (placeholder_no_digit (Dec whole frac))].
      * by apply (render_starts_plain 2 (Dec whole frac)).
    + destruct (Hnum eq_refl) as (Hend & _).
      destruct Hok as (Hne & Hds).
      change (shown 2 (Int ds)) with ds.
      rewrite (re_sub_token number_pattern _ eq_refl attempt_number_miss
                 attempt_number_wordb); try done.
      * by rewrite (IH _ _ Hsep).
      * by apply (render_starts_clear 2 (Int ds)).
      * intros i c Hc. eexists _, _. apply attempt_number; try done.
        by apply (render_starts_clear 2 (Int ds)).
Qed.

End Pipeline.

Section WhiteSpace.

(** [split] skips white space, and takes a run of other characters up
    to the next white space or the end as one word. *)
Lemma split_go_gap gap : ∀ s,
  Forall (λ c, is_space c = true) gap → split_go [] (gap ++ s) = split_go [] s.
Proof.
  induction gap as [|c gap IH]; intros s Hgap; [done|].
  apply Forall_cons in Hgap as [Hc Hgap]. simpl. rewrite Hc. by apply IH.
Qed.

Lemma split_go_run w : ∀ cur rest,
  Forall (λ c, is_space c = false) w →
  (∀ a, head rest = Some a → is_space a = true) →
  reverse cur ++ w ≠ [] →
  split_go cur (w ++ rest) = (reverse cur ++ w) :: split rest.
Proof.
  induction w as [|x w IH]; intros cur rest Hw Hrest Hne.
  - rewrite app_nil_r in Hne |- *. simpl.
    assert (Hcur : cur ≠ []) by (by intros ->).
    destruct rest as [|a rest]; unfold split; simpl.
    + by destruct cur.
    + rewrite (Hrest a eq_refl). by destruct cur.
  - apply Forall_cons in Hw as [Hx Hw]. simpl. rewrite Hx.
    rewrite IH; [|done|done|].
    + by rewrite reverse_cons, <- app_assoc.
    + rewrite reverse_cons, <- app_assoc. simpl. by destruct (reverse cur).
Qed.

End WhiteSpace.

Lemma no_quote_check p :
  forallb (λ c, negb (eqc c quote)) p = true → no_quote p.
Proof.
  intros H. apply forallb_Forall_true in H.
  eapply Forall_impl; [exact H|]. simpl. by intros c Hc ->.
Qed.




(** ** The timestamps of the records *)

Section Stamps.

Lemma exec_digit_inv {R} i c s g (k : cont R) x :
  exec Digit i c s g k = Some x →
  ∃ a s', s = a :: s' ∧ is_digit a = true ∧ k (S i) (Some a) s' g = Some x.
Proof.
  destruct s as [|a s]; [done|]. simpl.
  destruct (is_digit a) eqn:Ha; [|done]. eauto.
Qed.

Lemma exec_one_inv {R} a i c s g (k : cont R) x :
  exec (one a) i c s g k = Some x →
  ∃ s', s = a :: s' ∧ k (S i) (Some a) s' g = Some x.
Proof.
  destruct s as [|b s]; [done|]. simpl.
  destruct (eqc b a) eqn:Hb; [|done]. apply eqc_eq in Hb as ->. eauto.
Qed.

Ltac peel_digit H :=
  rewrite ?exec_cat in H;
  apply exec_digit_inv in H as (? & ? & -> & ? & H).
Ltac peel_one H :=
  rewrite ?exec_cat in H;
  apply exec_one_inv in H as (? & -> & H).

(** What the first group of the log patterns matches: nineteen
    characters of the fixed width, then some more of the text. *)
Lemma exec_stamp_inv {R} i c s g (k : cont R) x :
  exec stamp i c s g k = Some x →
  ∃ fixed rest m c',
    s = fixed ++ rest ∧ length fixed = 19
    ∧ MinParser.fixed_width fixed = true
    ∧ m ≤ length rest
    ∧ k (i + (19 + m)) c' (drop m rest) g = Some x.
Proof.
  unfold stamp. cbv [Seq Times]. intros H.
  do 4 peel_digit H. peel_one H. do 2 peel_digit H. peel_one H.
  do 2 peel_digit H. peel_one H. do 2 peel_digit H. peel_one H.
  do 2 peel_digit H. peel_one H. do 2 peel_digit H.
  apply exec_inv in H as (m & c' & g' & H & Hm & Hg).
  assert (g' = []) as ->.
  { destruct g' as [|e g']; [done|]. apply Forall_cons in Hg as [He _].
    simpl in He. by repeat (apply elem_of_nil in He || apply elem_of_app in He as [He|He]). }
  eexists [_; _; _; _; _; _; _; _; _; _; _; _; _; _; _; _; _; _; _], _, m, c'.
  split_and!; [reflexivity|done| |done|].
  - unfold MinParser.fixed_width. simpl.
    repeat match goal with E : is_digit _ = true |- _ => rewrite E; clear E end.
    done.
  - replace (i + (19 + m)) with
      (S (S (S (S (S (S (S (S (S (S (S (S (S (S (S (S (S (S (S i))))))))))))))))))
       + m) by lia.
    exact H.
Qed.

Lemma group_skip n g1 g2 subject :
  Forall (λ e : nat * (nat * nat), e.1 ≠ n) g1 →
  group n (g1 ++ g2) subject = group n g2 subject.
Proof.
  induction 1 as [|[m [b e]] g1 Hm Hg1 IH]; [done|].
  simpl in *. by rewrite (proj2 (Nat.eqb_neq m n) Hm).
Qed.

Lemma drop_while_app_keep p (a b : str) :
  drop_while p a ≠ [] → drop_while p (a ++ b) = drop_while p a ++ b.
Proof.
  induction a as [|x a IH]; [done|]. simpl.
  destruct (p x); [apply IH | done].
Qed.

Lemma rstrip_with_app p (a b : str) :
  rstrip_with p b ≠ [] → rstrip_with p (a ++ b) = a ++ rstrip_with p b.
Proof.
  unfold rstrip_with. intros Hb. rewrite reverse_app.
  rewrite drop_while_app_keep.
  - by rewrite reverse_app, reverse_involutive.
  - intros E. apply Hb. by rewrite E.
Qed.

Lemma drop_while_nil p (s : str) :
  drop_while p s = [] → Forall (λ c, p c = true) s.
Proof.
  induction s as [|a s IH]; [constructor|]. simpl.
  destruct (p a) eqn:Ha; [|done]. intros H. constructor; auto.
Qed.

Lemma rstrip_with_nil p (s : str) :
  rstrip_with p s = [] → Forall (λ c, p c = true) s.
Proof.
  unfold rstrip_with. intros H.
  apply (f_equal reverse) in H. rewrite reverse_involutive in H.
  apply drop_while_nil in H. apply Forall_reverse in H.
  by rewrite reverse_involutive in H.
Qed.

Lemma split_go_word w : ∀ cur s,
  Forall (λ c, is_space c = false) w →
  split_go cur (w ++ " "%char :: s)
  = (reverse cur ++ w) :: split s ∨ (cur = [] ∧ w = [] ∧ split_go cur (w ++ " "%char :: s) = split s).
Proof.
  induction w as [|a w IH]; intros cur s Hw.
  - simpl. destruct cur as [|x cur]; [right; done|left].
    by rewrite app_nil_r.
  - apply Forall_cons in Hw as [Ha Hw]. simpl. rewrite Ha.
    destruct (IH (a :: cur) s Hw) as [H|(? & _)]; [|done].
    left. rewrite H. by rewrite reverse_cons, <- app_assoc.
Qed.

Lemma split_word_space w s :
  w ≠ [] → Forall (λ c, is_space c = false) w →
  split (w ++ " "%char :: s) = w :: split s.
Proof.
  intros Hne Hw. unfold split.
  by destruct (split_go_word w [] s Hw) as [H|(_ & ? & _)].
Qed.

(** The date of a record: ten characters, the first word of its
    timestamp. *)
Lemma fixed_width_date fixed more :
  MinParser.fixed_width fixed = true → length fixed = 19 →
  ∃ date rest,
    split (strip (fixed ++ more)) = date :: rest ∧ Driver.plain_date date.
Proof.
  intros Hfw Hlen.
  destruct (fixed_width_inv fixed Hfw)
    as (y1 & y2 & y3 & y4 & m1 & m2 & d1 & d2 & H1 & H2 & M1 & M2 & S1 & S2
        & rest & -> & Hd).
  destruct rest; [|simpl in Hlen; lia]. clear Hlen.
  repeat match goal with
         | H : Forall _ (_ :: _) |- _ => apply Forall_cons in H as [? H]
         end.
  set (date := [y1; y2; y3; y4; "-"; m1; m2; "-"; d1; d2]%char).
  set (time := [H1; H2; ":"; M1; M2; ":"; S1]%char).
  assert (Hr : rstrip ((time ++ [S2]) ++ more) ≠ []).
  { intros E. apply rstrip_with_nil in E.
    rewrite <- app_assoc in E. apply Forall_app in E as [_ E].
    apply Forall_cons in E as [E _]. by rewrite digit_not_space in E. }
  exists date, (split (rstrip ((time ++ [S2]) ++ more))).
  split; [|split; [done|]; unfold date;
           repeat first [apply Forall_nil_2 | apply Forall_cons_2; [by auto|]]].
  unfold strip, rstrip.
  change (([y1; y2; y3; y4; "-"; m1; m2; "-"; d1; d2; " "; H1; H2; ":"; M1;
            M2; ":"; S1; S2]%char ++ []) ++ more)
    with ((date ++ [" "%char]) ++ (time ++ [S2]) ++ more).
  rewrite rstrip_with_app by done.
  unfold lstrip. simpl drop_while. rewrite (digit_not_space y1) by done.
  change (y1 :: y2 :: y3 :: y4 :: "-"%char :: m1 :: m2 :: "-"%char :: d1 :: d2
          :: " "%char :: rstrip_with is_space ((time ++ [S2]) ++ more))
    with (date ++ " "%char :: rstrip_with is_space ((time ++ [S2]) ++ more)).
  refine (split_word_space date
            (rstrip_with is_space ((time ++ [S2]) ++ more)) _ _); [done|].
  unfold date. repeat constructor; by apply digit_not_space.
Qed.

(** A record of a pattern [^(stamp)...] whose other groups are not the
    first one carries a date of ten characters. *)
Lemma extract_query_date rest_pattern line q :
  1 ∉ groups_of rest_pattern →
  Driver.extract_query (Cat Bol (Cat (Grp 1 stamp) rest_pattern)) line = Some q →
  Driver.dated q.
Proof.
  intros Hgroups. unfold Driver.extract_query, re_match.
  destruct (exec _ 0 None line [] _) as [g|] eqn:Hexec; [|done].
  change (exec (Grp 1 stamp) 0 None line []
            (λ i' c' s' g', exec rest_pattern i' c' s' g'
               (λ _ _ _ g, Some g)) = Some g) in Hexec.
  rewrite exec_grp in Hexec.
  apply exec_stamp_inv in Hexec
    as (fixed & rest & m & c' & -> & Hlen & Hfw & Hm & Hexec).
  apply exec_inv in Hexec as (m2 & c2 & g2 & Hexec & Hm2 & Hg2).
  injection Hexec as <-.
  rewrite group_skip.
  - simpl group. destruct (group 2 _ _); [|done]. intros [= <-]. simpl timestamp.
    rewrite ?drop_0, take_app_ge by (rewrite Hlen; lia).
    by apply fixed_width_date.
  - eapply Forall_impl; [exact Hg2|]. simpl. intros e He Heq.
    by rewrite Heq in He.
Qed.

Lemma day_pattern_date line q :
  DayParser.extract_query line = Some q → Driver.dated q.
Proof.
  apply extract_query_date. simpl.
  intros H. by repeat (apply elem_of_nil in H || apply elem_of_cons in H as [?|H]
                       || apply elem_of_app in H as [H|H]).
Qed.

End Stamps.

(** ** Routing and the lookup of the aggregator *)

Section StoreNames.

Lemma starts_with_spec p : ∀ s,
  starts_with p s = true ↔ ∃ t, s = p ++ t.
Proof.
  induction p as [|x p IH]; intros s; simpl.
  - split; [eauto | done].
  - destruct s as [|y s]; [split; [done | by intros [? ?]]|].
    rewrite andb_true_iff, eqc_eq, IH. split.
    + intros [-> [t ->]]. eauto.
    + intros [t [= -> ->]]. eauto.
Qed.

Lemma ends_with_spec p s : ends_with p s = true ↔ ∃ t, s = t ++ p.
Proof.
  unfold ends_with. rewrite starts_with_spec. split.
  - intros [t Ht]. exists (reverse t).
    apply (f_equal reverse) in Ht.
    by rewrite reverse_involutive, reverse_app, reverse_involutive in Ht.
  - intros [t ->]. exists (reverse t). by rewrite reverse_app.
Qed.

Lemma app_same_length_tail {A} (a1 a2 b1 b2 : list A) :
  a1 ++ b1 = a2 ++ b2 → length b1 = length b2 → b1 = b2.
Proof.
  intros H Hlen.
  assert (length a1 = length a2).
  { apply (f_equal length) in H. rewrite !length_app in H. lia. }
  by apply app_inj_1 in H as [_ ?].
Qed.

(** Two dates of the same length whose patterns [*_<date>.log] match
    one name are the same date. *)
Lemma glob_same_date d1 d2 name :
  length d1 = length d2 →
  ends_with (L "_" ++ d1 ++ L ".log") name = true →
  ends_with (L "_" ++ d2 ++ L ".log") name = true →
  d1 = d2.
Proof.
  intros Hlen [t1 H1]%ends_with_spec [t2 H2]%ends_with_spec.
  rewrite H1 in H2. apply app_same_length_tail in H2.
  - apply app_inv_head in H2. by apply app_inv_tail in H2.
  - rewrite !length_app. by rewrite Hlen.
Qed.

Lemma eqs_eq a : ∀ b, eqs a b = true → a = b.
Proof.
  induction a as [|x a IH]; intros [|y b]; simpl; try done.
  intros [Hx Hab]%andb_prop. apply eqc_eq in Hx as ->. f_equal. by apply IH.
Qed.

Lemma operator_of_operators w : Driver.operator_of w ∈ Driver.operators.
Proof.
  unfold Driver.operator_of, Driver.operators.
  destruct (eqs w (L "WITH")); [set_solver|].
  destruct (eqs w (L "SELECT")) eqn:E1; [apply eqs_eq in E1 as ->; set_solver|].
  destruct (eqs w (L "INSERT")) eqn:E2; [apply eqs_eq in E2 as ->; set_solver|].
  destruct (eqs w (L "UPDATE")) eqn:E3; [apply eqs_eq in E3 as ->; set_solver|].
  destruct (eqs w (L "DELETE")) eqn:E4; [apply eqs_eq in E4 as ->; set_solver|].
  set_solver.
Qed.

Lemma store_name_visible operator date :
  operator ∈ Driver.operators →
  starts_with (L ".") (Driver.store_name operator date) = false.
Proof.
  unfold Driver.operators. intros H.
  repeat (apply elem_of_cons in H as [->|H]; [done|]).
  by apply elem_of_nil in H.
Qed.

Lemma store_name_glob operator date :
  ends_with (L "_" ++ date ++ L ".log") (Driver.store_name operator date) = true.
Proof. apply ends_with_spec. by exists operator. Qed.

Lemma visited_NoDup st :
  (∀ date, date ∈ dates_seen st → length date = 10) →
  NoDup (Driver.visited st).
Proof.
  intros Hlen. unfold Driver.visited. apply NoDup_bind.
  - intros d1 d2 name Hd1%elem_of_elements Hd2%elem_of_elements.
    unfold Driver.glob_date. rewrite !list_elem_of_filter.
    intros [[H1 _] _] [[H2 _] _].
    apply (glob_same_date d1 d2 name); [|done|done].
    by rewrite (Hlen d1), (Hlen d2).
  - intros d _. unfold Driver.glob_date. apply NoDup_filter, NoDup_elements.
  - apply NoDup_elements.
Qed.

Lemma opened_visited st name :
  Driver.stores_ok st → name ∈ opened st → name ∈ Driver.visited st.
Proof.
  intros (_ & _ & Hopened) Hname.
  destruct (Hopened name Hname) as (operator & date & Hop & Hdate & -> & Hdisk).
  unfold Driver.visited. apply list_elem_of_bind. exists date. split.
  - unfold Driver.glob_date. apply list_elem_of_filter. split_and!.
    + apply store_name_glob.
    + by apply store_name_visible.
    + by apply elem_of_elements, elem_of_dom.
  - by apply elem_of_elements.
Qed.

End StoreNames.

Section RunInvariants.

Import Driver.

Lemma preserves_get_bind (P : state → Prop) {B} (k : state → M B) :
  (∀ st, P st → P (k st st).2) → preserves P (get ≫= k).
Proof. intros Hk st Hst. by apply Hk. Qed.

(** What [buffer_query] changes when it returns. *)
Lemma buffer_query_fields q st w date rest :
  first_word (rstrip_semi (sql q)) = Ok w →
  split (timestamp q) = date :: rest →
  let name := store_name (operator_of w) date in
  let line := store_line (timestamp q) (rstrip_semi (sql q)) in
  let buffer := default [] (file_buffers st !! name) ++ [line] in
  let st' := (buffer_query q st).2 in
  (buffer_query q st).1 = Ok tt
  ∧ dates_seen st' = {[date]} ∪ dates_seen st
  ∧ (file_buffers st' = <[name := buffer]> (file_buffers st)
     ∨ file_buffers st' = <[name := []]> (<[name := buffer]> (file_buffers st)))
  ∧ current_query st' = current_query st
  ∧ (opened st' = opened st ∨ opened st' = opened st ++ [name])
  ∧ (∀ n, is_Some (disk st !! n) → is_Some (disk st' !! n))
  ∧ (opened st' = opened st ++ [name] → is_Some (disk st' !! name)).
Proof.
  intros Hw Hts name line buffer st'. unfold st', buffer_query.
  rewrite Hw, Hts. fold name line.
  assert (Hkeep : ∀ (d : gmap str (list str)) n (v : list str),
            is_Some (d !! n) → is_Some (<[name := v]> d !! n)).
  { intros d n v Hn. rewrite lookup_insert. by case_decide. }
  case_bool_decide; simpl; fold buffer; case_match; simpl;
    split_and!; auto;
    try (intros n Hn; unfold content; simpl; by auto);
    try (intros Habs; apply (f_equal length) in Habs;
         rewrite length_app in Habs; simpl in Habs; lia);
    try (intros _; unfold content; simpl;
         rewrite ?lookup_insert_eq; by eauto).
Qed.

Lemma buffer_query_raises q st :
  (buffer_query q st).1 ≠ Ok tt → (buffer_query q st).2 = st.
Proof.
  unfold buffer_query.
  destruct (first_word _) as [w|]; [|done].
  destruct (split (timestamp q)) as [|date rest]; [done|].
  case_bool_decide; case_match; done.
Qed.

Lemma buffer_query_routing_ok q : preserves routing_ok (buffer_query q).
Proof.
  intros st Hst.
  destruct (first_word (rstrip_semi (sql q))) as [w|e] eqn:Hw;
    [|by unfold buffer_query; rewrite Hw].
  destruct (split (timestamp q)) as [|date rest] eqn:Hts;
    [by unfold buffer_query; rewrite Hw, Hts|].
  destruct (buffer_query_fields q st w date rest Hw Hts)
    as (_ & Hdates & Hbuf & _).
  intros n l. rewrite Hdates.
  set (name := store_name (operator_of w) date) in *.
  assert (Hold : l ∈ default [] (file_buffers st !! n) →
    ∃ operator d ts body,
      operator ∈ operators ∧ n = store_name operator d
      ∧ l = store_line ts body ∧ head (split ts) = Some d
      ∧ d ∈ ({[date]} ∪ dates_seen st : gset str)).
  { intros Hl. destruct (Hst n l Hl) as (op & d & ts & body & ? & ? & ? & ? & ?).
    exists op, d, ts, body. split_and!; try done. set_solver. }
  assert (Hnew : ∃ operator d ts body,
      operator ∈ operators ∧ name = store_name operator d
      ∧ store_line (timestamp q) (rstrip_semi (sql q)) = store_line ts body
      ∧ head (split ts) = Some d
      ∧ d ∈ ({[date]} ∪ dates_seen st : gset str)).
  { exists (operator_of w), date, (timestamp q), (rstrip_semi (sql q)).
    split_and!; try done; [apply operator_of_operators|by rewrite Hts|set_solver]. }
  destruct Hbuf as [-> | ->]; rewrite !lookup_insert;
    repeat case_decide; subst; simpl; try done.
  - intros [Hl | Hl%list_elem_of_singleton]%elem_of_app; [auto | by subst].
  - by intros ?%elem_of_nil.
Qed.

Lemma buffer_query_stores_ok q :
  dated q → preserves stores_ok (buffer_query q).
Proof.
  intros (date & rest & Hts & Hlen) st (Hdates & Hcur & Hopened).
  destruct (first_word (rstrip_semi (sql q))) as [w|e] eqn:Hw;
    [|by unfold buffer_query; rewrite Hw].
  destruct (buffer_query_fields q st w date rest Hw Hts)
    as (_ & Hd & _ & Hc & Ho & Hdisk & Hnew).
  split_and!.
  - intros d. rewrite Hd.
    intros [Hd'%elem_of_singleton|?]%elem_of_union; [by subst | auto].
  - by rewrite Hc.
  - intros name Hname.
    assert (Hcase : name ∈ opened st
      ∨ (name = store_name (operator_of w) date
         ∧ opened (buffer_query q st).2
           = opened st ++ [store_name (operator_of w) date])).
    { destruct Ho as [Ho|Ho]; rewrite Ho in Hname; [by left|].
      apply elem_of_app in Hname as [?|Hn%list_elem_of_singleton]; auto. }
    destruct Hcase as [Hold | [-> Ho']].
    + destruct (Hopened name Hold) as (op & d & ? & ? & ? & ?).
      exists op, d. rewrite Hd. split_and!; auto. set_solver.
    + exists (operator_of w), date. rewrite Hd.
      split_and!; [apply operator_of_operators | set_solver | done | by apply Hnew].
Qed.

Lemma flush_buffers_fields st :
  let st' := (flush_buffers st).2 in
  dates_seen st' = dates_seen st ∧ file_buffers st' = ∅
  ∧ current_query st' = current_query st ∧ opened st' = opened st
  ∧ (∀ n, is_Some (disk st !! n) → is_Some (disk st' !! n)).
Proof.
  unfold flush_buffers. simpl.
  induction (map_to_list (file_buffers st)) as [|[f b] l IH]; [done|].
  simpl. destruct IH as (Hd & _ & Hc & Ho & Hdisk).
  destruct (bool_decide (b ≠ []) && _); [|done].
  simpl. split_and!; auto.
  intros n Hn. rewrite lookup_insert. case_decide; [done|]. by apply Hdisk.
Qed.

Lemma close_all_fields st :
  let st' := (close_all st).2 in
  dates_seen st' = dates_seen st ∧ file_buffers st' = file_buffers st
  ∧ current_query st' = current_query st ∧ opened st' = opened st
  ∧ disk st' = disk st ∧ output_files st' = output_files st.
Proof.
  unfold close_all. simpl.
  assert (H : ∀ names st0,
    let st' := foldl (λ st name, close name st) st0 names in
    dates_seen st' = dates_seen st0 ∧ file_buffers st' = file_buffers st0
    ∧ current_query st' = current_query st0 ∧ opened st' = opened st0
    ∧ disk st' = disk st0 ∧ output_files st' = output_files st0).
  { induction names as [|n names IH]; intros st0; [done|].
    simpl. by destruct (IH (close n st0)) as (-> & -> & -> & -> & -> & ->). }
  apply H.
Qed.

Lemma flush_buffers_keeps (P : state → Prop) :
  (∀ st st',
     dates_seen st' = dates_seen st → current_query st' = current_query st →
     opened st' = opened st → file_buffers st' = ∅ →
     (∀ n, is_Some (disk st !! n) → is_Some (disk st' !! n)) →
     P st → P st') →
  preserves P flush_buffers.
Proof.
  intros HP st Hst.
  destruct (flush_buffers_fields st) as (? & ? & ? & ? & ?). by eapply HP.
Qed.

Lemma stores_ok_flush : preserves stores_ok flush_buffers.
Proof.
  apply flush_buffers_keeps.
  intros st st' Hd Hc Ho _ Hdisk (H1 & H2 & H3). split_and!.
  - by rewrite Hd.
  - by rewrite Hc.
  - rewrite Ho, Hd. intros name Hname.
    destruct (H3 name Hname) as (op & d & ? & ? & ? & ?). eauto 10.
Qed.

Lemma routing_ok_flush : preserves routing_ok flush_buffers.
Proof.
  apply flush_buffers_keeps.
  intros st st' _ _ _ Hb _ _ n l. rewrite Hb, lookup_empty. simpl.
  by intros ?%elem_of_nil.
Qed.

Lemma stores_ok_close : preserves stores_ok close_all.
Proof.
  intros st H. destruct (close_all_fields st) as (Hd & _ & Hc & Ho & Hdisk & _).
  unfold stores_ok. by rewrite Hd, Hc, Ho, Hdisk.
Qed.

Lemma routing_ok_close : preserves routing_ok close_all.
Proof.
  intros st H. destruct (close_all_fields st) as (Hd & Hb & _).
  unfold routing_ok. by rewrite Hd, Hb.
Qed.

Lemma untouched_writelines dir f b st :
  untouched dir st → f ∈ output_files st → untouched dir (writelines f b st).
Proof.
  intros [Hof Hfr] Hf. split; [done|]. simpl. intros n Hn.
  rewrite lookup_insert_ne; [by apply Hfr|].
  intros ->. apply Hn. by rewrite <- Hof.
Qed.

Lemma untouched_open dir f st :
  untouched dir st →
  untouched dir (set_output_files (output_files st ++ [f]) (open_append f st)).
Proof.
  intros [Hof Hfr]. split; simpl; [by rewrite Hof|]. intros n Hn.
  rewrite lookup_insert_ne; [apply Hfr|]; set_solver.
Qed.

Lemma buffer_query_untouched dir q : preserves (untouched dir) (buffer_query q).
Proof.
  intros st Hst. unfold buffer_query.
  destruct (first_word _) as [w|]; [|done].
  destruct (split (timestamp q)) as [|date rest]; [done|].
  generalize (store_name (operator_of w) date) as name. intros name.
  cbv zeta.
  assert (H : ∃ st2,
    (if bool_decide (name ∈ output_files (set_dates_seen ({[date]} ∪ dates_seen st) st))
     then set_dates_seen ({[date]} ∪ dates_seen st) st
     else set_output_files
            (output_files (set_dates_seen ({[date]} ∪ dates_seen st) st) ++ [name])
            (open_append name (set_dates_seen ({[date]} ∪ dates_seen st) st))) = st2
    ∧ untouched dir st2 ∧ name ∈ output_files st2).
  { eexists. split; [done|]. case_bool_decide; [done|]. split.
    - by apply untouched_open.
    - simpl. set_solver. }
  destruct H as (st2 & -> & H2 & Hname).
  destruct (_ <=? _); simpl; [|done].
  by apply untouched_writelines.
Qed.

Lemma flush_buffers_untouched dir : preserves (untouched dir) flush_buffers.
Proof.
  intros st Hst. unfold flush_buffers. simpl.
  change (untouched dir
    (foldr (λ '(filename, buffer) st0,
              if bool_decide (buffer ≠ [])
                 && bool_decide (filename ∈ output_files st0)
              then writelines filename buffer st0 else st0)
           st (map_to_list (file_buffers st)))).
  induction (map_to_list (file_buffers st)) as [|[f b] l IH]; [done|].
  simpl. destruct (bool_decide (b ≠ [])); simpl; [|done].
  case_bool_decide; [|done]. by apply untouched_writelines.
Qed.

Lemma close_all_untouched dir : preserves (untouched dir) close_all.
Proof.
  intros st H. destruct (close_all_fields st) as (_ & _ & _ & Ho & Hdisk & Hof).
  unfold untouched. by rewrite Ho, Hdisk, Hof.
Qed.

Section Pattern.

Variable pattern : regex.
Hypothesis pattern_dated : ∀ line q,
  extract_query pattern line = Some q → dated q.

Lemma parse_line_stores_ok raw : preserves stores_ok (parse_line pattern raw).
Proof.
  unfold parse_line. destruct (strip raw) as [|c line]; [preserve|].
  destruct (is_digit c).
  - apply preserves_get_bind. intros st Hst.
    assert (Hq : stores_ok
      (match current_query st with
       | Some q => buffer_query q
       | None => mret tt
       end st).2).
    { destruct (current_query st) as [q|] eqn:E; [|done].
      apply buffer_query_stores_ok; [|done]. destruct Hst as (_ & Hc & _). auto. }
    unfold mbind, M_bind, bind.
    destruct (match current_query st with
              | Some q => buffer_query q
              | None => mret tt
              end st) as [[[]|e] st']; [|done].
    simpl in *. destruct Hq as (H1 & H2 & H3). split_and!; [done| |done].
    simpl. intros q [= Hq]. by apply pattern_dated in Hq.
  - apply preserves_modify. intros st Hst.
    destruct (current_query st) as [q|] eqn:E; [|done].
    destruct Hst as (H1 & H2 & H3). unfold stores_ok. split_and!; [done| |done]. simpl. intros q' [= <-].
    destruct (H2 q E) as (d & r & ? & ?). by exists d, r.
Qed.

Lemma parse_line_routing_ok raw : preserves routing_ok (parse_line pattern raw).
Proof.
  unfold parse_line. destruct (strip raw) as [|c line]; [preserve|].
  destruct (is_digit c); preserve.
  - destruct (current_query _); [apply buffer_query_routing_ok | preserve].
  - done.
  - by destruct (current_query _).
Qed.

Lemma read_loop_keeps (P : state → Prop) lines e :
  (∀ raw, preserves P (parse_line pattern raw)) →
  preserves P (read_loop pattern lines e).
Proof.
  intros Hline. induction lines as [|raw lines IH]; simpl.
  - destruct e; preserve.
  - by preserve.
Qed.

Lemma release_stores_ok : preserves stores_ok release.
Proof.
  unfold release. apply preserves_get_bind. intros st Hst.
  assert (Hq : preserves stores_ok
    (match current_query st with
     | Some q => buffer_query q
     | None => mret tt
     end)).
  { destruct (current_query st) as [q|] eqn:E; [|preserve].
    apply buffer_query_stores_ok. destruct Hst as (_ & Hc & _). auto. }
  refine (preserves_bind stores_ok _ _ Hq _ st Hst). intros _.
  preserve; [apply stores_ok_flush | apply stores_ok_close].
Qed.

Lemma parse_line_untouched dir raw :
  preserves (untouched dir) (parse_line pattern raw).
Proof.
  unfold parse_line. destruct (strip raw) as [|c line]; [preserve|].
  destruct (is_digit c); preserve.
  - destruct (current_query _); [apply buffer_query_untouched | preserve].
  - done.
  - by destruct (current_query _).
Qed.

Lemma release_untouched dir : preserves (untouched dir) release.
Proof.
  unfold release. preserve.
  - destruct (current_query _); [apply buffer_query_untouched | preserve].
  - apply flush_buffers_untouched.
  - apply close_all_untouched.
Qed.

Lemma release_routing_ok : preserves routing_ok release.
Proof.
  unfold release. preserve.
  - destruct (current_query _); [apply buffer_query_routing_ok | preserve].
  - apply routing_ok_flush.
  - apply routing_ok_close.
Qed.

End Pattern.

End RunInvariants.

Section Aggregator.

Import Driver.

Variable key_of : str → option str.

Lemma normalize_sql_disk d sql :
  preserves (λ st, disk st = d) (normalize_sql sql).
Proof. intros st H. unfold normalize_sql. by destruct (sql_cache st !! sql). Qed.

Lemma count_line_disk d line s :
  preserves (λ st, disk st = d) (count_line key_of line s).
Proof.
  unfold count_line.
  destruct (split_once _ line) as [|ts [|sql [|? ?]]]; preserve.
  - destruct (sql_cache _ !! _); [preserve | apply normalize_sql_disk].
  - destruct (key_of ts); preserve.
Qed.

Lemma count_lines_disk d lines : ∀ s,
  preserves (λ st, disk st = d) (count_lines key_of lines s).
Proof.
  induction lines as [|l lines IH]; intros s; simpl; preserve.
  - apply count_line_disk.
  - apply IH.
Qed.

Lemma count_lines_app l1 : ∀ l2 s st,
  count_lines key_of (l1 ++ l2) s st
  = match count_lines key_of l1 s st with
    | (Ok s', st') => count_lines key_of l2 s' st'
    | (Raise e, st') => (Raise e, st')
    end.
Proof.
  induction l1 as [|l l1 IH]; intros l2 s st; [done|].
  simpl. unfold mbind, M_bind, bind.
  destruct (count_line key_of l s st) as [[s'|e] st']; [|done].
  apply IH.
Qed.

Lemma content_disk st st' : disk st' = disk st → content st' = content st.
Proof. intros H. unfold content. by rewrite H. Qed.

Lemma glob_date_disk date st st' :
  disk st' = disk st → glob_date date st' = glob_date date st.
Proof. intros H. unfold glob_date. by rewrite H. Qed.

(** The inner loops of the aggregator read the files one after the
    other: counting does not change the directory. *)
Lemma count_files_reads st0 names : ∀ s st,
  disk st = disk st0 →
  count_files key_of names s st
  = count_lines key_of (name ← names; content st0 name) s st.
Proof.
  induction names as [|n names IH]; intros s st Hst; [done|].
  rewrite bind_cons, count_lines_app.
  pose proof (count_lines_disk (disk st0) (content st0 n) s st Hst) as Hd.
  simpl. unfold mbind at 1 2, M_bind, bind, get.
  rewrite (content_disk _ _ Hst).
  destruct (count_lines key_of (content st0 n) s st) as [[s'|e] st']; [|done].
  by apply IH.
Qed.

Lemma count_dates_reads st0 dates : ∀ s st,
  disk st = disk st0 →
  count_dates key_of dates s st
  = count_lines key_of
      (date ← dates; name ← glob_date date st0; content st0 name) s st.
Proof.
  induction dates as [|d dates IH]; intros s st Hst; [done|].
  rewrite bind_cons, count_lines_app.
  pose proof (count_lines_disk (disk st0)
                (name ← glob_date d st0; content st0 name) s st Hst) as Hd.
  simpl. unfold mbind at 1 2, M_bind, bind, get.
  rewrite (glob_date_disk _ _ _ Hst), (count_files_reads st0 _ _ _ Hst).
  destruct (count_lines key_of _ s st) as [[s'|e] st']; [|done].
  by apply IH.
Qed.

Lemma list_bind_assoc {A B C} (f : A → list B) (g : B → list C) (l : list A) :
  (x ← l; y ← f x; g y) = (y ← (x ← l; f x); g y).
Proof.
  induction l as [|x l IH]; [done|].
  by rewrite !bind_cons, bind_app, IH.
Qed.

(** The aggregator counts the lines of [reached], in that order. *)
Lemma generate_summary_reads name st :
  generate_summary key_of name st
  = (s ← count_lines key_of (reached st) ∅;
     modify (λ st, set_disk (<[name := summary_lines s]> (disk st)) st)) st.
Proof.
  unfold reached, visited. rewrite <- list_bind_assoc.
  unfold generate_summary, mbind at 1 2 3, M_bind, bind, get.
  by rewrite (count_dates_reads st _ _ st eq_refl).
Qed.

End Aggregator.

Section Routing.

Import Driver.

Lemma init_routing_ok dir : routing_ok (init dir).
Proof. intros name line. simpl. rewrite lookup_empty. by intros ?%elem_of_nil. Qed.

Lemma init_stores_ok dir : stores_ok (init dir).
Proof.
  split_and!; simpl.
  - by intros date ?%not_elem_of_empty.
  - done.
  - by intros name ?%elem_of_nil.
Qed.

Lemma init_untouched dir : untouched dir (init dir).
Proof. by split. Qed.


End Routing.

(** ** Bodies with a first word *)

(** A body that keeps a word once its semicolons are stripped is
    classified by that word in upper case. *)
Lemma classify_first_token body w rest :
  split (rstrip_semi body) = w :: rest →
  Driver.classify body = Ok (Driver.operator_of (upper w)).
Proof.
  intros H. unfold Driver.classify, Driver.first_word. rewrite H.
  by destruct (rstrip_semi body).
Qed.

(** ** What the [finally] block releases when it does not raise *)

Section Release.

Import Driver.

Lemma handles_ok_open f st :
  handles_ok st → f ∉ output_files st →
  handles_ok (set_output_files (output_files st ++ [f]) (open_append f st)).
Proof.
  intros (Hof & Hnd & Hcl & Hbuf) Hf. split_and!; simpl.
  - by rewrite Hof.
  - apply NoDup_app. split_and!; [done| |apply NoDup_singleton].
    intros x Hx ->%list_elem_of_singleton. apply Hf. by rewrite Hof.
  - done.
  - intros name Hname. apply elem_of_app. left. by apply Hbuf.
Qed.

Lemma handles_ok_buffer f b st :
  handles_ok st → f ∈ output_files st →
  handles_ok (set_file_buffers (<[f := b]> (file_buffers st)) st).
Proof.
  intros (Hof & Hnd & Hcl & Hbuf) Hf. split_and!; simpl; try done.
  intros name. rewrite lookup_insert. case_decide; [by subst|apply Hbuf].
Qed.

Lemma handles_ok_writelines f b st :
  handles_ok st → handles_ok (writelines f b st).
Proof. done. Qed.

Lemma buffer_query_handles_ok q : preserves handles_ok (buffer_query q).
Proof.
  intros st Hst. unfold buffer_query.
  destruct (first_word _) as [w|]; [|done].
  destruct (split (timestamp q)) as [|date rest]; [done|].
  generalize (store_name (operator_of w) date) as name. intros name.
  cbv zeta.
  assert (H : ∃ st2,
    (if bool_decide (name ∈ output_files (set_dates_seen ({[date]} ∪ dates_seen st) st))
     then set_dates_seen ({[date]} ∪ dates_seen st) st
     else set_output_files
            (output_files (set_dates_seen ({[date]} ∪ dates_seen st) st) ++ [name])
            (open_append name (set_dates_seen ({[date]} ∪ dates_seen st) st))) = st2
    ∧ handles_ok st2 ∧ name ∈ output_files st2).
  { eexists. split; [done|]. case_bool_decide; [done|]. split.
    - by apply handles_ok_open.
    - simpl. set_solver. }
  destruct H as (st2 & -> & H2 & Hname).
  destruct (_ <=? _); simpl.
  - apply (handles_ok_buffer name []); [|done].
    apply handles_ok_writelines. by apply handles_ok_buffer.
  - by apply handles_ok_buffer.
Qed.

Lemma parse_line_handles_ok pattern raw :
  preserves handles_ok (parse_line pattern raw).
Proof.
  unfold parse_line. destruct (strip raw) as [|c line]; [preserve|].
  destruct (is_digit c); preserve.
  - destruct (current_query _); [apply buffer_query_handles_ok | preserve].
  - done.
  - by destruct (current_query _).
Qed.

Lemma init_handles_ok dir : handles_ok (init dir).
Proof.
  split_and!; simpl; try done; [apply NoDup_nil_2|].
  intros name. rewrite lookup_empty. by intros [? ?].
Qed.

(** The loop of [flush_buffers] appends each buffer to its store. *)
Lemma flush_loop_writes st (l : list (str * list str)) :
  NoDup l.*1 → (∀ k b, (k, b) ∈ l → k ∈ output_files st) →
  let st' :=
    foldr (λ '(filename, buffer) st,
             if bool_decide (buffer ≠ [])
                && bool_decide (filename ∈ output_files st)
             then writelines filename buffer st else st) st l in
  output_files st' = output_files st ∧ opened st' = opened st
  ∧ closed st' = closed st
  ∧ ∀ name, content st' name
            = content st name
              ++ default [] ((list_to_map l : gmap str (list str)) !! name).
Proof.
  induction l as [|[k b] l IH]; intros Hnd Hin; simpl.
  - split_and!; try done. intros name. by rewrite lookup_empty, app_nil_r.
  - apply NoDup_cons in Hnd as [Hk Hnd].
    destruct IH as (Hof & Hop & Hcl & Hcontent); [done| |].
    { intros k' b' H'. apply (Hin k' b'). by right. }
    assert (Hkin : k ∈ output_files st) by (apply (Hin k b); by left).
    assert (Hnone : (list_to_map l : gmap str (list str)) !! k = None)
      by by apply not_elem_of_list_to_map_1.
    rewrite (bool_decide_eq_true_2 (k ∈ output_files _)) by by rewrite Hof.
    rewrite andb_true_r. case_bool_decide as Hb; simpl.
    + split_and!; try done. intros name. unfold content. simpl.
      rewrite !lookup_insert. case_decide as Hname.
      * subst. simpl. fold (content (foldr
          (λ '(filename, buffer) st0,
             if bool_decide (buffer ≠ [])
                && bool_decide (filename ∈ output_files st0)
             then writelines filename buffer st0 else st0) st l) name).
        rewrite Hcontent, Hnone. simpl. by rewrite app_nil_r.
      * apply Hcontent.
    + split_and!; try done. intros name. rewrite Hcontent.
      rewrite lookup_insert. case_decide as Hname; [|done].
      subst. by rewrite Hnone.
Qed.

Lemma flush_buffers_writes st :
  handles_ok st →
  let st' := (flush_buffers st).2 in
  (flush_buffers st).1 = Ok tt
  ∧ file_buffers st' = ∅
  ∧ output_files st' = output_files st ∧ opened st' = opened st
  ∧ closed st' = closed st
  ∧ ∀ name, content st' name
            = content st name ++ default [] (file_buffers st !! name).
Proof.
  intros (Hof & Hnd & Hcl & Hbuf).
  destruct (flush_loop_writes st (map_to_list (file_buffers st)))
    as (H1 & H2 & H3 & H4).
  - apply NoDup_fst_map_to_list.
  - intros k b Hkb%elem_of_map_to_list. apply Hbuf. by exists b.
  - unfold flush_buffers. simpl. split_and!; try done.
    intros name. unfold content in *. simpl.
    by rewrite H4, list_to_map_to_list.
Qed.

Lemma close_all_closes st :
  closed (close_all st).2 = closed st ++ output_files st.
Proof.
  unfold close_all. simpl. generalize (output_files st) as names.
  intros names. revert st.
  induction names as [|n names IH]; intros st; simpl; [by rewrite app_nil_r|].
  rewrite IH. simpl. by rewrite <- app_assoc.
Qed.

(** When the last record is routed without an exception, the [finally]
    block appends every buffer to its store, empties the buffers and
    closes every store that was opened, once. *)
Lemma release_flushes_and_closes st :
  handles_ok st →
  let routed :=
    match current_query st with
    | Some q => buffer_query q
    | None => mret tt
    end st in
  routed.1 = Ok tt →
  let st' := (release st).2 in
  (release st).1 = Ok tt
  ∧ file_buffers st' = ∅
  ∧ (∀ name, content st' name
             = content routed.2 name
               ++ default [] (file_buffers routed.2 !! name))
  ∧ closed st' = opened st' ∧ NoDup (closed st').
Proof.
  intros Hst routed Hrouted st'.
  assert (Hok : handles_ok routed.2).
  { unfold routed. destruct (current_query st); [|done].
    by apply buffer_query_handles_ok. }
  assert (Hrel : release st
                 = (Ok tt, (close_all (flush_buffers routed.2).2).2)).
  { unfold release, mbind, M_bind, bind, get. fold routed.
    by destruct routed as [[[]|?] st1]. }
  unfold st'. rewrite Hrel. cbn [fst snd].
  destruct (flush_buffers_writes routed.2 Hok)
    as (_ & Hf2 & Hf3 & Hf4 & Hf5 & Hf6).
  destruct (close_all_fields (flush_buffers routed.2).2)
    as (_ & Hb & _ & Ho & Hdisk & _).
  pose proof (close_all_closes (flush_buffers routed.2).2) as Hc.
  destruct Hok as (Hof & Hnd & Hcl & _).
  assert (Hclosed : closed (close_all (flush_buffers routed.2).2).2
                    = opened (close_all (flush_buffers routed.2).2).2).
  { by rewrite Hc, Ho, Hf5, Hcl, Hf3, Hf4, Hof. }
  split_and!; [done | by rewrite Hb | | done | ].
  - intros name. unfold content. rewrite Hdisk. apply Hf6.
  - by rewrite Hclosed, Ho, Hf4.
Qed.

(** On every input of the day parser the handles are in order when the
    [finally] block starts. *)
Lemma read_loop_handles_ok lines e dir :
  handles_ok (DayParser.read_loop lines e (init dir)).2.
Proof.
  exact (read_loop_keeps _ handles_ok lines e
           (parse_line_handles_ok _) (init dir) (init_handles_ok dir)).
Qed.

End Release.

(** ** The lines that a run stores *)

Section Stored.

Import Driver Account.

Lemma stored_open name st n :
  stored (set_output_files (output_files st ++ [name]) (open_append name st)) n
  = stored st n.
Proof.
  unfold stored, content. simpl. rewrite lookup_insert.
  by case_decide; subst.
Qed.

(** [buffer_query] adds the line of the record to what its store
    holds, on disk or in the buffer, and nothing else. *)
Lemma buffer_query_appends q st name line :
  routed_line q = Some (name, line) →
  (buffer_query q st).1 = Ok tt
  ∧ ∀ n, stored (buffer_query q st).2 n
         = stored st n ++ (if decide (name = n) then [line] else []).
Proof.
  unfold routed_line, buffer_query.
  destruct (first_word _) as [w|]; [|done].
  destruct (split (timestamp q)) as [|date rest]; [done|].
  intros [= <- <-].
  generalize (store_name (operator_of w) date) as name. intros name.
  generalize (store_line (timestamp q) (rstrip_semi (sql q))) as line.
  intros line. cbv zeta.
  assert (H : ∃ st2,
    (if bool_decide (name ∈ output_files (set_dates_seen ({[date]} ∪ dates_seen st) st))
     then set_dates_seen ({[date]} ∪ dates_seen st) st
     else set_output_files
            (output_files (set_dates_seen ({[date]} ∪ dates_seen st) st) ++ [name])
            (open_append name (set_dates_seen ({[date]} ∪ dates_seen st) st))) = st2
    ∧ ∀ n, stored st2 n = stored st n).
  { eexists. split; [done|]. case_bool_decide; [done|].
    intros n. by rewrite stored_open. }
  destruct H as (st2 & -> & H2).
  destruct (_ <=? _); simpl; (split; [done|]); intros n; rewrite <- H2;
    unfold stored, content; simpl; rewrite !lookup_insert;
    case_decide; subst; simpl; rewrite ?app_nil_r, ?app_assoc; done.
Qed.

Lemma buffer_query_buffers_short q : preserves buffers_short (buffer_query q).
Proof.
  intros st [Hpos Hshort]. unfold buffer_query.
  destruct (first_word _) as [w|]; [|done].
  destruct (split (timestamp q)) as [|date rest]; [done|].
  generalize (store_name (operator_of w) date) as name. intros name.
  generalize (store_line (timestamp q) (rstrip_semi (sql q))) as line.
  intros line. cbv zeta.
  assert (H : ∃ st2,
    (if bool_decide (name ∈ output_files (set_dates_seen ({[date]} ∪ dates_seen st) st))
     then set_dates_seen ({[date]} ∪ dates_seen st) st
     else set_output_files
            (output_files (set_dates_seen ({[date]} ∪ dates_seen st) st) ++ [name])
            (open_append name (set_dates_seen ({[date]} ∪ dates_seen st) st))) = st2
    ∧ buffers_short st2).
  { eexists. split; [done|]. by case_bool_decide. }
  destruct H as (st2 & -> & [Hpos2 H2]).
  destruct (_ <=? _) eqn:Hfull; simpl; (split; [done|]); intros n; simpl;
    rewrite !lookup_insert; repeat case_decide; subst; simpl;
    try done; try apply H2.
  apply Nat.leb_gt in Hfull. exact Hfull.
Qed.

End Stored.

Section Accounts.

Import Driver Account.

Variable pattern : regex.
Variable dir : gmap str (list str).

Lemma lines_for_snoc name routed q n l :
  routed_line q = Some (n, l) →
  lines_for name (routed ++ [q])
  = lines_for name routed ++ (if decide (n = name) then [l] else []).
Proof.
  intros Hq. unfold lines_for. rewrite omap_app. f_equal. simpl. rewrite Hq.
  by case_decide.
Qed.

Lemma assemble_line_prefix acc raw :
  ∃ more, (assemble_line pattern acc raw).1 = acc.1 ++ more.
Proof.
  destruct acc as [routed cur]. unfold assemble_line.
  destruct (strip raw) as [|c line]; [by exists []; rewrite app_nil_r|].
  destruct (is_digit c); simpl; [|by exists []; rewrite app_nil_r].
  destruct cur; [by eexists|by exists []; rewrite app_nil_r].
Qed.

Lemma assemble_prefix lines : ∀ acc,
  ∃ more, (foldl (assemble_line pattern) acc lines).1 = acc.1 ++ more.
Proof.
  induction lines as [|raw lines IH]; intros acc; simpl.
  - exists []. by rewrite app_nil_r.
  - destruct (IH (assemble_line pattern acc raw)) as [m1 ->].
    destruct (assemble_line_prefix acc raw) as [m2 ->].
    exists (m2 ++ m1). by rewrite app_assoc.
Qed.

Lemma buffer_query_unroutable q st :
  routed_line q = None → buffer_query q st = (Raise IndexError, st).
Proof.
  unfold routed_line, buffer_query, first_word.
  destruct (rstrip_semi (sql q)) as [|a s].
  - by destruct (split (timestamp q)).
  - destruct (split (a :: s)); [done|]. by destruct (split (timestamp q)).
Qed.

(** One line of the loop: either the record in progress cannot be
    routed and the line raises, leaving the state as it was, or the
    stores follow the assembler. *)
Lemma parse_line_accounts raw st routed cur :
  accounts_for dir routed cur st →
  Forall routable routed →
  let acc' := assemble_line pattern (routed, cur) raw in
  let run := parse_line pattern raw st in
  (∃ q, cur = Some q ∧ acc'.1 = routed ++ [q] ∧ routed_line q = None
        ∧ run = (Raise IndexError, st))
  ∨ (run.1 = Ok tt ∧ accounts_for dir acc'.1 acc'.2 run.2
     ∧ Forall routable acc'.1).
Proof.
  intros [Hcur Hst] Hall. unfold assemble_line, parse_line.
  destruct (strip raw) as [|c line]; [by right|].
  destruct (is_digit c); simpl.
  - unfold mbind, M_bind, bind, get. rewrite Hcur.
    destruct cur as [q|]; [|by right].
    destruct (routed_line q) as [[n l]|] eqn:Hq.
    + right. destruct (buffer_query_appends q st n l Hq) as [Hok Happ].
      destruct (buffer_query q st) as [[[]|?] st1]; [|done]. simpl in *.
      split; [done|]. split; [split; [done|]|].
      * intros name.
        change (stored st1 name
                = default [] (dir !! name) ++ lines_for name (routed ++ [q])).
        by rewrite Happ, Hst, (lines_for_snoc name routed q n l Hq), app_assoc.
      * apply Forall_app. split; [done|]. apply Forall_singleton.
        unfold routable. by rewrite Hq.
    + left. exists q. split_and!; try done.
      by rewrite (buffer_query_unroutable q st Hq).
  - right. unfold modify. cbn [fst snd]. rewrite Hcur.
    destruct cur; (split; [done|]); (split; [|done]); (split; [done|exact Hst]).
Qed.

Lemma read_loop_accounts e lines : ∀ st routed cur,
  accounts_for dir routed cur st →
  Forall routable routed →
  let acc' := foldl (assemble_line pattern) (routed, cur) lines in
  let run := read_loop pattern lines e st in
  (∃ q, q ∈ acc'.1 ∧ routed_line q = None ∧ current_query run.2 = Some q
        ∧ run.1 = Raise IndexError)
  ∨ (run.1 = end_of_input e ∧ accounts_for dir acc'.1 acc'.2 run.2
     ∧ Forall routable acc'.1).
Proof.
  induction lines as [|raw lines IH]; intros st routed cur Hacc Hall.
  - right. simpl. by destruct e.
  - cbv zeta.
    change (foldl (assemble_line pattern) (routed, cur) (raw :: lines))
      with (foldl (assemble_line pattern)
              (assemble_line pattern (routed, cur) raw) lines).
    change (read_loop pattern (raw :: lines) e st)
      with (bind (parse_line pattern raw)
              (λ _, read_loop pattern lines e) st).
    unfold bind.
    destruct (parse_line_accounts raw st routed cur Hacc Hall)
      as [(q & -> & Hr & Hq & Hrun)|(Hok & Hacc' & Hall')].
    + left. exists q. rewrite Hrun. cbn [fst snd].
      split_and!; try done; [|apply Hacc].
      destruct (assemble_prefix lines (assemble_line pattern (routed, Some q) raw))
        as [more ->].
      rewrite Hr. set_solver.
    + destruct (parse_line pattern raw st) as [[[]|?] st1]; [|done].
      destruct (assemble_line pattern (routed, cur) raw) as [routed1 cur1].
      by apply IH.
Qed.

Lemma release_unroutable st q :
  current_query st = Some q → routed_line q = None →
  release st = (Raise IndexError, st).
Proof.
  intros Hcur Hq. unfold release, mbind, M_bind, bind, get.
  by rewrite Hcur, (buffer_query_unroutable q st Hq).
Qed.

Lemma release_accounts st routed cur :
  accounts_for dir routed cur st → handles_ok st →
  (∀ q, cur = Some q → routable q) →
  let st' := (release st).2 in
  (release st).1 = Ok tt
  ∧ file_buffers st' = ∅
  ∧ (∀ name, content st' name
             = default [] (dir !! name)
               ++ lines_for name
                    (routed ++ match cur with Some q => [q] | None => [] end))
  ∧ closed st' = opened st' ∧ NoDup (closed st').
Proof.
  intros [Hcur Hst] Hok Hq.
  assert (Hrouted :
    (match current_query st with
     | Some q => buffer_query q
     | None => mret tt
     end st).1 = Ok tt
    ∧ ∀ name,
        stored (match current_query st with
                | Some q => buffer_query q
                | None => mret tt
                end st).2 name
        = default [] (dir !! name)
          ++ lines_for name
               (routed ++ match cur with Some q => [q] | None => [] end)).
  { rewrite Hcur. destruct cur as [q|].
    - destruct (Hq q eq_refl) as [[n l] Hnl].
      destruct (buffer_query_appends q st n l Hnl) as [? Happ].
      split; [done|]. intros name.
      by rewrite Happ, Hst, (lines_for_snoc name routed q n l Hnl), app_assoc.
    - split; [done|]. intros name. rewrite app_nil_r. apply Hst. }
  destruct Hrouted as [Hr Hstored].
  destruct (release_flushes_and_closes st Hok Hr) as (H1 & H2 & H3 & H4 & H5).
  split_and!; try done. intros name. rewrite H3. apply Hstored.
Qed.

Lemma init_accounts : accounts_for dir [] None (init dir).
Proof.
  split; [done|]. intros name. unfold stored, content. simpl.
  by rewrite lookup_empty.
Qed.

End Accounts.

Lemma release_after_reading pattern dir lines e :
  Forall Account.routable (Account.records_of pattern lines) →
  let reading := Driver.read_loop pattern lines e (init dir) in
  let released := Driver.release reading.2 in
  reading.1 = Account.end_of_input e
  ∧ released.1 = Ok tt
  ∧ file_buffers released.2 = ∅
  ∧ (∀ name, content released.2 name
             = default [] (dir !! name)
               ++ Account.lines_for name (Account.records_of pattern lines))
  ∧ closed released.2 = opened released.2 ∧ NoDup (closed released.2).
Proof.
  intros Hall reading released.
  unfold Account.records_of, Account.assemble in Hall.
  apply Forall_app in Hall as [Hrouted Hcur].
  pose proof (read_loop_keeps pattern Driver.handles_ok lines e
                (parse_line_handles_ok pattern) (init dir) (init_handles_ok dir))
    as Hok.
  destruct (read_loop_accounts pattern dir e lines (init dir) [] None
              (init_accounts dir) (Forall_nil_2 _))
    as [(q & Hq & Hnone & _)|(Hend & Hacc & _)].
  { rewrite Forall_forall in Hrouted. destruct (Hrouted q Hq) as [? Hsome].
    by rewrite Hnone in Hsome. }
  assert (Hlast : ∀ q,
    (foldl (Account.assemble_line pattern) ([], None) lines).2 = Some q →
    Account.routable q).
  { intros q Hq. rewrite Hq in Hcur. by inversion_clear Hcur. }
  destruct (release_accounts dir _ _ _ Hacc Hok Hlast)
    as (H1 & H2 & H3 & H4 & H5).
  by split_and!.
Qed.

Lemma released_run_accounts pattern dir lines e :
  Forall Account.routable (Account.records_of pattern lines) →
  (try_finally (Driver.read_loop pattern lines e) Driver.release (init dir)).1
  = Account.end_of_input e.
Proof.
  intros Hall.
  destruct (release_after_reading pattern dir lines e Hall) as (H1 & H2 & _).
  unfold try_finally.
  destruct (Driver.read_loop pattern lines e (init dir)) as [r st1].
  simpl in *. destruct (Driver.release st1) as [[[]|?] st2]; [|done].
  by subst r.
Qed.

Lemma try_finally_outcome body h1 h2 st :
  (∀ st', (h1 st').1 = (h2 st').1) →
  (try_finally body h1 st).1 = (try_finally body h2 st).1.
Proof.
  intros H. unfold try_finally. destruct (body st) as [r st'].
  specialize (H st').
  destruct (h1 st') as [[[]|?] ?], (h2 st') as [[[]|?] ?]; simpl in *;
    congruence.
Qed.

Lemma finish_outcome key_of name st :
  (Driver.finish key_of name st).1 = (Driver.release st).1.
Proof.
  unfold Driver.finish, mbind, M_bind, bind.
  destruct (Driver.release st) as [[[]|?] st']; [|done].
  by destruct (generate_summary_writes key_of name st') as (s & st2 & _ & ->).
Qed.

Lemma blank_body_unroutable q :
  Account.blank_body q → Account.routed_line q = None.
Proof.
  intros [Hne Hsplit]. unfold Account.routed_line, Driver.first_word.
  rewrite Hsplit. by destruct (rstrip_semi (sql q)).
Qed.

Lemma dated_routable q :
  Driver.dated q → ¬ Account.blank_body q → Account.routable q.
Proof.
  intros (date & rest & Hts & _) Hq.
  unfold Account.routable, Account.routed_line, Driver.first_word.
  rewrite Hts. destruct (rstrip_semi (sql q)) as [|a s] eqn:E1; [by eexists|].
  destruct (split (a :: s)) eqn:E2; [|by eexists].
  destruct Hq. unfold Account.blank_body. by rewrite E1.
Qed.

Lemma assemble_stamps (P : str → Prop) pattern lines :
  (∀ line q, Driver.extract_query pattern line = Some q → P (timestamp q)) →
  ∀ acc,
    Forall (λ q, P (timestamp q)) acc.1 →
    (∀ q, acc.2 = Some q → P (timestamp q)) →
    let acc' := foldl (Account.assemble_line pattern) acc lines in
    Forall (λ q, P (timestamp q)) acc'.1
    ∧ (∀ q, acc'.2 = Some q → P (timestamp q)).
Proof.
  intros Hp. induction lines as [|raw lines IH]; intros [routed cur] H1 H2;
    [done|].
  apply IH; unfold Account.assemble_line;
    destruct (strip raw) as [|c line]; try done;
    destruct (is_digit c); simpl in *; try done.
  - destruct cur as [q|]; [|done]. apply Forall_app. split; [done|].
    apply Forall_singleton. by apply H2.
  - apply Hp.
  - destruct cur as [q|]; [|done]. intros q' [= <-]. exact (H2 q eq_refl).
Qed.

Lemma records_stamps (P : str → Prop) pattern lines :
  (∀ line q, Driver.extract_query pattern line = Some q → P (timestamp q)) →
  Forall (λ q, P (timestamp q)) (Account.records_of pattern lines).
Proof.
  intros Hp.
  destruct (assemble_stamps P pattern lines Hp ([], None)) as [H1 H2];
    [done..|].
  unfold Account.records_of, Account.assemble. apply Forall_app. split; [done|].
  destruct (foldl _ _ _).2 as [q|]; [|done]. apply Forall_singleton. by apply H2.
Qed.

Lemma records_dated lines :
  Forall Driver.dated (Account.records_of log_pattern lines).
Proof.
  apply (records_stamps
           (λ ts, ∃ date rest, split ts = date :: rest ∧ Driver.plain_date date)).
  apply day_pattern_date.
Qed.

Lemma unroutable_run_raises pattern dir lines e :
  Exists (λ q, Account.routed_line q = None) (Account.records_of pattern lines) →
  (try_finally (Driver.read_loop pattern lines e) Driver.release (init dir)).1
  = Raise IndexError.
Proof.
  intros Hex. unfold Account.records_of, Account.assemble in Hex.
  assert (Hstuck : ∃ q,
    current_query (Driver.read_loop pattern lines e (init dir)).2 = Some q
    ∧ Account.routed_line q = None).
  { destruct (read_loop_accounts pattern dir e lines (init dir) [] None
                (init_accounts dir) (Forall_nil_2 _))
      as [(q & _ & Hnone & Hq & _)|(_ & [Hcur _] & Hall)]; [by exists q|].
    apply Exists_app in Hex as [Hex|Hex].
    - apply Exists_exists in Hex as (q & Hq & Hnone).
      rewrite Forall_forall in Hall. destruct (Hall q Hq) as [? Hsome].
      by rewrite Hnone in Hsome.
    - rewrite Hcur. destruct (foldl _ _ _).2 as [q|].
      + exists q. split; [done|]. by inversion_clear Hex as [? ? H|? ? H];
          [|inversion H].
      + inversion Hex. }
  destruct Hstuck as (q & Hq & Hnone).
  unfold try_finally.
  destruct (Driver.read_loop pattern lines e (init dir)) as [r st1].
  simpl in Hq. by rewrite (release_unroutable st1 q Hq Hnone).
Qed.

(** X1.  When every record of the input can be routed, the run ends as
    the reading ended, and then every store holds what it held before
    the run followed by the lines of its records, in the order of the
    input; no line is left in a buffer, and every store that was opened
    is closed once. *)
Theorem stores_hold_the_records pattern dir lines e :
  Forall Account.routable (Account.records_of pattern lines) →
  let run := try_finally (Driver.read_loop pattern lines e) Driver.release
               (init dir) in
  run.1 = Account.end_of_input e
  ∧ file_buffers run.2 = ∅
  ∧ (∀ name, content run.2 name
             = default [] (dir !! name)
               ++ Account.lines_for name (Account.records_of pattern lines))
  ∧ closed run.2 = opened run.2 ∧ NoDup (closed run.2).
Proof.
  intros Hall run.
  destruct (release_after_reading pattern dir lines e Hall)
    as (H1 & H2 & H3 & H4 & H5 & H6).
  unfold run, try_finally.
  destruct (Driver.read_loop pattern lines e (init dir)) as [r st1].
  simpl in *. destruct (Driver.release st1) as [[[]|?] st2]; [|done].
  simpl in *. by subst r.
Qed.

Lemma stores_hold_the_records_witness :
  content (try_finally (Driver.read_loop log_pattern DayParser.two_selects
                          Driver.EndOfFile)
             Driver.release (init ∅)).2 (L "SELECT_2024-01-01.log")
  = [L "2024-01-01 10:00:01 | SELECT * FROM users WHERE id = 5" ++ Driver.nl;
     L "2024-01-01 10:00:02 | SELECT * FROM users WHERE id = 9" ++ Driver.nl].
Proof.
  assert (H : Forall Account.routable
                (Account.records_of log_pattern DayParser.two_selects)).
  { unfold Account.routable. apply (bool_decide_unpack _). vm_compute.
    exact I. }
  etransitivity.
  - exact (proj1 (proj2 (proj2
      (stores_hold_the_records log_pattern ∅ DayParser.two_selects
         Driver.EndOfFile H))) (L "SELECT_2024-01-01.log")).
  - vm_compute. reflexivity.
Defined.

Lemma parse_line_buffers_short pattern raw :
  preserves Account.buffers_short (Driver.parse_line pattern raw).
Proof.
  unfold Driver.parse_line. destruct (strip raw) as [|c line]; [preserve|].
  destruct (is_digit c); preserve.
  - destruct (current_query _); [apply buffer_query_buffers_short | preserve].
  - done.
  - by destruct (current_query _).
Qed.

(** X2.  Whatever has been read, no buffer holds a thousand lines.  A
    call of [buffer_query] on a record that can be routed adds the line
    of the record to the buffer of its store; when that brings the
    buffer to the size, the call appends the whole buffer, the new line
    last, to the store and empties the buffer, and otherwise it leaves
    the store as it is.  No other store and no other buffer changes. *)
Theorem buffers_stay_below_the_size :
  (∀ pattern dir lines e name,
     length (default []
               (file_buffers (Driver.read_loop pattern lines e (init dir)).2
                  !! name))
     < 1000)
  ∧ ∀ q st name line,
      Account.routed_line q = Some (name, line) →
      let buffer := default [] (file_buffers st !! name) ++ [line] in
      let st' := (Driver.buffer_query q st).2 in
      (Driver.buffer_query q st).1 = Ok tt
      ∧ (if buffer_size st <=? length buffer
         then content st' name = content st name ++ buffer
              ∧ file_buffers st' !! name = Some []
         else content st' name = content st name
              ∧ file_buffers st' !! name = Some buffer)
      ∧ ∀ other, other ≠ name →
          content st' other = content st other
          ∧ file_buffers st' !! other = file_buffers st !! other.
Proof.
  split.
  - intros pattern dir lines e name.
    assert (H : Account.buffers_short
                  (Driver.read_loop pattern lines e (init dir)).2).
    { apply (read_loop_keeps pattern Account.buffers_short lines e
               (parse_line_buffers_short pattern) (init dir)).
      split; simpl; [lia|]. intros n. rewrite lookup_empty. simpl. lia. }
    destruct H as [_ H].
    replace 1000
      with (buffer_size (Driver.read_loop pattern lines e (init dir)).2);
      [apply H|].
    apply (read_loop_keeps pattern (λ st, buffer_size st = 1000) lines e);
      [|done].
    intros raw. unfold Driver.parse_line.
    destruct (strip raw) as [|c line]; [preserve|].
    destruct (is_digit c); preserve; try done.
    + destruct (current_query _); [|preserve].
      intros st Hst. unfold Driver.buffer_query.
      destruct (Driver.first_word _); [|done].
      destruct (split _); [done|].
      case_bool_decide; simpl; by case_match.
    + by destruct (current_query _).
  - intros q st name line. unfold Account.routed_line, Driver.buffer_query.
    destruct (Driver.first_word _) as [w|]; [|done].
    destruct (split (timestamp q)) as [|date rest]; [done|].
    intros [= <- <-].
    generalize (Driver.store_name (Driver.operator_of w) date) as name.
    intros name.
    generalize (Driver.store_line (timestamp q) (rstrip_semi (sql q))) as line.
    intros line. cbv zeta.
    assert (H : ∃ st2,
      (if bool_decide
            (name ∈ output_files (set_dates_seen ({[date]} ∪ dates_seen st) st))
       then set_dates_seen ({[date]} ∪ dates_seen st) st
       else set_output_files
              (output_files (set_dates_seen ({[date]} ∪ dates_seen st) st)
               ++ [name])
              (open_append name
                 (set_dates_seen ({[date]} ∪ dates_seen st) st))) = st2
      ∧ (∀ n, content st2 n = content st n)
      ∧ file_buffers st2 = file_buffers st
      ∧ buffer_size st2 = buffer_size st).
    { eexists. split; [done|]. case_bool_decide; [done|].
      split_and!; [|done|done]. intros n. unfold content. simpl.
      rewrite lookup_insert. by case_decide; subst. }
    destruct H as (st2 & -> & Hc & Hb & Hs).
    change (buffer_size (set_file_buffers
              (<[name := default [] (file_buffers st2 !! name) ++ [line]]>
                 (file_buffers st2)) st2))
      with (buffer_size st2).
    rewrite Hb, Hs.
    destruct (_ <=? _); simpl; (split; [done|]); split.
    + unfold content. simpl. rewrite !lookup_insert_eq. simpl.
      split; [|done]. f_equal. apply Hc.
    + intros other Hother. unfold content. simpl.
      rewrite !lookup_insert_ne by done. split; [|done].
      apply Hc.
    + rewrite lookup_insert_eq. split; [apply Hc|done].
    + intros other Hother. rewrite lookup_insert_ne by done.
      split; [apply Hc|done].
Qed.

(** X3.  The day parser ends as the reading of its input ended when no
    record has a blank body, that is a body which is not empty but
    holds no word once its last semicolons are stripped; it raises
    [IndexError] when a record has one. *)
Theorem parse_fails_on_blank_bodies_only lines e dir :
  let run := DayParser.parse lines e (init dir) in
  let records := Account.records_of log_pattern lines in
  (Forall (λ q, ¬ Account.blank_body q) records →
   run.1 = Account.end_of_input e)
  ∧ (Exists Account.blank_body records → run.1 = Raise IndexError).
Proof.
  intros run records.
  assert (Hrun : run.1
    = (try_finally (Driver.read_loop log_pattern lines e) Driver.release
         (init dir)).1).
  { apply try_finally_outcome. intros st'. apply finish_outcome. }
  rewrite Hrun. split.
  - intros Hall. apply released_run_accounts.
    pose proof (records_dated lines) as Hd. fold records in Hd.
    rewrite Forall_forall in *. intros q Hq.
    apply dated_routable; auto.
  - intros Hex. apply unroutable_run_raises.
    eapply Exists_impl; [exact Hex|]. apply blank_body_unroutable.
Qed.

(** ** The counts of the aggregator *)

Section Tally.

Import Driver Account.

Variable key_of : str → option str.

Lemma count_line_tally line s st :
  cache_ok st →
  (count_line key_of line s st).1 = Ok (tally_line key_of s line).
Proof.
  intros (_ & _ & Hval). unfold count_line, tally_line.
  destruct (split_once _ line) as [|ts [|sql [|? ?]]]; try done.
  unfold mbind, M_bind, bind, get, normalize_sql.
  destruct (sql_cache st !! strip sql) as [v|] eqn:E; simpl; rewrite ?E; simpl.
  - rewrite (Hval _ _ E). by destruct (key_of ts).
  - by destruct (key_of ts).
Qed.

Lemma count_lines_tally lines : ∀ s st,
  cache_ok st →
  (count_lines key_of lines s st).1 = Ok (foldl (tally_line key_of) s lines).
Proof.
  induction lines as [|l lines IH]; intros s st Hst; [done|].
  simpl. unfold mbind, M_bind, bind.
  pose proof (count_line_tally l s st Hst) as Hl.
  pose proof (count_line_cache_ok key_of l s st Hst) as Hc.
  destruct (count_line key_of l s st) as [[s'|?] st']; [|done].
  simpl in *. injection Hl as ->. by apply IH.
Qed.

Lemma generate_summary_counts name st :
  cache_ok st →
  (generate_summary key_of name st).1 = Ok tt
  ∧ content (generate_summary key_of name st).2 name
    = summary_lines (tally key_of (reached st)).
Proof.
  intros Hst. rewrite generate_summary_reads.
  unfold mbind, M_bind, bind.
  pose proof (count_lines_tally (reached st) ∅ st Hst) as Hl.
  destruct (count_lines key_of (reached st) ∅ st) as [[s'|?] st']; [|done].
  simpl in *. injection Hl as ->. unfold content. simpl.
  by rewrite lookup_insert_eq.
Qed.

End Tally.

(** X4.  On a state whose cache agrees with the substitutions, the
    aggregator returns, and what it writes does not depend on what the
    cache holds: the summary store gets the lines of the counts taken
    without a cache over the stored lines it reads, and no other file
    changes. *)
Theorem summary_is_the_tally_of_the_stored_lines key_of name st :
  Driver.cache_ok st →
  let st' := (Driver.generate_summary key_of name st).2 in
  (Driver.generate_summary key_of name st).1 = Ok tt
  ∧ content st' name
    = Driver.summary_lines (Account.tally key_of (Driver.reached st))
  ∧ ∀ other, other ≠ name → content st' other = content st other.
Proof.
  intros Hst. cbv zeta. rewrite generate_summary_reads.
  unfold mbind, M_bind, bind.
  pose proof (count_lines_tally key_of (Driver.reached st) ∅ st Hst) as Hl.
  pose proof (count_lines_disk key_of (disk st) (Driver.reached st) ∅ st eq_refl)
    as Hd.
  destruct (Driver.count_lines key_of (Driver.reached st) ∅ st)
    as [[s'|?] st']; [|done].
  simpl in *. injection Hl as ->. unfold content. simpl.
  split_and!; [done|by rewrite lookup_insert_eq|].
  intros other Hother. by rewrite lookup_insert_ne, Hd.
Qed.

Lemma summary_is_the_tally_of_the_stored_lines_witness :
  let st := (DayParser.release
               (DayParser.read_loop DayParser.two_selects Driver.EndOfFile
                  (init ∅)).2).2 in
  content (DayParser.generate_daily_summary st).2 DayParser.summary_name
  = [L "2024-01-01 | SELECT * FROM users WHERE id = $num | выполнился 2 раз"
     ++ Driver.nl].
Proof.
  intros st.
  assert (H : Driver.cache_ok st).
  { exact (release_keeps_cache Driver.cache_ok cache_ok_view _
             (read_loop_keeps_cache Driver.cache_ok cache_ok_view log_pattern
                DayParser.two_selects Driver.EndOfFile (init ∅)
                (cache_ok_init ∅))). }
  unfold DayParser.generate_daily_summary.
  rewrite (proj1 (proj2 (summary_is_the_tally_of_the_stored_lines
                           DayParser.date_key DayParser.summary_name st H))).
  vm_compute. reflexivity.
Defined.

(** ** The archive and the cleanup *)

Section SummaryFrame.

Import Driver.

(** What the aggregator changes before it writes: the cache and the
    record of the substitutions. *)
Variable P : state → Prop.
Hypothesis P_frame : ∀ st cache done,
  P st → P (set_sql_cache cache (set_computed done st)).
Variable key_of : str → option str.

Lemma normalize_sql_frame sql : preserves P (normalize_sql sql).
Proof.
  intros st Hst. unfold normalize_sql.
  destruct (sql_cache st !! sql); [done|]. by apply P_frame.
Qed.

Lemma count_line_frame line s : preserves P (count_line key_of line s).
Proof.
  unfold count_line.
  destruct (split_once _ line) as [|ts [|sql [|? ?]]]; preserve.
  - destruct (sql_cache _ !! _); [preserve | apply normalize_sql_frame].
  - destruct (key_of ts); preserve.
Qed.

Lemma count_lines_frame lines : ∀ s, preserves P (count_lines key_of lines s).
Proof.
  induction lines as [|l lines IH]; intros s; simpl; preserve.
  - apply count_line_frame.
  - apply IH.
Qed.

Lemma count_files_frame names : ∀ s, preserves P (count_files key_of names s).
Proof.
  induction names as [|n names IH]; intros s; simpl; preserve.
  - apply count_lines_frame.
  - apply IH.
Qed.

Lemma count_dates_frame dates : ∀ s, preserves P (count_dates key_of dates s).
Proof.
  induction dates as [|d dates IH]; intros s; simpl; preserve.
  - apply count_files_frame.
  - apply IH.
Qed.

End SummaryFrame.

Section Packing.

Import Driver Archive.

Lemma generate_summary_stores_ok key_of name :
  preserves stores_ok (generate_summary key_of name).
Proof.
  unfold generate_summary. preserve.
  - by apply count_dates_frame.
  - destruct H as (H1 & H2 & H3). split_and!; try done.
    intros n Hn. destruct (H3 n Hn) as (op & d & ? & ? & ? & Hdisk).
    exists op, d. split_and!; try done. simpl.
    rewrite lookup_insert. by case_decide.
Qed.

Lemma finish_stores_ok key_of name : preserves stores_ok (finish key_of name).
Proof.
  unfold finish. preserve; [apply release_stores_ok|].
  apply generate_summary_stores_ok.
Qed.

Lemma store_name_inj op1 op2 d1 d2 :
  op1 ∈ operators → op2 ∈ operators → length d1 = length d2 →
  store_name op1 d1 = store_name op2 d2 → op1 = op2 ∧ d1 = d2.
Proof.
  intros H1 H2 Hlen Heq. unfold store_name in Heq.
  assert (Hd : L "_" ++ d1 ++ L ".log" = L "_" ++ d2 ++ L ".log").
  { apply (app_same_length_tail op1 op2); [done|].
    rewrite !length_app. by rewrite Hlen. }
  rewrite Hd in Heq. apply app_inv_tail in Heq.
  apply app_inv_head in Hd. by apply app_inv_tail in Hd.
Qed.

Lemma operators_NoDup : NoDup operators.
Proof.
  unfold operators. repeat (apply NoDup_cons; split);
    [..|apply NoDup_nil_2]; rewrite ?elem_of_cons, elem_of_nil;
    intros H; repeat destruct H as [H|H]; done.
Qed.

Lemma elem_of_files_to_archive summary st name :
  name ∈ files_to_archive summary st ↔
  is_Some (disk st !! name)
  ∧ (name = summary
     ∨ ∃ operator date, operator ∈ operators ∧ date ∈ dates_seen st
                        ∧ name = store_name operator date).
Proof.
  unfold files_to_archive, exists_file. rewrite elem_of_app. split.
  - intros [H|H].
    + case_bool_decide; [|by apply elem_of_nil in H].
      apply list_elem_of_singleton in H as ->. auto.
    + apply list_elem_of_bind in H as (date & H & Hdate).
      apply list_elem_of_bind in H as (op & H & Hop).
      case_bool_decide; [|by apply elem_of_nil in H].
      apply list_elem_of_singleton in H as ->. split; [done|].
      right. exists op, date. by rewrite <- elem_of_elements.
  - intros [Hex [->|(op & date & Hop & Hdate & ->)]].
    + left. rewrite bool_decide_eq_true_2 by done. by apply list_elem_of_singleton.
    + right. apply list_elem_of_bind. exists date.
      rewrite elem_of_elements. split; [|done].
      apply list_elem_of_bind. exists op. split; [|done].
      rewrite bool_decide_eq_true_2 by done. by apply list_elem_of_singleton.
Qed.

Lemma elem_of_existing st file name :
  name ∈ (if exists_file st file then [file] else []) → name = file.
Proof.
  destruct (exists_file st file); [|by intros ?%elem_of_nil].
  by intros ?%list_elem_of_singleton.
Qed.

Lemma existing_NoDup st file :
  NoDup (if exists_file st file then [file] else []).
Proof. destruct (exists_file st file); [apply NoDup_singleton | apply NoDup_nil_2]. Qed.

Lemma files_to_archive_NoDup summary st :
  (∀ date, date ∈ dates_seen st → plain_date date) →
  (∀ operator date, operator ∈ operators → summary ≠ store_name operator date) →
  NoDup (files_to_archive summary st).
Proof.
  intros Hplain Hsummary. unfold files_to_archive. apply NoDup_app. split_and!.
  - apply existing_NoDup.
  - intros name ->%elem_of_existing H2.
    apply list_elem_of_bind in H2 as (date & H2 & _).
    apply list_elem_of_bind in H2 as (op & H2%elem_of_existing & Hop).
    by apply (Hsummary op date).
  - apply NoDup_bind; [| |apply NoDup_elements].
    + intros d1 d2 name Hd1%elem_of_elements Hd2%elem_of_elements H1 H2.
      apply list_elem_of_bind in H1 as (op1 & H1%elem_of_existing & Hop1).
      apply list_elem_of_bind in H2 as (op2 & H2%elem_of_existing & Hop2).
      subst name.
      apply store_name_inj in H2 as [_ ?]; try done.
      destruct (Hplain d1 Hd1) as [-> _]. by destruct (Hplain d2 Hd2) as [-> _].
    + intros date Hdate%elem_of_elements.
      apply NoDup_bind; [| |apply operators_NoDup].
      * intros op1 op2 name Hop1 Hop2 H1%elem_of_existing H2%elem_of_existing.
        subst name. by apply store_name_inj in H2 as [? _].
      * intros op _. apply existing_NoDup.
Qed.

Lemma generate_summary_creates key_of name st :
  is_Some (disk (generate_summary key_of name st).2 !! name).
Proof.
  unfold generate_summary, mbind, M_bind, bind, get.
  destruct (count_dates_returns key_of (elements (dates_seen st)) ∅ st)
    as (s & st' & ->).
  unfold modify. simpl. rewrite lookup_insert_eq. eauto.
Qed.

Lemma finish_creates key_of name st :
  (finish key_of name st).1 = Ok tt →
  is_Some (disk (finish key_of name st).2 !! name).
Proof.
  unfold finish, mbind, M_bind, bind.
  destruct (release st) as [[[]|?] st']; [|done].
  intros _. apply generate_summary_creates.
Qed.

Lemma summary_is_no_store operator date :
  operator ∈ operators → DayParser.summary_name ≠ store_name operator date.
Proof.
  unfold operators. intros H.
  repeat (apply elem_of_cons in H as [->|H]; [done|]).
  by apply elem_of_nil in H.
Qed.

Lemma members_names st (files : list str) :
  ((λ file, (file, content st file)) <$> files).*1 = files.
Proof. induction files as [|f files IH]; [done|]. simpl. f_equal. exact IH. Qed.

Lemma compress_results_member summary archive st name :
  NoDup (files_to_archive summary st) →
  name ∈ files_to_archive summary st →
  ∃ members,
    compress_results summary archive st = (Ok (Some (archive, members)), st)
    ∧ NoDup members.*1
    ∧ (name, content st name) ∈ members.
Proof.
  intros Hnd Hin. unfold compress_results.
  destruct (files_to_archive summary st) as [|f files] eqn:E;
    [by apply elem_of_nil in Hin|].
  eexists. split; [done|]. split.
  - by rewrite members_names.
  - by apply (list_elem_of_fmap_2 (λ file, (file, content st file))).
Qed.

(** The names: no slash, and where they end. *)
Lemma take_while_Forall p s : Forall (λ c, p c = true) (take_while p s).
Proof.
  induction s as [|c s IH]; simpl; [done|].
  destruct (p c) eqn:E; [by constructor | done].
Qed.

Lemma base_name_no_slash path : "/"%char ∉ base_name path.
Proof.
  assert (Hb : Forall (λ c, c ≠ "/"%char) (basename path)).
  { unfold basename. apply Forall_reverse.
    eapply Forall_impl; [apply take_while_Forall|].
    simpl. intros c Hc ->. done. }
  assert (Hr : Forall (λ c, c ≠ "/"%char) (base_name path)).
  { unfold base_name, splitext_root.
    destruct (_ <? _); [|done]. destruct (forallb _ _); [done|].
    by apply Forall_take. }
  intros Hin. rewrite Forall_forall in Hr. by apply (Hr _ Hin).
Qed.

Lemma digit_char_no_slash n : MinParser.digit_char n ≠ "/"%char.
Proof.
  unfold MinParser.digit_char. intros H.
  apply (f_equal N_of_ascii) in H. rewrite N_ascii_embedding in H.
  - simpl in H. lia.
  - assert (n mod 10 < 10) by (apply Nat.mod_upper_bound; lia). lia.
Qed.

Lemma run_timestamp_no_slash now : "/"%char ∉ run_timestamp now.
Proof.
  assert (H : Forall (λ c, c ≠ "/"%char) (run_timestamp now)).
  { unfold run_timestamp, MinParser.pad2.
    apply Forall_app. split.
    - eapply Forall_impl; [apply show_nat_digits|].
      simpl. by intros c Hc ->.
    - repeat first
        [ apply Forall_app; split
        | apply Forall_cons; split
        | apply Forall_nil_2
        | apply digit_char_no_slash
        | by repeat constructor ]. }
  intros Hin. rewrite Forall_forall in H. by apply (H _ Hin).
Qed.

Lemma tar_gz_is_no_log (name : str) : glob_log (name ++ L ".tar.gz") = false.
Proof.
  unfold glob_log, ends_with. by rewrite reverse_app.
Qed.

End Packing.

Section Wrapping.

Import Driver Archive.

Lemma compress_results_files summary archive st :
  files_to_archive summary st ≠ [] →
  compress_results summary archive st
  = (Ok (Some (archive,
               (λ file, (file, content st file)) <$> files_to_archive summary st)),
     st).
Proof.
  unfold compress_results. by destruct (files_to_archive summary st).
Qed.

Lemma cleanup_files_lookup path archive st name :
  glob_log archive = false →
  disk (cleanup_files path archive st).2 !! name
  = if glob_log name && bool_decide (name ≠ path) then None
    else disk st !! name.
Proof.
  intros Harchive. unfold cleanup_files, modify. simpl.
  destruct (disk st !! name) as [x|] eqn:E.
  - destruct (glob_log name) eqn:Hg; simpl.
    + case_bool_decide as Hp.
      * apply map_lookup_filter_None. right. intros x' _ Hkeep. apply Hkeep.
        simpl. split_and!; [done|done|]. intros ->. congruence.
      * apply map_lookup_filter_Some. split; [done|]. simpl. intros (_ & ? & _).
        done.
    + apply map_lookup_filter_Some. split; [done|]. simpl. intros (? & _).
      congruence.
  - rewrite (proj2 (map_lookup_filter_None _ _ _)) by (by left).
    by destruct (_ && _).
Qed.

Lemma wrap_up_run key_of summary path archive st :
  let finished := finish key_of summary st in
  finished.1 = Ok tt →
  wrap_up key_of summary path archive st
  = (Ok (Some (archive,
               (λ file, (file, content finished.2 file))
                 <$> files_to_archive summary finished.2)),
     (cleanup_files path archive finished.2).2)
  ∧ summary ∈ files_to_archive summary finished.2.
Proof.
  intros finished Hok.
  assert (Hin : summary ∈ files_to_archive summary finished.2).
  { apply elem_of_files_to_archive. split; [|by left].
    by apply finish_creates. }
  split; [|done].
  assert (Hfiles : files_to_archive summary finished.2 ≠ []).
  { intros Hnil. rewrite Hnil in Hin. by apply elem_of_nil in Hin. }
  unfold wrap_up, mbind, M_bind, bind. fold finished.
  destruct finished as [[[]|?] st1]; [|done]. simpl in Hfiles |- *.
  by rewrite (compress_results_files summary archive st1 Hfiles).
Qed.

End Wrapping.

(** X5.  When [compress_results] is called, every store that the run
    opened, and the summary once the aggregator has written it, is a
    member of the archive, with the lines it holds at that time, and no
    file is added twice. *)
Theorem archive_holds_every_store lines e dir archive name :
  let run := DayParser.finish (DayParser.read_loop lines e (init dir)).2 in
  name ∈ opened run.2 ∨ (run.1 = Ok tt ∧ name = DayParser.summary_name) →
  ∃ members,
    Archive.compress_results DayParser.summary_name archive run.2
    = (Ok (Some (archive, members)), run.2)
    ∧ NoDup members.*1
    ∧ (name, content run.2 name) ∈ members.
Proof.
  intros run Hname.
  assert (Hs : Driver.stores_ok run.2).
  { apply finish_stores_ok.
    exact (read_loop_keeps _ Driver.stores_ok lines e
             (parse_line_stores_ok _ day_pattern_date)
             (init dir) (init_stores_ok dir)). }
  apply compress_results_member.
  - apply files_to_archive_NoDup; [apply Hs|]. apply summary_is_no_store.
  - apply elem_of_files_to_archive. destruct Hname as [Hname|[Hok ->]].
    + destruct Hs as (_ & _ & Hopened).
      destruct (Hopened name Hname) as (op & d & ? & ? & ? & ?). eauto 10.
    + split; [|by left]. by apply finish_creates.
Qed.

Lemma archive_holds_every_store_witness :
  ∃ members,
    Archive.compress_results DayParser.summary_name (L "pg-run.tar.gz")
      (DayParser.finish
         (DayParser.read_loop DayParser.two_selects Driver.EndOfFile (init ∅)).2).2
    = (Ok (Some (L "pg-run.tar.gz", members)),
       (DayParser.finish
          (DayParser.read_loop DayParser.two_selects Driver.EndOfFile (init ∅)).2).2)
    ∧ NoDup members.*1
    ∧ (L "SELECT_2024-01-01.log",
       content
         (DayParser.finish
            (DayParser.read_loop DayParser.two_selects Driver.EndOfFile (init ∅)).2).2
         (L "SELECT_2024-01-01.log")) ∈ members.
Proof.
  apply (archive_holds_every_store DayParser.two_selects Driver.EndOfFile ∅).
  left. vm_compute. constructor.
Defined.

(** X6.  In both parsers the archive gets a name without a slash that
    ends in [.tar.gz], so it is written to the working directory and is
    not among the names that the cleanup looks at, while both summaries
    are.  When the release or the aggregator raises, nothing is
    archived and nothing is removed.  Otherwise the archive holds the
    summary, and the cleanup removes every visible file of the working
    directory whose name ends in [.log], whoever wrote it, but the one
    named exactly as the log file was given; no other file changes. *)
Theorem wrap_up_leaves_no_log (minute : bool) key_of summary path now st :
  let archive :=
    if minute then Archive.archive_name_min path now
    else Archive.archive_name path now in
  let finished := Driver.finish key_of summary st in
  let run := Archive.wrap_up key_of summary path archive st in
  ("/"%char ∉ archive)
  ∧ Archive.glob_log archive = false
  ∧ Archive.glob_log DayParser.summary_name = true
  ∧ Archive.glob_log (Archive.summary_filename path) = true
  ∧ (∀ e, finished.1 = Raise e → run = (Raise e, finished.2))
  ∧ (finished.1 = Ok tt →
     (∃ members,
        run.1 = Ok (Some (archive, members))
        ∧ (summary, content finished.2 summary) ∈ members)
     ∧ ∀ name,
         disk run.2 !! name
         = if Archive.glob_log name && bool_decide (name ≠ path) then None
           else disk finished.2 !! name).
Proof.
  intros archive finished run.
  assert (Hglob : Archive.glob_log archive = false).
  { unfold archive, Archive.archive_name, Archive.archive_name_min.
    destruct minute; rewrite !app_assoc; apply tar_gz_is_no_log. }
  assert (Hlit : ∀ s : string, ("/"%char ∈ L s) → Forall (λ c, c ≠ "/"%char) (L s) →
                               False).
  { intros s Hin Hall. rewrite Forall_forall in Hall. by apply (Hall _ Hin). }
  split_and!.
  - unfold archive, Archive.archive_name, Archive.archive_name_min.
    destruct minute; rewrite !elem_of_app; intros [H|[H|[H|H]]];
      try (by apply base_name_no_slash in H);
      try (by apply run_timestamp_no_slash in H);
      (eapply Hlit; [exact H|]; by repeat constructor).
  - done.
  - done.
  - unfold Archive.summary_filename, MinParser.summary_filename, Archive.glob_log.
    apply andb_true_iff. split; [|done].
    apply ends_with_spec. eexists. by rewrite app_assoc.
  - intros e He. unfold run, Archive.wrap_up, mbind, M_bind, bind.
    fold finished. by destruct finished as [[[]|?] ?]; simplify_eq/=.
  - intros Hok.
    destruct (wrap_up_run key_of summary path archive st Hok) as [Hrun Hin].
    fold finished in Hrun, Hin. fold run in Hrun.
    rewrite Hrun. cbn [fst snd]. split.
    + eexists. split; [done|].
      by apply (list_elem_of_fmap_2 (λ file, (file, content finished.2 file))).
    + intros name. by apply cleanup_files_lookup.
Qed.

(** ** Which stored lines have a minute key *)

Section MinuteKeyExists.

Import MinParser Minutes.

Lemma days_in_month_le y m : days_in_month y m ≤ 31.
Proof.
  unfold days_in_month.
  repeat (destruct m as [|m]; [lia|]); try lia.
  destruct m as [|m]; [destruct (is_leap y); lia|].
  repeat (destruct m as [|m]; [lia|]); lia.
Qed.

Lemma valid_fields d :
  valid d = true →
  1 ≤ month d ≤ 12 ∧ 1 ≤ day d ≤ 31 ∧ hour d ≤ 23 ∧ minute d ≤ 59
  ∧ second d ≤ 59.
Proof.
  unfold valid. rewrite !andb_true_iff, !Nat.leb_le.
  pose proof (days_in_month_le (year d) (month d)). lia.
Qed.

Lemma year_text ts :
  fixed_width ts = true → valid (datetime_of ts) = true →
  show_nat (year (datetime_of ts))
  = drop_while (λ c, eqc c "0"%char) (take 4 ts).
Proof.
  intros Hfw Hvalid.
  destruct (fixed_width_inv ts Hfw)
    as (y1 & y2 & y3 & y4 & m1 & m2 & d1 & d2 & H1 & H2 & M1 & M2 & S1 & S2
        & rest & -> & Hd).
  repeat match goal with
         | H : Forall _ (_ :: _) |- _ => apply Forall_cons in H as [? H]
         end.
  unfold datetime_of, field in *. cbn [year] in *.
  simpl take in *. simpl drop in *. rewrite take_0 in *.
  apply show_nat_int_of; [by repeat constructor|].
  intros Hzero. apply valid_fields in Hvalid as Hf.
  unfold valid in Hvalid. cbn [year] in Hvalid.
  assert (Hy : int_of [y1; y2; y3; y4] = 0).
  { simpl in Hzero.
    destruct (eqc y1 "0"%char) eqn:E1; [|done].
    destruct (eqc y2 "0"%char) eqn:E2; [|done].
    destruct (eqc y3 "0"%char) eqn:E3; [|done].
    destruct (eqc y4 "0"%char) eqn:E4; [|done].
    apply eqc_eq in E1, E2, E3, E4. by subst. }
  rewrite Hy in Hvalid. done.
Qed.

(** X7.  A timestamp of the fixed width [dddd-dd-dd dd:dd:dd] has a
    minute key exactly when the numbers it writes are a calendar time
    (the year from 1 to 9999, the day within its month, leap years
    counted, the second up to 59).  The key is then the year as a
    number, that is the four digits without the zeros in front, and the
    twelve characters that follow the year: the first sixteen characters
    of the timestamp from the year 1000 on.  A line whose timestamp is
    no calendar time is left out of the summary. *)
Theorem minute_key_is_the_valid_minute ts :
  fixed_width ts = true →
  let d := datetime_of ts in
  minute_key ts
  = (if valid d then Some (show_nat (year d) ++ take 12 (drop 4 ts)) else None)
  ∧ (valid d = true →
     show_nat (year d) = drop_while (λ c, eqc c "0"%char) (take 4 ts))
  ∧ (valid d = true → 1000 ≤ year d → minute_key ts = Some (take 16 ts)).
Proof.
  intros Hfw d.
  assert (Hkey : minute_key ts
    = if valid d then Some (show_nat (year d) ++ take 12 (drop 4 ts))
      else None).
  { unfold d. clear d.
    destruct (fixed_width_inv ts Hfw)
      as (y1 & y2 & y3 & y4 & m1 & m2 & d1 & d2 & H1 & H2 & M1 & M2 & S1 & S2
          & rest & -> & Hd).
    repeat match goal with
           | H : Forall _ (_ :: _) |- _ => apply Forall_cons in H as [? H]
           end.
    assert (Hpm : pad2 (int_of [m1; m2]) = [m1; m2])
      by (by rewrite int_of_two by done; apply pad2_two).
    assert (Hpd : pad2 (int_of [d1; d2]) = [d1; d2])
      by (by rewrite int_of_two by done; apply pad2_two).
    assert (HpH : pad2 (int_of [H1; H2]) = [H1; H2])
      by (by rewrite int_of_two by done; apply pad2_two).
    assert (HpM : pad2 (int_of [M1; M2]) = [M1; M2])
      by (by rewrite int_of_two by done; apply pad2_two).
    unfold minute_key, datetime_of, field. simpl take. simpl drop.
    rewrite take_0.
    unfold strptime. rewrite re_match_strptime by assumption.
    rewrite <- !int_of_two by assumption.
    remember (int_of [y1; y2; y3; y4]) as yy eqn:Hy.
    remember (int_of [m1; m2]) as mo eqn:Hmo.
    remember (int_of [d1; d2]) as dd eqn:Hdd.
    remember (int_of [H1; H2]) as hh eqn:Hhh.
    remember (int_of [M1; M2]) as mi eqn:Hmi.
    remember (int_of [S1; S2]) as ss eqn:Hss.
    assert (Hfail : ∀ label : str,
      (mo < 1 ∨ 12 < mo ∨ dd < 1 ∨ 31 < dd ∨ 23 < hh ∨ 59 < mi ∨ 59 < ss) →
      None = if valid (Datetime yy mo dd hh mi ss) then Some label else None).
    { intros label Hbad. destruct (valid _) eqn:Ev; [|done].
      apply valid_fields in Ev. cbn in Ev. lia. }
    destruct (1 <=? mo) eqn:Em1; cbn [andb];
      [|apply Hfail; apply Nat.leb_gt in Em1; lia].
    destruct (mo <=? 12) eqn:Em2; cbn [andb];
      [|apply Hfail; apply Nat.leb_gt in Em2; lia].
    destruct (1 <=? dd) eqn:Ed1; cbn [andb];
      [|apply Hfail; apply Nat.leb_gt in Ed1; lia].
    destruct (dd <=? 31) eqn:Ed2; cbn [andb];
      [|apply Hfail; apply Nat.leb_gt in Ed2; lia].
    destruct (hh <=? 23) eqn:EH; cbn [andb];
      [|apply Hfail; apply Nat.leb_gt in EH; lia].
    destruct (mi <=? 59) eqn:EM; cbn [andb];
      [|apply Hfail; apply Nat.leb_gt in EM; lia].
    destruct (ss <=? 61) eqn:ES.
    - simpl. rewrite <- Hy, <- Hmo, <- Hdd, <- Hhh, <- Hmi, <- Hss.
      destruct (valid _); [|done].
      unfold strftime_minute, replace_second.
      cbn [year month day hour minute].
      by rewrite Hpm, Hpd, HpH, HpM.
    - simpl. apply Hfail. apply Nat.leb_gt in ES. lia. }
  pose proof (year_text ts Hfw) as Htext. fold d in Htext.
  split_and!; [exact Hkey | exact Htext |].
  intros Hvalid Hyear. rewrite Hkey, Hvalid, (Htext Hvalid). f_equal.
  destruct (fixed_width_inv ts Hfw)
    as (y1 & y2 & y3 & y4 & m1 & m2 & d1 & d2 & H1 & H2 & M1 & M2 & S1 & S2
        & rest & -> & Hd).
  unfold d, datetime_of, field in Hyear. cbn [year] in Hyear.
  simpl take in Hyear. simpl drop in Hyear.
  assert (Hy1 : eqc y1 "0"%char = false).
  { apply (year_without_zero y1 y2 y3 y4); [|done].
    by repeat (apply Forall_cons in Hd as [? Hd]; constructor; [done|]). }
  simpl. by rewrite Hy1.
Qed.

End MinuteKeyExists.

Lemma minute_key_is_the_valid_minute_witness :
  MinParser.minute_key (L "2023-02-29 10:00:00.123 UTC") = None
  ∧ MinParser.minute_key (L "2024-02-29 10:00:59.123 UTC")
    = Some (L "2024-02-29 10:00")
  ∧ MinParser.minute_key (L "0999-12-31 23:59:00") = Some (L "999-12-31 23:59").
Proof.
  split_and!.
  - by rewrite (proj1 (minute_key_is_the_valid_minute
                         (L "2023-02-29 10:00:00.123 UTC") eq_refl)).
  - by rewrite (proj1 (minute_key_is_the_valid_minute
                         (L "2024-02-29 10:00:59.123 UTC") eq_refl)).
  - by rewrite (proj1 (minute_key_is_the_valid_minute
                         (L "0999-12-31 23:59:00") eq_refl)).
Defined.

(** ** Every statement of parser.py is counted once *)

Section Conservation.

Import ChunkParser Counts.

Lemma total_insert_fresh (c : gmap (option str * str) nat) k n :
  c !! k = None → total (<[k := n]> c) = n + total c.
Proof.
  intros Hk. unfold total. apply (map_fold_insert_L (λ _ n acc, n + acc)); [|done].
  intros. lia.
Qed.

Lemma total_bump (c : gmap (option str * str) nat) k :
  total (<[k := S (default 0 (c !! k))]> c) = S (total c).
Proof.
  destruct (c !! k) as [n|] eqn:E; simpl.
  - rewrite <- (insert_delete_eq c), total_insert_fresh
      by apply lookup_delete_eq.
    rewrite <- (insert_delete_id c k n E) at 2.
    rewrite total_insert_fresh by apply lookup_delete_eq. lia.
  - by rewrite total_insert_fresh.
Qed.

Lemma finalize_query_balance sh t :
  total (counter (finalize_query sh t)) = balance sh
  ∧ current_query (finalize_query sh t) = [].
Proof.
  unfold finalize_query, balance.
  destruct (current_query sh) as [|piece pieces] eqn:E; [split; [lia|done]|].
  simpl. rewrite total_bump. split; [lia|done].
Qed.

Lemma process_balance line sh :
  balance (process line sh)
  = balance sh + (if starts_record line then 1 else 0).
Proof.
  unfold process, process_line, starts_record.
  destruct (re_search timestamp_regex line) as [[i g]|] eqn:Hs.
  - rewrite bool_decide_eq_true_2 by eauto. rewrite andb_true_r.
    destruct (contains marker line); cbn [fst].
    + destruct (finalize_query_balance sh None) as [Ht Hq].
      unfold balance at 1. cbn [counter current_query].
      destruct (current_query sh) as [|piece pieces] eqn:E.
      * unfold balance. rewrite E. simpl. lia.
      * rewrite Ht, Hq. simpl. lia.
    + destruct (current_query sh) as [|piece pieces] eqn:E; cbn [fst]; [lia|].
      destruct (finalize_query_balance sh None) as [Ht Hq].
      unfold balance at 1. rewrite Ht, Hq. lia.
  - rewrite bool_decide_eq_false_2 by (by intros [? ?]). rewrite andb_false_r.
    destruct (current_query sh) as [|piece pieces] eqn:E; cbn [fst]; [lia|].
    unfold balance. cbn [counter current_query]. rewrite E. simpl. lia.
Qed.

Lemma process_lines_balance lines : ∀ sh,
  balance (process_lines process lines sh)
  = balance sh + length (filter (λ l, starts_record l = true) lines).
Proof.
  unfold process_lines.
  induction lines as [|l lines IH]; intros sh; simpl; [lia|].
  rewrite IH, process_balance, filter_cons.
  case_decide as Hl.
  - rewrite Hl. simpl. lia.
  - apply not_true_is_false in Hl. rewrite Hl. lia.
Qed.

End Conservation.

(** X8.  With a chunk size of at least one character, the counts that
    parser.py returns add up to the number of lines that start a
    record, those with the marker [LOG:  statement: ] and a timestamp:
    every statement is counted once, under one key or another, and
    nothing else is counted. *)
Theorem every_statement_is_counted_once (text : str) (chunk_size : nat) :
  1 ≤ chunk_size →
  Counts.total (ChunkParser.parse_log_in_chunks text chunk_size)
  = length (filter (λ line, Counts.starts_record line = true)
              (ChunkParser.complete_lines text)).
Proof.
  intros Hn. unfold ChunkParser.parse_log_in_chunks.
  rewrite read_file_spec by done.
  pose proof (process_lines_balance (ChunkParser.complete_lines text)
                (ChunkParser.Shared ∅ [])) as Hb.
  destruct (finalize_query_balance
              (ChunkParser.process_lines ChunkParser.process
                 (ChunkParser.complete_lines text) (ChunkParser.Shared ∅ []))
              None) as [Ht _].
  assert (H0 : Counts.balance (ChunkParser.Shared ∅ []) = 0).
  { unfold Counts.balance, Counts.total. simpl. by rewrite map_fold_empty. }
  rewrite H0 in Hb. simpl in Hb.
  destruct (ChunkParser.current_query _) eqn:E.
  - rewrite <- Hb. unfold Counts.balance. rewrite E. lia.
  - by rewrite Ht, Hb.
Qed.

Lemma every_statement_is_counted_once_witness :
  Counts.total
    (ChunkParser.parse_log_in_chunks
       (L "2024-01-01 10:00:01 LOG:  statement: SELECT 1" ++ Driver.nl
        ++ L "2024-01-01 10:00:02 LOG:  statement: SELECT 2" ++ Driver.nl
        ++ L "2024-01-01 10:00:03 LOG:  duration: 1 ms") 7)
  = 2.
Proof.
  rewrite every_statement_is_counted_once by lia. vm_compute. reflexivity.
Defined.

(** ** The body that [extract_query] keeps *)

Section LazyBody.

Context {R : Type}.
Implicit Types (k : cont R).

(** A lazy [.*?] stops at the first place where what follows it
    matches; when that always matches before a semicolon, it takes no
    semicolon. *)
Lemma lazy_dots_stop k fuel : ∀ i c s g x,
  (∀ i' c' s' g', head s' = Some ";"%char → is_Some (k i' c' s' g')) →
  rep_loop false (exec Dot) fuel i c s g k = Some x →
  ∃ m c', m ≤ length s ∧ k (i + m) c' (drop m s) g = Some x
          ∧ ";"%char ∉ take m s.
Proof.
  induction fuel as [|fuel IH]; intros i c s g x Hk Hx; simpl in Hx.
  - exists 0, c. rewrite Nat.add_0_r. split_and!; [lia|done|]. by intros ?%elem_of_nil.
  - destruct (k i c s g) as [y|] eqn:Hhere; simpl in Hx.
    + exists 0, c. rewrite Nat.add_0_r. simpl.
      split_and!; [lia|by rewrite drop_0, Hhere|]. by intros ?%elem_of_nil.
    + destruct s as [|a s]; [done|].
      destruct (negb (eqc a "010"%char)); [|done].
      assert (Hlt : (length s <? length (a :: s)) = true)
        by (apply Nat.ltb_lt; simpl; lia).
      rewrite Hlt in Hx.
      destruct (IH _ _ _ _ _ Hk Hx) as (m & c' & Hm & Hstop & Hno).
      exists (S m), c'. replace (i + S m) with (S i + m) by lia.
      split_and!; [simpl; lia|done|].
      simpl. intros [<-|Hin]%elem_of_cons; [|done].
      destruct (Hk i c (";"%char :: s) g eq_refl) as [y Hy]. congruence.
Qed.

End LazyBody.

Section Body.

Lemma elem_of_drop_while p (s : str) c : c ∈ drop_while p s → c ∈ s.
Proof.
  induction s as [|a s IH]; simpl; [done|].
  destruct (p a); [|done]. intros H. right. by apply IH.
Qed.

Lemma elem_of_strip (s : str) c : c ∈ strip s → c ∈ s.
Proof.
  unfold strip, lstrip, rstrip, rstrip_with.
  intros H%elem_of_drop_while. rewrite elem_of_reverse in H.
  apply elem_of_drop_while in H. by rewrite elem_of_reverse in H.
Qed.

Lemma rstrip_semi_id (s : str) : ";"%char ∉ s → rstrip_semi s = s.
Proof.
  intros Hs. unfold rstrip_semi, rstrip_with.
  destruct (reverse s) as [|a t] eqn:E; simpl.
  - by rewrite <- (reverse_involutive s), E.
  - assert (Ha : a ∈ s) by (rewrite <- elem_of_reverse, E; by left).
    destruct (eqc ";"%char a) eqn:Hc.
    + apply eqc_eq in Hc as <-. done.
    + by rewrite <- E, reverse_involutive.
Qed.

(** The second group of a pattern that ends in [(.*?)(?:;|$)]. *)
Lemma body_group_has_no_semicolon prefix line q :
  2 ∉ groups_of prefix →
  Driver.extract_query
    (Cat prefix (Cat (Grp 2 (Rep false Dot)) (Alt (one ";") Eol))) line
  = Some q →
  ";"%char ∉ sql q.
Proof.
  intros Hgroups. unfold Driver.extract_query, re_match.
  destruct (exec _ 0 None line [] _) as [g|] eqn:Hexec; [|done].
  change (exec prefix 0 None line []
            (λ i c s g0,
               exec (Rep false Dot) i c s g0
                 (λ i' c' s' g',
                    exec (Alt (one ";") Eol) i' c' s' ((2, (i, i')) :: g')
                      (λ _ _ _ g, Some g))) = Some g) in Hexec.
  apply exec_inv in Hexec as (m & c1 & g1 & Hexec & Hm & Hg1).
  rewrite app_nil_r in Hexec. simpl in Hexec.
  apply lazy_dots_stop in Hexec as (m2 & c2 & Hm2 & Hexec & Hno).
  2:{ intros i' c' s' g' Hs'. destruct s' as [|a s']; [done|].
      injection Hs' as ->. simpl. eauto. }
  assert (Hg : g = (2, (m, m + m2)) :: g1).
  { unfold orelse in Hexec.
    destruct (drop m2 (drop m line)) as [|a [|b t]];
      try destruct (eqc a ";"%char); try destruct (eqc a "010"%char);
      by simplify_eq. }
  subst g. simpl.
  replace (m + m2 - m) with m2 by lia.
  destruct (group 1 _ line); [|done].
  intros [= <-]. simpl. by intros H%elem_of_strip.
Qed.

End Body.

(** X9.  The body of a record that [extract_query] takes from a line, in
    either parser, holds no semicolon: the lazy second group never runs
    over one, also not over one inside a string literal.  So line 66
    has nothing to strip from the body of a record of one line. *)
Theorem extracted_body_has_no_semicolon line q :
  DayParser.extract_query line = Some q
  ∨ Driver.extract_query log_pattern_min line = Some q →
  (";"%char ∉ sql q) ∧ rstrip_semi (sql q) = sql q.
Proof.
  intros H.
  assert (Hno : ";"%char ∉ sql q).
  { destruct H as [H|H].
    - apply (body_group_has_no_semicolon
               (Cat Bol (Cat (Grp 1 stamp)
                  (Cat (Rep false Dot) (Lit true (L "statement: "))))) line);
        [|exact H].
      vm_compute. intros Hin.
      repeat (apply elem_of_cons in Hin as [Hin|Hin]; [done|]).
      by apply elem_of_nil in Hin.
    - apply (body_group_has_no_semicolon
               (Cat Bol (Cat (Grp 1 stamp)
                  (Cat (Rep false Dot)
                     (Cat (one ":") (Plus true (Chr is_space)))))) line);
        [|exact H].
      vm_compute. intros Hin.
      repeat (apply elem_of_cons in Hin as [Hin|Hin]; [done|]).
      by apply elem_of_nil in Hin. }
  split; [done|]. by apply rstrip_semi_id.
Qed.

Lemma extracted_body_has_no_semicolon_witness :
  rstrip_semi (L "SELECT 'a") = L "SELECT 'a".
Proof.
  apply (extracted_body_has_no_semicolon
           (L "2024-01-01 10:00:01 LOG:  statement: SELECT 'a;b'; SELECT 2")
           (Query (L "2024-01-01 10:00:01") (L "SELECT 'a"))).
  left. vm_compute. reflexivity.
Defined.

(** ** The comments of [normalize_query] *)

Section Comments.

Import ChunkParser.

(** The greedy [.*] takes a text without line feed to its end. *)
Lemma rep_dots {R} (t : str) :
  no_lf t →
  ∀ fuel i c g (k : cont R) x,
    length t ≤ fuel →
    k (i + length t) (last_seen c t) [] g = Some x →
    rep_loop true (exec Dot) fuel i c t g k = Some x.
Proof.
  induction 1 as [|d t Hd Ht IH]; intros fuel i c g k x Hfuel Hk.
  - rewrite Nat.add_0_r in Hk. destruct fuel as [|fuel]; [apply Hk|].
    rewrite rep_loop_greedy. unfold Dot. rewrite exec_chr_miss by done.
    apply Hk.
  - destruct fuel as [|fuel]; [simpl in Hfuel; lia|].
    rewrite rep_loop_greedy. unfold Dot at 1.
    rewrite exec_chr_hit by (by rewrite Hd).
    replace (length t <? length (d :: t))
      with true by (symmetry; apply Nat.ltb_lt; simpl; lia).
    rewrite (IH fuel (S i) (Some d) g k x); [done| |].
    + simpl in Hfuel. lia.
    + rewrite <- (last_seen_cons c).
      replace (S i + length t) with (i + length (d :: t)) by (simpl; lia).
      apply Hk.
Qed.

Lemma attempt_comment (t : str) i c :
  no_lf t →
  attempt comment_pattern false i c ("-"%char :: "-"%char :: t)
  = Some (i + (2 + length t), last_seen (Some "-"%char) t, [], []).
Proof.
  intros Ht. unfold attempt, comment_pattern. cbv [Seq].
  rewrite exec_cat, exec_one_hit, exec_cat, exec_one_hit, exec_rep.
  apply rep_dots; [done|done|]. simpl.
  by replace (i + S (S (length t))) with (S (S (i + length t))) by lia.
Qed.

Lemma attempt_no_comment (s : str) i c :
  starts_with (L "--") s = false →
  attempt comment_pattern false i c s = None.
Proof.
  intros Hs. unfold attempt, comment_pattern. cbv [Seq].
  rewrite exec_cat.
  destruct s as [|a s]; [done|].
  destruct (eqc a "-"%char) eqn:Ha.
  - apply eqc_eq in Ha as ->. rewrite exec_one_hit, exec_cat.
    destruct s as [|b s]; [done|].
    destruct (eqc b "-"%char) eqn:Hb.
    + apply eqc_eq in Hb as ->. by vm_compute in Hs.
    + by rewrite exec_one_miss by (by apply eqc_neq).
  - by rewrite exec_one_miss by (by apply eqc_neq).
Qed.

Lemma sub_loop_comment (s : str) : ∀ fuel i c,
  no_lf s → length s < fuel →
  sub_loop comment_pattern [] fuel i c s
  = match find (L "--") s with
    | Some n => take n s
    | None => s
    end.
Proof.
  induction s as [|a s IH]; intros fuel i c Hs Hfuel.
  - destruct fuel as [|fuel]; [lia|].
    by rewrite sub_loop_end by (by apply attempt_no_comment).
  - destruct fuel as [|fuel]; [lia|].
    destruct (starts_with (L "--") (a :: s)) eqn:Hstart.
    + change (find (L "--") (a :: s)) with
        (if starts_with (L "--") (a :: s) then Some 0
         else S <$> find (L "--") s).
      rewrite Hstart. simpl take.
      apply starts_with_spec in Hstart as [t Ht]. simpl in Ht.
      injection Ht as -> ->.
      assert (Hnl : no_lf t) by (by do 2 apply Forall_cons in Hs as [_ Hs]).
      rewrite (sub_loop_hit _ _ _ _ _ _ _ _ _ _ (attempt_comment t i c Hnl))
        by lia.
      destruct fuel as [|fuel]; [done|].
      by rewrite sub_loop_end by (by apply attempt_no_comment).
    + rewrite sub_loop_skip by (by apply attempt_no_comment).
      change (find (L "--") (a :: s)) with
        (if starts_with (L "--") (a :: s) then Some 0
         else S <$> find (L "--") s).
      rewrite Hstart.
      apply Forall_cons in Hs as [_ Hs].
      rewrite IH by (done || simpl in Hfuel; lia).
      by destruct (find (L "--") s).
Qed.

Lemma find_take_first (p s : str) n :
  p ≠ [] → find p s = Some n → find p (take n s) = None.
Proof.
  intros Hp. revert n. induction s as [|a s IH]; intros n.
  - destruct p; [done|]. simpl. destruct n; by intros [=].
  - change (find p (a :: s)) with
      (if starts_with p (a :: s) then Some 0 else S <$> find p s).
    destruct (starts_with p (a :: s)) eqn:Hstart.
    + intros [= <-]. simpl. destruct p; [done|]. done.
    + destruct (find p s) as [m|] eqn:Hm; [|done]. intros [= <-].
      simpl take.
      change (find p (a :: take m s)) with
        (if starts_with p (a :: take m s) then Some 0
         else S <$> find p (take m s)).
      rewrite (IH m eq_refl).
      destruct (starts_with p (a :: take m s)) eqn:Hs2; [|done].
      apply starts_with_spec in Hs2 as [t Ht].
      assert (Hcontra : starts_with p (a :: s) = true).
      { apply starts_with_spec. exists (t ++ drop m s).
        rewrite app_assoc, <- Ht. simpl. by rewrite take_drop. }
      congruence.
Qed.

End Comments.

(** X10.  On a statement without line feed, as [finalize_query] builds
    them, [normalize_query] sees nothing from the first [--] on, also
    when the two dashes stand between quotes: the statement is counted
    under the key of the text before them. *)
Theorem normalize_query_drops_from_the_first_comment (query : str) (n : nat) :
  ChunkParser.no_lf query →
  find (L "--") query = Some n →
  re_sub comment_pattern [] query = take n query
  ∧ ChunkParser.normalize_query query
    = ChunkParser.normalize_query (take n query).
Proof.
  intros Hq Hn.
  assert (H1 : re_sub comment_pattern [] query = take n query).
  { unfold re_sub. rewrite sub_loop_comment by (done || lia). by rewrite Hn. }
  assert (H2 : re_sub comment_pattern [] (take n query) = take n query).
  { unfold re_sub. rewrite sub_loop_comment.
    - by rewrite (find_take_first (L "--") query n).
    - by apply Forall_take.
    - lia. }
  split; [done|]. unfold ChunkParser.normalize_query. by rewrite H1, H2.
Qed.

Lemma normalize_query_drops_from_the_first_comment_witness :
  ChunkParser.normalize_query (L "SELECT 'a--b', 7 FROM t -- note")
  = ChunkParser.normalize_query (L "SELECT 'a").
Proof.
  apply (normalize_query_drops_from_the_first_comment
           (L "SELECT 'a--b', 7 FROM t -- note") 9).
  - unfold ChunkParser.no_lf. apply (bool_decide_unpack _). vm_compute. exact I.
  - vm_compute. reflexivity.
Defined.

(** ** The characters that a match takes *)

Section Avoiding.

Import Pipeline.

Context {R : Type}.

Lemma rep_loop_avoids bad greedy r1 :
  avoiding (R:=R) bad r1 (exec r1) →
  ∀ fuel, avoiding (R:=R) bad r1 (rep_loop greedy (exec r1) fuel).
Proof.
  intros Hbody fuel. induction fuel as [|fuel IH]; intros i c s g k x Hx.
  - exists 0, c, []. rewrite Nat.add_0_r. simpl.
    split_and!; [done|lia|done|by intros ?%elem_of_nil].
  - simpl in Hx.
    assert (Hcases :
      k i c s g = Some x
      ∨ exec r1 i c s g (λ i' c' s' g',
          if length s' <? length s
          then rep_loop greedy (exec r1) fuel i' c' s' g' k else None) = Some x).
    { destruct greedy; apply orelse_Some in Hx; tauto. }
    destruct Hcases as [Hk|Hmore].
    + exists 0, c, []. rewrite Nat.add_0_r. simpl.
      split_and!; [done|lia|done|by intros ?%elem_of_nil].
    + apply Hbody in Hmore as (m1 & c1 & g1 & Hmore & Hm1 & Hg1 & Hb1).
      destruct (length (drop m1 s) <? length s); [|done].
      apply IH in Hmore as (m2 & c2 & g2 & Hk & Hm2 & Hg2 & Hb2).
      exists (m1 + m2), c2, (g2 ++ g1).
      rewrite Nat.add_assoc, <- drop_drop, <- app_assoc.
      split_and!; [done| | |].
      * rewrite length_drop in Hm2. lia.
      * by apply Forall_app.
      * rewrite <- take_take_drop. rewrite elem_of_app. tauto.
Qed.

Lemma exec_avoids bad r : avoids bad r = true → avoiding (R:=R) bad r (exec r).
Proof.
  induction r as [p| |r1 IH1 r2 IH2|r1 IH1 r2 IH2|greedy r1 IH1| | | |n r1 IH1];
    simpl; intros Hr i c s g k x Hx; simpl in Hx.
  - destruct s as [|a s]; [done|]. destruct (p a) eqn:Ha; [|done].
    exists 1, (Some a), []. rewrite Nat.add_1_r. simpl.
    split_and!; [done|lia|done|].
    intros [<-|?%elem_of_nil]%elem_of_cons; [|done].
    by rewrite Ha in Hr.
  - exists 0, c, []. rewrite Nat.add_0_r.
    split_and!; [done|lia|done|by intros ?%elem_of_nil].
  - apply andb_prop in Hr as [Hr1 Hr2].
    apply (IH1 Hr1) in Hx as (m1 & c1 & g1 & Hx & Hm1 & Hg1 & Hb1).
    apply (IH2 Hr2) in Hx as (m2 & c2 & g2 & Hx & Hm2 & Hg2 & Hb2).
    exists (m1 + m2), c2, (g2 ++ g1).
    rewrite Nat.add_assoc, <- drop_drop, <- app_assoc.
    split_and!; [done| | |].
    + rewrite length_drop in Hm2. lia.
    + apply Forall_app. split; eapply Forall_impl; eauto; simpl;
        intros ? ?; apply elem_of_app; auto.
    + rewrite <- take_take_drop. rewrite elem_of_app. tauto.
  - apply andb_prop in Hr as [Hr1 Hr2].
    apply orelse_Some in Hx as [Hx|[_ Hx]].
    + apply (IH1 Hr1) in Hx as (m & c' & g' & Hx & Hm & Hg & Hb).
      exists m, c', g'. split_and!; [done..| |done].
      eapply Forall_impl; eauto; simpl; intros ? ?; apply elem_of_app; auto.
    + apply (IH2 Hr2) in Hx as (m & c' & g' & Hx & Hm & Hg & Hb).
      exists m, c', g'. split_and!; [done..| |done].
      eapply Forall_impl; eauto; simpl; intros ? ?; apply elem_of_app; auto.
  - by apply (rep_loop_avoids bad greedy r1 (IH1 Hr)) in Hx.
  - destruct i; [|done].
    exists 0, c, []. split_and!; [done|lia|done|by intros ?%elem_of_nil].
  - exists 0, c, []. rewrite Nat.add_0_r. simpl.
    destruct s as [|a [|b s]]; [| |done];
      [split_and!; [done|lia|done|by intros ?%elem_of_nil]|].
    destruct (eqc a _); [|done].
    split_and!; [done|simpl; lia|done|by intros ?%elem_of_nil].
  - destruct (xorb _ _); [|done].
    exists 0, c, []. rewrite Nat.add_0_r.
    split_and!; [done|lia|done|by intros ?%elem_of_nil].
  - apply (IH1 Hr) in Hx as (m & c' & g' & Hx & Hm & Hg & Hb).
    exists m, c', ((n, (i, i + m)) :: g'). split_and!; [done..| |done].
    constructor; [by left|].
    eapply Forall_impl; eauto; simpl; intros ? ?; by right.
Qed.

End Avoiding.

Section StoredLines.

Import Driver Account Pipeline.

Lemma extract_query_bar rest_pattern line q :
  1 ∉ groups_of rest_pattern →
  extract_query (Cat Bol (Cat (Grp 1 stamp) rest_pattern)) line = Some q →
  "|"%char ∉ timestamp q.
Proof.
  intros Hgroups. unfold extract_query, re_match.
  destruct (exec _ 0 None line [] _) as [g|] eqn:Hexec; [|done].
  change (exec (Grp 1 stamp) 0 None line []
            (λ i' c' s' g', exec rest_pattern i' c' s' g'
               (λ _ _ _ g, Some g)) = Some g) in Hexec.
  rewrite exec_grp in Hexec.
  apply (exec_avoids "|"%char stamp eq_refl) in Hexec
    as (m & c' & g' & Hexec & Hm & Hg' & Hbad).
  destruct g' as [|e' g'];
    [|by apply Forall_cons in Hg' as [?%elem_of_nil _]].
  apply exec_inv in Hexec as (m2 & c2 & g2 & Hexec & Hm2 & Hg2).
  injection Hexec as <-.
  rewrite group_skip.
  - simpl group. destruct (group 2 _ _); [|done]. intros [= <-]. simpl timestamp.
    rewrite Nat.sub_0_r, drop_0. by intros H%elem_of_strip.
  - eapply Forall_impl; [exact Hg2|]. simpl. intros e He Heq.
    by rewrite Heq in He.
Qed.

(** The separator of a stored line is found after the timestamp. *)
Lemma find_separator (ts rest : str) :
  "|"%char ∉ ts → find (L " | ") (ts ++ L " | " ++ rest) = Some (length ts).
Proof.
  induction ts as [|a ts IH]; intros Hbar; [done|].
  change (find (L " | ") ((a :: ts) ++ L " | " ++ rest)) with
    (if starts_with (L " | ") ((a :: ts) ++ L " | " ++ rest) then Some 0
     else S <$> find (L " | ") (ts ++ L " | " ++ rest)).
  rewrite IH by (intros H; apply Hbar; by right).
  assert (Hno : starts_with (L " | ") ((a :: ts) ++ L " | " ++ rest) = false).
  { destruct ts as [|b ts].
    - simpl. by rewrite andb_false_r.
    - assert (Hb : eqc " "%char a && (eqc "|"%char b && true) = false).
      { destruct (eqc "|"%char b) eqn:E; [|by rewrite andb_false_r].
        apply eqc_eq in E as <-. destruct Hbar. right. by left. }
      change (starts_with (L " | ") ((a :: b :: ts) ++ L " | " ++ rest))
        with (eqc " "%char a
              && (eqc "|"%char b
                  && starts_with (L " ") (ts ++ L " | " ++ rest))).
      destruct (eqc " "%char a); [|done]. simpl.
      destruct (eqc "|"%char b) eqn:E; [|done].
      apply eqc_eq in E as <-. destruct Hbar. right. by left. }
  by rewrite Hno.
Qed.

Lemma strip_line (body : str) : strip (body ++ nl) = strip body.
Proof.
  unfold strip, rstrip, rstrip_with. by rewrite reverse_app.
Qed.

(** The aggregator reads a stored line back as the record that gave
    it. *)
Lemma tally_stored_line key_of s q name line :
  "|"%char ∉ timestamp q →
  routed_line q = Some (name, line) →
  tally_line key_of s line = count_record key_of s q.
Proof.
  intros Hbar. unfold routed_line.
  destruct (first_word _); [|done].
  destruct (split (timestamp q)); [done|].
  intros [= _ <-]. unfold tally_line, count_record, split_once, store_line.
  rewrite find_separator by done.
  rewrite take_app_length.
  replace (length (timestamp q) + length (L " | "))
    with (length (timestamp q ++ L " | ")) by (by rewrite length_app).
  rewrite app_assoc, drop_app_length, strip_line. done.
Qed.

End StoredLines.

Section Counting.

Import Driver Account Pipeline.

Lemma bump_comm (k1 n1 k2 n2 : str) (s : stats) :
  bump k1 n1 (bump k2 n2 s) = bump k2 n2 (bump k1 n1 s).
Proof.
  destruct (decide (k1 = k2)) as [->|Hk].
  - destruct (decide (n1 = n2)) as [->|Hn]; [done|].
    unfold bump. rewrite !lookup_insert_eq. simpl. rewrite !insert_insert_eq.
    f_equal. rewrite !lookup_insert_ne by done. by apply insert_insert_ne.
  - unfold bump. rewrite !lookup_insert_ne by done. by apply insert_insert_ne.
Qed.

Lemma tally_line_comm (key_of : str → option str) (s : stats) (l1 l2 : str) :
  tally_line key_of (tally_line key_of s l1) l2
  = tally_line key_of (tally_line key_of s l2) l1.
Proof.
  unfold tally_line.
  destruct (split_once _ l1) as [|t1 [|b1 [|? ?]]]; try done;
    destruct (split_once _ l2) as [|t2 [|b2 [|? ?]]]; try done.
  destruct (key_of t1), (key_of t2); try done. apply bump_comm.
Qed.

Lemma foldl_permutation {A B} (f : A → B → A) :
  (∀ a x y, f (f a x) y = f (f a y) x) →
  ∀ l1 l2, l1 ≡ₚ l2 → ∀ a, foldl f a l1 = foldl f a l2.
Proof.
  intros Hf l1 l2 Hp. induction Hp as [|x l1 l2 _ IH|x y l|l1 l2 l3 _ IH1 _ IH2];
    intros a; simpl.
  - done.
  - apply IH.
  - by rewrite Hf.
  - by rewrite IH1, IH2.
Qed.

Lemma bind_app_permutation {A B} (f g : A → list B) (l : list A) :
  (x ← l; f x ++ g x) ≡ₚ (l ≫= f) ++ (l ≫= g).
Proof.
  induction l as [|x l IH]; [done|].
  rewrite !bind_cons, IH. rewrite <- !app_assoc. f_equiv.
  rewrite !app_assoc. f_equiv. apply Permutation_app_comm.
Qed.

Lemma bind_nothing {A B} (l : list A) : (l ≫= λ _, @nil B) = [].
Proof. induction l as [|x l IH]; [done|]. by rewrite bind_cons, IH. Qed.

Lemma bind_not_chosen (names : list str) n0 (l : str) :
  n0 ∉ names → (n ← names; if decide (n0 = n) then [l] else []) = [].
Proof.
  induction names as [|n names IH]; [done|].
  intros Hn. rewrite bind_cons, IH by (intros ?; apply Hn; by right).
  rewrite decide_False; [done|]. intros ->. apply Hn. by left.
Qed.

Lemma bind_chosen (names : list str) n0 (l : str) :
  NoDup names → n0 ∈ names →
  (n ← names; if decide (n0 = n) then [l] else []) = [l].
Proof.
  induction 1 as [|n names Hn Hnd IH]; [by intros ?%elem_of_nil|].
  rewrite bind_cons. intros [->|Hin]%elem_of_cons.
  - rewrite decide_True by done. by rewrite bind_not_chosen.
  - rewrite decide_False by (by intros ->). simpl. by apply IH.
Qed.

Lemma lines_for_cons name q records :
  lines_for name (q :: records)
  = match routed_line q with
    | Some (n, l) => if decide (n = name) then [l] else []
    | None => []
    end ++ lines_for name records.
Proof.
  unfold lines_for. simpl. destruct (routed_line q) as [[n l]|]; [|done].
  by case_decide.
Qed.

Lemma lines_for_permutation (names : list str) records :
  NoDup names →
  (∀ q n l, q ∈ records → routed_line q = Some (n, l) → n ∈ names) →
  (n ← names; lines_for n records) ≡ₚ lines_of records.
Proof.
  intros Hnd. induction records as [|q records IH]; intros Hin.
  - apply Permutation_refl'. apply bind_nothing.
  - rewrite (list_bind_ext _
      (λ n, match routed_line q with
            | Some (n0, l) => if decide (n0 = n) then [l] else []
            | None => []
            end ++ lines_for n records) names names);
      [|intros; apply lines_for_cons|done].
    rewrite bind_app_permutation, IH.
    2:{ intros q' n l Hq'. apply Hin. by right. }
    unfold lines_of. simpl.
    destruct (routed_line q) as [[n0 l]|] eqn:Hq; simpl.
    + rewrite bind_chosen; [done|done|]. apply (Hin q n0 l); [by left|done].
    + by rewrite bind_nothing.
Qed.

Lemma elem_of_lines_for q records n l :
  q ∈ records → routed_line q = Some (n, l) → l ∈ lines_for n records.
Proof.
  intros Hq Hr. unfold lines_for. apply list_elem_of_omap. exists q.
  split; [done|]. rewrite Hr. by rewrite decide_True.
Qed.

Lemma tally_lines_of (key_of : str → option str) (records : list query) : ∀ s,
  Forall (λ q, "|"%char ∉ timestamp q) records →
  foldl (tally_line key_of) s (lines_of records)
  = foldl (count_record key_of) s
      (filter (λ q, is_Some (routed_line q)) records).
Proof.
  induction records as [|q records IH]; intros s Hbar; [done|].
  apply Forall_cons in Hbar as [Hq Hbar].
  rewrite filter_cons.
  destruct (routed_line q) as [[n l]|] eqn:Hr.
  - rewrite decide_True by eauto.
    unfold lines_of. simpl. rewrite Hr. simpl.
    rewrite (tally_stored_line key_of s q n l Hq Hr). by apply IH.
  - rewrite decide_False by (by intros [? ?]).
    unfold lines_of. simpl. rewrite Hr. simpl. by apply IH.
Qed.

End Counting.

(** ** From the input to the summary *)

Section EndToEnd.

Import Driver Account Pipeline.

Variable rest_pattern : regex.
Hypothesis rest_groups : 1 ∉ groups_of rest_pattern.

Variable key_of : str → option str.
Variable summary : str.

Lemma released_state_counts lines e :
  let pattern := Cat Bol (Cat (Grp 1 stamp) rest_pattern) in
  let records := records_of pattern lines in
  Forall (λ q, ¬ blank_body q) records →
  let reading := read_loop pattern lines e (init ∅) in
  let released := release reading.2 in
  reading.1 = end_of_input e ∧ released.1 = Ok tt
  ∧ cache_ok released.2
  ∧ tally key_of (reached released.2) = record_counts key_of records.
Proof.
  intros pattern records Hblank.
  assert (Hpat : ∀ line q, extract_query pattern line = Some q → dated q).
  { intros line q. by apply extract_query_date. }
  assert (Hdated : Forall dated records).
  { apply (records_stamps
      (λ ts, ∃ date rest, split ts = date :: rest ∧ plain_date date)).
    exact Hpat. }
  assert (Hbar : Forall (λ q, "|"%char ∉ timestamp q) records).
  { apply (records_stamps (λ ts, "|"%char ∉ ts)).
    intros line q. by apply extract_query_bar. }
  assert (Hall : Forall routable records).
  { rewrite Forall_forall in Hdated, Hblank. apply Forall_forall.
    intros q Hq. apply dated_routable; auto. }
  destruct (release_after_reading pattern ∅ lines e Hall)
    as (Hout & Hrel & _ & Hcontent & _).
  set (reading := (read_loop pattern lines e (init ∅)).2) in *.
  set (st := (release reading).2) in *.
  assert (Hs : stores_ok st).
  { apply release_stores_ok.
    exact (read_loop_keeps _ stores_ok lines e
             (parse_line_stores_ok _ Hpat) (init ∅) (init_stores_ok ∅)). }
  assert (Hu : untouched ∅ st).
  { apply release_untouched.
    exact (read_loop_keeps _ (untouched ∅) lines e
             (parse_line_untouched _ ∅) (init ∅) (init_untouched ∅)). }
  assert (Hc : cache_ok st).
  { exact (release_keeps_cache cache_ok cache_ok_view _
             (read_loop_keeps_cache cache_ok cache_ok_view pattern
                lines e (init ∅) (cache_ok_init ∅))). }
  assert (Hlines : ∀ name, content st name = lines_for name records).
  { intros name. rewrite Hcontent. by rewrite lookup_empty. }
  assert (Hvisited : ∀ q n l,
    q ∈ records → routed_line q = Some (n, l) → n ∈ visited st).
  { intros q n l Hq Hr. apply opened_visited; [done|].
    destruct (decide (n ∈ opened st)) as [|Hn]; [done|].
    pose proof (elem_of_lines_for q records n l Hq Hr) as Hl.
    rewrite <- Hlines in Hl. unfold content in Hl.
    rewrite (proj2 Hu n Hn), lookup_empty in Hl. by apply elem_of_nil in Hl. }
  assert (Hreached : reached st ≡ₚ lines_of records).
  { unfold reached.
    rewrite (list_bind_ext _ (λ n, lines_for n records) (visited st) (visited st));
      [|exact Hlines|done].
    apply lines_for_permutation; [|exact Hvisited].
    apply visited_NoDup. intros date Hdate. by apply Hs. }
  assert (Htally : tally key_of (reached st) = record_counts key_of records).
  { unfold tally, record_counts.
    rewrite (foldl_permutation (tally_line key_of) (tally_line_comm key_of)
               _ _ Hreached ∅).
    rewrite tally_lines_of by done. f_equal.
    clear -Hall. induction Hall as [|q l Hq Hl IH]; [done|].
    rewrite filter_cons, decide_True by done. by rewrite IH. }
  by split_and!.
Qed.

End EndToEnd.

(** X11.  Run in an empty working directory on an input none of whose
    records has a body of semicolons or blanks only, either program
    reads its input to the end, its [finally] block raises nothing, and
    the archive it leaves holds the summary with one line for each pair
    of a key (the date, or the minute) and a normal form, carrying the
    number of records of the input that have them. *)
Theorem summary_counts_the_records (minute : bool) path now lines e :
  let pattern := if minute then log_pattern_min else log_pattern in
  let key_of := if minute then MinParser.minute_key else DayParser.date_key in
  let summary :=
    if minute then Archive.summary_filename path else DayParser.summary_name in
  let archive :=
    if minute then Archive.archive_name_min path now
    else Archive.archive_name path now in
  let records := Account.records_of pattern lines in
  Forall (λ q, ¬ Account.blank_body q) records →
  let reading := Driver.read_loop pattern lines e (init ∅) in
  let run := Archive.wrap_up key_of summary path archive reading.2 in
  reading.1 = Account.end_of_input e
  ∧ ∃ members,
      run.1 = Ok (Some (archive, members))
      ∧ (summary,
         Driver.summary_lines (Pipeline.record_counts key_of records))
        ∈ members.
Proof.
  intros pattern key_of summary archive records Hblank reading run.
  assert (Hpat : ∃ rest,
    pattern = Cat Bol (Cat (Grp 1 stamp) rest) ∧ 1 ∉ groups_of rest).
  { unfold pattern. destruct minute; eexists; (split; [reflexivity|]); simpl;
      intros H;
      by repeat (apply elem_of_nil in H || apply elem_of_cons in H as [?|H]
                 || apply elem_of_app in H as [H|H]). }
  destruct Hpat as (rest & Hpattern & Hgroups).
  unfold records in Hblank. rewrite Hpattern in Hblank.
  destruct (released_state_counts rest Hgroups key_of lines e Hblank)
    as (Hout & Hrel & Hc & Htally).
  rewrite <- Hpattern in Hout, Hrel, Hc, Htally.
  fold records in Htally. fold reading in Hout, Hrel, Hc, Htally.
  split; [exact Hout|].
  destruct (generate_summary_counts key_of summary _ Hc) as [Hgen Hsum].
  rewrite Htally in Hsum.
  assert (Hfinish : (Driver.finish key_of summary reading.2).1 = Ok tt
    ∧ content (Driver.finish key_of summary reading.2).2 summary
      = Driver.summary_lines (Pipeline.record_counts key_of records)).
  { unfold Driver.finish, mbind, M_bind, bind.
    destruct (Driver.release reading.2) as [[[]|?] st2]; [|done].
    by simpl in *. }
  destruct Hfinish as [Hok Hcontent].
  destruct (wrap_up_run key_of summary path archive reading.2 Hok)
    as [Hrun Hin].
  unfold run. rewrite Hrun. cbn [fst snd]. eexists. split; [done|].
  rewrite <- Hcontent.
  by apply (list_elem_of_fmap_2
              (λ file, (file, content (Driver.finish key_of summary reading.2).2
                                file))).
Qed.

Lemma summary_counts_the_records_witness :
  ∃ members,
    (Archive.wrap_up DayParser.date_key DayParser.summary_name (L "pg.log")
       (Archive.archive_name (L "pg.log") (MinParser.Datetime 2024 1 2 3 4 5))
       (DayParser.read_loop DayParser.two_selects Driver.EndOfFile (init ∅)).2).1
    = Ok (Some (L "pg-2024-01-02_03-04-05.tar.gz", members))
    ∧ (DayParser.summary_name,
       [L "2024-01-01 | SELECT * FROM users WHERE id = $num | выполнился 2 раз"
        ++ Driver.nl]) ∈ members.
Proof.
  assert (H : Forall (λ q, ¬ Account.blank_body q)
                (Account.records_of log_pattern DayParser.two_selects)).
  { apply Forall_forall. intros q Hq [_ Hsplit].
    vm_compute in Hq.
    repeat (apply elem_of_nil in Hq || apply elem_of_cons in Hq as [->|Hq]);
      try done; by vm_compute in Hsplit. }
  destruct (summary_counts_the_records false (L "pg.log")
              (MinParser.Datetime 2024 1 2 3 4 5) DayParser.two_selects
              Driver.EndOfFile H) as (_ & members & H1 & H2).
  exists members. split; [exact H1|].
  replace [L "2024-01-01 | SELECT * FROM users WHERE id = $num | выполнился 2 раз"
           ++ Driver.nl]
    with (Driver.summary_lines
            (Pipeline.record_counts DayParser.date_key
               (Account.records_of log_pattern DayParser.two_selects)))
    by (vm_compute; reflexivity).
  exact H2.
Defined.
